(** * Learnable mixed-precision quantizer of [models/qmodules.py]

    A shallow embedding of the quantization engine: the bit-logit mapper,
    the [Quantizer] module and its two rounding policies, the [noise_quant]
    autograd function, the quantized operator wrappers, [initialize_Q], the
    BOPs cost model and the offset calibration hooks.

    Numbers.  Tensor elements and 0-dim tensors are modelled by real numbers
    ([R]): arithmetic is exact, [torch.sigmoid], [F.softplus] and [torch.pow]
    are the real functions they approximate, and [torch.round] is rounding to
    the nearest integer with ties to even.  Python integers are [Z].  What
    binary32 does beyond rounding a result (underflow to zero, infinities,
    NaN) is embedded apart, in [F32], for the deterministic path of
    [_quant].

    Tensors.  A tensor is its device, its shape and its element function on
    multi-indices; a 0-dim tensor is a constant function, which is how it
    broadcasts against every shape.  Shape checks of element-wise operations
    are outside the model.

    Strings.  An activation tag is a Python [str] whose code points are
    below 256: one [ascii] is one code point.

    Effects.  The global random generators of [torch] are threaded as an
    explicit state; Python exceptions are values of [exn]. *)

From Stdlib Require Import Reals Lra Lia ZArith Bool String Ascii List.
Import ListNotations.
Open Scope R_scope.

(** ** Exceptions and the state-and-error monad *)

Inductive exn : Type :=
| NotImplementedError
| AttributeError
| TypeError
| AssertionError
| RuntimeError
| ZeroDivisionError
| IndexError
| ValueError
| SystemExit.

Definition result (A : Type) : Type := (exn + A)%type.

Definition ok {A : Type} (a : A) : result A := inr a.
Definition raise {A : Type} (e : exn) : result A := inl e.

Definition rbind {A B : Type} (r : result A) (k : A -> result B) : result B :=
  match r with
  | inl e => inl e
  | inr a => k a
  end.

(** ** Scalars *)

Definition Rltb (a b : R) : bool := if Rlt_dec a b then true else false.

(** [torch.round]: nearest integer, ties to the even one. *)
Definition round_half_even (r : R) : Z :=
  let f := Int_part r in
  let d := r - IZR f in
  if Rlt_dec d (1 / 2) then f
  else if Rlt_dec (1 / 2) d then (f + 1)%Z
  else if Z.even f then f else (f + 1)%Z.

Definition round (r : R) : R := IZR (round_half_even r).

(** Python's [int(...)] on a float: truncation towards zero. *)
Definition int_of (r : R) : Z :=
  if Rlt_dec r 0 then (- Int_part (- r))%Z else Int_part r.

Definition sigmoid (x : R) : R := 1 / (1 + exp (- x)).

(** [F.softplus] with its defaults [beta=1], [threshold=20]. *)
Definition softplus (x : R) : R :=
  if Rlt_dec 20 x then x else ln (1 + exp x).

(** [torch.clamp(v, lo, hi)]. *)
Definition clamp (v lo hi : R) : R := Rmin (Rmax v lo) hi.

(** [t.detach()] keeps the value and cuts the gradient. *)
Definition detach (v : R) : R := v.

(** [hard_quant]: the forward value of the straight-through round. *)
Definition hard_quant (x : R) : R :=
  let y_out := round x in
  let y_grad := x in
  detach (y_out - y_grad) + y_grad.

(** ** Strings: what [Quantizer.__init__] does with the activation tag *)

(** [str.lower()] of one code point below 256: the letters [A]-[Z] and the
    accented capitals U+00C0-U+00DE, the multiplication sign U+00D7 apart. *)
Definition lower_char (c : ascii) : ascii :=
  let n := nat_of_ascii c in
  if ((Nat.leb 65 n && Nat.leb n 90)
      || (Nat.leb 192 n && Nat.leb n 214)
      || (Nat.leb 216 n && Nat.leb n 222))%bool
  then ascii_of_nat (n + 32) else c.

Fixpoint lower (s : string) : string :=
  match s with
  | EmptyString => EmptyString
  | String c s' => String (lower_char c) (lower s')
  end.

(** Python's [needle in s] on strings: [needle] occurs as a substring. *)
Fixpoint str_in (needle s : string) : bool :=
  (String.prefix needle s
   || match s with
      | EmptyString => false
      | String _ s' => str_in needle s'
      end)%bool.

(** [s[:n]]. *)
Definition slice_to (n : nat) (s : string) : string := substring 0 n s.

(** [s[-1]] of a non-empty string. *)
Fixpoint last_char (s : string) : option ascii :=
  match s with
  | EmptyString => None
  | String c EmptyString => Some c
  | String _ s' => last_char s'
  end.

(** [c.isdigit()] of one code point below 256: the decimal digits and the
    superscripts two, three and one (U+00B2, U+00B3, U+00B9). *)
Definition isdigit (c : ascii) : bool :=
  let n := nat_of_ascii c in
  ((Nat.leb 48 n && Nat.leb n 57)
   || Nat.eqb n 178 || Nat.eqb n 179 || Nat.eqb n 185)%bool.

(** [float(c)] of a one-character string: only a decimal digit converts. *)
Definition float_of_char (c : ascii) : result R :=
  let n := nat_of_ascii c in
  if (Nat.leb 48 n && Nat.leb n 57)%bool then ok (INR (n - 48))
  else raise ValueError.

(** ** Tensors *)

Inductive Device : Type := Cpu | Cuda.

Definition index : Type := list nat.

Record Tensor : Type := mkTensor {
  device : Device;
  shape : list nat;
  elem : index -> R
}.

Definition is_cuda (x : Tensor) : bool :=
  match device x with
  | Cuda => true
  | Cpu => false
  end.

Definition numel (x : Tensor) : nat := fold_right Nat.mul 1%nat (shape x).

(** A 0-dim tensor holding [v]. *)
Definition scalar (d : Device) (v : R) : Tensor := mkTensor d [] (fun _ => v).

Definition tmap (f : R -> R) (x : Tensor) : Tensor :=
  mkTensor (device x) (shape x) (fun i => f (elem x i)).

(** Element-wise binary operation of [x] with a tensor that broadcasts
    against it; the result has the device and the shape of [x]. *)
Definition tzip (f : R -> R -> R) (x y : Tensor) : Tensor :=
  mkTensor (device x) (shape x) (fun i => f (elem x i) (elem y i)).

(** [t.cpu()]. *)
Definition cpu (x : Tensor) : Tensor := mkTensor Cpu (shape x) (elem x).

(** [l.view([-1, 1, 1])] of a 1-d tensor, as it broadcasts against a
    [..., C, H, W] layout: the element at a multi-index is the entry of its
    channel coordinate, the third from the end. *)
Definition view_c11 (d : Device) (l : list R) : Tensor :=
  mkTensor d [length l; 1%nat; 1%nat] (fun i =>
    match rev i with
    | _ :: _ :: c :: _ => nth c l 0
    | _ => 0
    end).

(** ** The random generators of [torch] *)

(** The generator algorithms are not part of this repository; they are a
    parameter: a generator state, seeding, and the two draws used here.
    Each device has its own generator. *)
Record RandomSource : Type := {
  generator : Type;
  seeded : Device -> Z -> generator;
  rand1 : Device -> generator -> R * generator;
  randn1 : Device -> generator -> R * generator
}.

Record rng (rs : RandomSource) : Type := mkRng {
  cpu_gen : generator rs;
  cuda_gen : generator rs
}.
Arguments mkRng {rs} _ _.
Arguments cpu_gen {rs} _.
Arguments cuda_gen {rs} _.

Definition gen_of {rs : RandomSource} (d : Device) (s : rng rs) : generator rs :=
  match d with
  | Cpu => cpu_gen s
  | Cuda => cuda_gen s
  end.

Definition set_gen {rs : RandomSource} (d : Device) (g : generator rs)
    (s : rng rs) : rng rs :=
  match d with
  | Cpu => mkRng g (cuda_gen s)
  | Cuda => mkRng (cpu_gen s) g
  end.

(** [torch.rand(1, device=d)[0]]. *)
Definition torch_rand {rs : RandomSource} (d : Device) (s : rng rs) : R * rng rs :=
  let '(v, g) := rand1 rs d (gen_of d s) in (v, set_gen d g s).

(** [torch.randn(1, device=d)[0]]. *)
Definition torch_randn {rs : RandomSource} (d : Device) (s : rng rs) : R * rng rs :=
  let '(v, g) := randn1 rs d (gen_of d s) in (v, set_gen d g s).

(** [torch.manual_seed(seed)]: the seed is converted with [int] and every
    device's generator is re-seeded with it. *)
Definition manual_seed {rs : RandomSource} (seed : R) : rng rs :=
  mkRng (seeded rs Cpu (int_of seed)) (seeded rs Cuda (int_of seed)).

(** Computations that read and write the generators and may raise. *)
Definition M (rs : RandomSource) (A : Type) : Type := rng rs -> result A * rng rs.

Definition ret {rs : RandomSource} {A : Type} (a : A) : M rs A :=
  fun s => (ok a, s).

Definition throw {rs : RandomSource} {A : Type} (e : exn) : M rs A :=
  fun s => (raise e, s).

Definition bind {rs : RandomSource} {A B : Type} (m : M rs A) (k : A -> M rs B)
    : M rs B :=
  fun s =>
    match m s with
    | (inl e, s') => (inl e, s')
    | (inr a, s') => k a s'
    end.

(** A computation that only returns or raises. *)
Definition lift {rs : RandomSource} {A : Type} (r : result A) : M rs A :=
  fun s => (r, s).

Notation "x <- m ;; k" := (bind m (fun x => k))
  (at level 61, m at next level, right associativity).

(** ** [noise_quant] *)

(** The autograd context: what [save_for_backward] stored. *)
Record ctx : Type := mkCtx { saved_tensors : list R }.

(** The device both branches of [forward] draw on. *)
Definition forward_device (x : Tensor) : Device :=
  if is_cuda x then Cuda else Cpu.

Definition noise_quant_forward {rs : RandomSource} (x : Tensor) (step : R)
    (s : rng rs) : (ctx * Tensor) * rng rs :=
  let d := forward_device x in
  let '(rseed, s1) := torch_rand d s in
  let c := mkCtx [rseed] in
  let s2 := manual_seed rseed in
  let '(n, s3) := torch_randn d s2 in
  let t1 := tmap (fun v => v + round (n / 2) * step) x in
  ((c, t1), s3).

(** [backward] draws with [torch.randn(1)]: no device is given, so the draw
    is on the default device, the CPU. *)
Definition noise_quant_backward {rs : RandomSource} (c : ctx)
    (grad_output : Tensor) (s : rng rs) : result (Tensor * R) * rng rs :=
  match saved_tensors c with
  | [] => (raise IndexError, s)
  | rseed :: _ =>
      let s1 := manual_seed rseed in
      let '(n, s2) := torch_randn Cpu s1 in
      let grad_step := round (n / 2) in
      (ok (grad_output, grad_step), s2)
  end.

(** [noise_quant = noise_quant.apply]: the caller sees the output only. *)
Definition noise_quant {rs : RandomSource} (x : Tensor) (step : R) : M rs Tensor :=
  fun s => let '((_, y), s') := noise_quant_forward x step s in (ok y, s').

(** ** [Quantizer] *)

(** An [nn.Parameter] holding a 0-dim tensor. *)
Record nn_Parameter : Type := mkParameter {
  data : R;
  requires_grad : bool
}.

Record Quantizer : Type := mkQuantizer {
  symm : bool;
  offset : option Tensor;
  _bitwidth : nn_Parameter;
  _alpha : nn_Parameter;
  training : bool
}.

(** [Quantizer.__init__(symm, act_func)]; [act_func] is [None] or a string.
    A fresh [nn.Module] is in training mode. *)
Definition Quantizer_init (symm : bool) (act_func : option string)
    : result Quantizer :=
  rbind
    (if negb symm then
       match act_func with
       | None => raise AttributeError
       | Some a =>
           let a := lower a in
           rbind
             (if str_in "relu" a then ok 0
              else if str_in "swish" a then
                if str_in "h" (slice_to 2 a) then ok 0.3125
                else ok 0.2784645427610738
              else raise NotImplementedError)
             (fun o => ok (Some (scalar Cuda o), Some a))
       end
     else ok (None, act_func))
    (fun '(offset, act_func) =>
       let init_alpha := 0 in
       rbind
         (if symm then ok 1
          else
            match act_func with
            | Some a =>
                if (str_in "relu" a || str_in "swish" a)%bool then
                  rbind
                    (match last_char a with
                     | Some c =>
                         if isdigit c then float_of_char c else ok init_alpha
                     | None => raise IndexError
                     end)
                    (fun init_alpha => ok 6)
                else ok init_alpha
            | None => ok init_alpha
            end)
         (fun init_alpha =>
            ok (mkQuantizer symm offset (mkParameter 2.5 true)
                  (mkParameter init_alpha true) true))).

(** The conversion of line 151 fails on the lower-cased tag [a]: its last
    character passes [isdigit] and [float] rejects it. *)
Definition float_rejects_last (a : string) : bool :=
  match last_char a with
  | Some c =>
      (isdigit c && match float_of_char c with
                    | inl _ => true
                    | inr _ => false
                    end)%bool
  | None => false
  end.

(** [q._bitwidth.requires_grad = b]. *)
Definition set_bitwidth_requires_grad (b : bool) (q : Quantizer) : Quantizer :=
  mkQuantizer (symm q) (offset q)
    (mkParameter (data (_bitwidth q)) b) (_alpha q) (training q).

(** [q._alpha.data = v]. *)
Definition set_alpha_data (v : R) (q : Quantizer) : Quantizer :=
  mkQuantizer (symm q) (offset q) (_bitwidth q)
    (mkParameter v (requires_grad (_alpha q))) (training q).

(** [q.offset = t]. *)
Definition set_offset (t : Tensor) (q : Quantizer) : Quantizer :=
  mkQuantizer (symm q) (Some t) (_bitwidth q) (_alpha q) (training q).

Definition _logit2bit (logit : R) : R :=
  let r := 6.5 in
  2.0 + sigmoid logit * r.

Definition bitwidth (q : Quantizer) : R :=
  if requires_grad (_bitwidth q) then _logit2bit (data (_bitwidth q))
  else round (_logit2bit (data (_bitwidth q))).

Definition alpha (q : Quantizer) : R := softplus (data (_alpha q)).

(** The offset [_quant] works with, after the symmetric override and the
    move to the CPU for a CPU input.  An asymmetric quantizer without a
    stored offset fails at the first use of [None]. *)
Definition quant_offset (q : Quantizer) (x : Tensor) : result Tensor :=
  rbind
    (if symm q then ok (scalar Cuda (alpha q))
     else match offset q with
          | Some o => ok o
          | None => raise (if is_cuda x then TypeError else AttributeError)
          end)
    (fun o => ok (if negb (is_cuda x) then cpu o else o)).

(** The scale [_quant] works with. *)
Definition quant_alpha (q : Quantizer) : R :=
  let bitwidth := hard_quant (bitwidth q) in
  let alpha := alpha q in
  if symm q then (2 - Rpower 2 (- bitwidth + 1)) * alpha else alpha.

Definition quant_n_lv (q : Quantizer) : R :=
  let bitwidth := hard_quant (bitwidth q) in
  Rpower 2 bitwidth - 1.

Definition quant_step (q : Quantizer) : R :=
  let n_lv_inv := / quant_n_lv q in
  quant_alpha q * n_lv_inv.

(** Line 198, the diffQ policy, on the shifted input. *)
Definition quant_diffq {rs : RandomSource} (q : Quantizer) (x : Tensor)
    : M rs Tensor :=
  y <- noise_quant x (quant_step q) ;;
  ret (tmap (fun v => clamp (v / quant_alpha q) 0 1 * quant_alpha q) y).

(** Line 201, the LSQ policy, on the shifted input. *)
Definition quant_lsq (q : Quantizer) (x : Tensor) : Tensor :=
  tmap (fun v =>
          hard_quant (clamp (v / quant_alpha q) 0 1 * quant_n_lv q)
          * quant_step q) x.

Definition _quant {rs : RandomSource} (q : Quantizer) (x : Tensor)
    (is_training : bool) : M rs Tensor :=
  offset <- lift (quant_offset q x) ;;
  let x := tzip Rplus x offset in
  x <- (if (is_training && requires_grad (_bitwidth q))%bool
        then quant_diffq q x
        else ret (quant_lsq q x)) ;;
  ret (tzip Rminus x offset).

Definition forward {rs : RandomSource} (q : Quantizer) (x : Tensor) : M rs Tensor :=
  _quant q x (training q).

(** ** Quantized operator wrappers *)

(** [Q_Conv2d]: of the [nn.Conv2d] base only what this file reads is kept.
    The four extents exist once the calibration hook has set them. *)
Record Q_Conv2d : Type := mkQ_Conv2d {
  in_channels : Z;
  out_channels : Z;
  kernel_size : Z * Z;
  weight : list R;
  a_quant : Quantizer;
  w_quant : Quantizer;
  in_height : option nat;
  in_width : option nat;
  out_height : option nat;
  out_width : option nat
}.

Record Q_Linear : Type := mkQ_Linear {
  in_features : Z;
  out_features : Z;
  lin_weight : list R;
  lin_a_quant : Quantizer;
  lin_w_quant : Quantizer
}.

(** [Q_Conv2d.__init__]; the initial weight, drawn by [nn.Conv2d], is an
    argument. *)
Definition Q_Conv2d_init (c_in c_out k : Z) (w : list R)
    (act_func : option string) : result Q_Conv2d :=
  let symm := match act_func with None => true | Some _ => false end in
  rbind (Quantizer_init symm act_func) (fun a_quant =>
  rbind (Quantizer_init symm act_func) (fun w_quant =>
  ok (mkQ_Conv2d c_in c_out (k, k) w a_quant w_quant None None None None))).

Definition Q_Linear_init (f_in f_out : Z) (w : list R)
    (act_func : option string) : result Q_Linear :=
  let symm := match act_func with None => true | Some _ => false end in
  rbind (Quantizer_init symm act_func) (fun a_quant =>
  rbind (Quantizer_init symm act_func) (fun w_quant =>
  ok (mkQ_Linear f_in f_out w a_quant w_quant))).

Definition with_quantizers (a w : Quantizer) (m : Q_Conv2d) : Q_Conv2d :=
  mkQ_Conv2d (in_channels m) (out_channels m) (kernel_size m) (weight m) a w
    (in_height m) (in_width m) (out_height m) (out_width m).

(** [Q_Conv]: the [conv] child that replaces the one of the [Conv] base.
    Stride, padding, groups and [act] do not reach the quantizers and are
    left out. *)
Record Q_Conv : Type := mkQ_Conv { conv : Q_Conv2d }.

Definition Q_Conv_init (c1 c2 k : Z) (w : list R) : result Q_Conv :=
  rbind
    (Q_Conv2d_init c1 c2 k w
       (Some (if (c1 =? 3)%Z then "relu1" else "swish")%string))
    (fun cv =>
       ok (mkQ_Conv
             (if ((c1 =? 3) || (c1 =? 32))%Z then
                with_quantizers
                  (set_bitwidth_requires_grad false (a_quant cv))
                  (set_bitwidth_requires_grad false (w_quant cv)) cv
              else cv))).

(** What [model.modules()] yields, in order: the quantized operators and
    everything else. *)
Inductive module : Type :=
| M_Conv2d (m : Q_Conv2d)
| M_Linear (m : Q_Linear)
| M_Other.

(** ** BOPs *)

Definition bops (k c_in c_out : Z) (h_out w_out : Z) (w_bit a_bit : R) : R :=
  let _bops := IZR (c_out * (c_in * k * k) * (w_out * h_out)) * a_bit * w_bit in
  let _gibops := _bops / IZR (2 ^ 30) in
  _gibops.

(** Reading an attribute that the calibration has not set yet. *)
Definition getattr {A : Type} (o : option A) : result A :=
  match o with
  | Some a => ok a
  | None => raise AttributeError
  end.

Fixpoint model_bops_from (total_bops : R) (model : list module) : result R :=
  match model with
  | [] => ok total_bops
  | M_Conv2d m :: rest =>
      let k := fst (kernel_size m) in
      let c_in := in_channels m in
      let c_out := out_channels m in
      rbind (getattr (out_height m)) (fun h_out =>
      rbind (getattr (out_width m)) (fun w_out =>
      let w_bit := bitwidth (w_quant m) in
      let a_bit := bitwidth (a_quant m) in
      let _bops := bops k c_in c_out (Z.of_nat h_out) (Z.of_nat w_out)
                     w_bit a_bit in
      model_bops_from (total_bops + _bops) rest))
  | M_Linear m :: rest =>
      let k := 1%Z in
      let c_in := in_features m in
      let c_out := 1%Z in
      let h_out := 1%Z in
      let w_out := out_features m in
      let w_bit := bitwidth (lin_w_quant m) in
      let a_bit := bitwidth (lin_a_quant m) in
      let _bops := bops k c_in c_out h_out w_out w_bit a_bit in
      model_bops_from (total_bops + _bops) rest
  | M_Other :: rest => model_bops_from total_bops rest
  end.

Definition model_bops (model : list module) : result R :=
  model_bops_from 0 model.

(** [F.smooth_l1_loss] with its defaults [beta=1.0] and [reduction='mean'],
    on a one-element input. *)
Definition smooth_l1_loss (input target : R) : R :=
  let beta := 1 in
  let d := Rabs (input - target) in
  if Rltb d beta then 0.5 * (d * d) / beta else d - 0.5 * beta.

Definition bops_loss (model : list module) (target_bops lambda_bops : R)
    : result R :=
  rbind (model_bops model) (fun total_bops =>
  ok (smooth_l1_loss total_bops target_bops * lambda_bops)).

(** ** [print_bitwidth] *)

(** The numbers behind the report: the loop of [print_bitwidth] with its
    four accumulators, then the total of [model_bops].  The text of the
    report is not modelled. *)
Fixpoint print_bitwidth_loop (model : list module)
    (w_total_count avg_w_bits a_total_count avg_a_bits : R)
    : result (R * R) :=
  match model with
  | [] => ok (avg_w_bits, avg_a_bits)
  | M_Conv2d m :: rest =>
      let w_count := INR (length (weight m)) * / 2 ^ 30 in
      let w_total_count := w_total_count + w_count in
      let avg_w_bits :=
        avg_w_bits
        + w_count * (bitwidth (w_quant m) - avg_w_bits) / w_total_count in
      rbind (getattr (in_height m)) (fun ih =>
      rbind (getattr (in_width m)) (fun iw =>
      let a_count :=
        IZR (Z.of_nat ih * Z.of_nat iw * in_channels m) * / 2 ^ 30 in
      let a_total_count := a_total_count + a_count in
      let avg_a_bits :=
        avg_a_bits
        + a_count * (bitwidth (a_quant m) - avg_a_bits) / a_total_count in
      print_bitwidth_loop rest w_total_count avg_w_bits a_total_count
        avg_a_bits))
  | M_Linear m :: rest =>
      let w_count := INR (length (lin_weight m)) * / 2 ^ 30 in
      let w_total_count := w_total_count + w_count in
      let avg_w_bits :=
        avg_w_bits
        + w_count * (bitwidth (lin_w_quant m) - avg_w_bits) / w_total_count in
      let a_count := IZR (in_features m) * / 2 ^ 30 in
      let a_total_count := a_total_count + a_count in
      let avg_a_bits :=
        avg_a_bits
        + a_count * (bitwidth (lin_a_quant m) - avg_a_bits) / a_total_count in
      print_bitwidth_loop rest w_total_count avg_w_bits a_total_count
        avg_a_bits
  | M_Other :: rest =>
      print_bitwidth_loop rest w_total_count avg_w_bits a_total_count
        avg_a_bits
  end.

Definition print_bitwidth (model : list module) : result (R * R * R) :=
  rbind (print_bitwidth_loop model 0 0 0 0) (fun '(avg_w_bits, avg_a_bits) =>
  rbind (model_bops model) (fun total_bops =>
  ok (avg_w_bits, avg_a_bits, total_bops))).

(** ** Calibration: [sample_activation_size] *)

(** One call of a module during the sample forward pass, as its forward
    hooks see it: the position of the module in [model.modules()], its
    first input and the shape of its output. *)
Record hook_call : Type := mkHookCall {
  target : nat;
  inputs0 : Tensor;
  outputs_shape : list nat
}.

(** The host model: its modules and its forward pass, which is not part of
    this repository and is observed through the hooks only.  The calls are
    those of one pass over the modules as they are when the pass starts: a
    module is taken to be called before its hooks write to it. *)
Record Model : Type := mkModel {
  modules : list module;
  call : list module -> Tensor -> list hook_call
}.

(** [shape[i]]. *)
Definition shape_at (sh : list nat) (i : nat) : result nat :=
  match nth_error sh i with
  | Some d => ok d
  | None => raise IndexError
  end.

Definition forward_hook (channel_last : bool) (m : Q_Conv2d) (c : hook_call)
    : result Q_Conv2d :=
  let offset := if channel_last then 1%nat else 2%nat in
  rbind (shape_at (shape (inputs0 c)) offset) (fun ih =>
  rbind (shape_at (shape (inputs0 c)) (offset + 1)) (fun iw =>
  rbind (shape_at (outputs_shape c) offset) (fun oh =>
  rbind (shape_at (outputs_shape c) (offset + 1)) (fun ow =>
  ok (mkQ_Conv2d (in_channels m) (out_channels m) (kernel_size m) (weight m)
        (a_quant m) (w_quant m) (Some ih) (Some iw) (Some oh) (Some ow)))))).

Definition optimal_i (target unit : R) : result Z :=
  let '(min_err, min_err_i) :=
    fold_left
      (fun '(min_err, min_err_i) i =>
         let err := Rabs (target - unit * IZR i) in
         if Rltb err min_err then (err, i) else (min_err, min_err_i))
      [0; 1; 2; 3; 4]%Z (100, (-1)%Z) in
  if (min_err_i =? -1)%Z then raise SystemExit else ok min_err_i.

(** [t.min()] of a 1-d tensor. *)
Definition tensor_min (l : list R) : result R :=
  match l with
  | [] => raise RuntimeError
  | v :: l' => ok (fold_left Rmin l' v)
  end.

(** [t.max()] of a flattened tensor. *)
Definition tensor_max (l : list R) : result R :=
  match l with
  | [] => raise RuntimeError
  | v :: l' => ok (fold_left Rmax l' v)
  end.

(** [t.mean()]. *)
Definition tensor_mean (l : list R) : R :=
  fold_left Rplus l 0 / INR (length l).

(** [arr[i0:i1]] and [arr[i0:]]. *)
Definition slice (i0 : nat) (i1 : option nat) (arr : list R) : list R :=
  match i1 with
  | Some i1 => firstn (i1 - i0) (skipn i0 arr)
  | None => skipn i0 arr
  end.

(** [arr[i0:i1] = vals] and [arr[i0:] = vals]. *)
Definition slice_assign (i0 : nat) (i1 : option nat) (vals arr : list R)
    : list R :=
  match i1 with
  | Some i1 => firstn i0 arr ++ vals ++ skipn i1 arr
  | None => firstn i0 arr ++ vals
  end.

Fixpoint group_err_loop (arr : list R) (offset : R) (g elem_per_group : nat)
    (idxs : list nat) (arr_err arr_off : list R) : result (list R * list R) :=
  match idxs with
  | [] => ok (arr_err, arr_off)
  | i :: idxs' =>
      let i0 := (i * elem_per_group)%nat in
      let i1 := ((i + 1) * elem_per_group)%nat in
      let hi := if Nat.eqb i (g - 1) then None else Some i1 in
      rbind (tensor_min (slice i0 hi arr)) (fun off_unit =>
      rbind (optimal_i off_unit offset) (fun k =>
      let off_unit := offset * IZR k in
      let arr_err :=
        slice_assign i0 hi
          (map (fun v => Rabs (v - off_unit)) (slice i0 hi arr)) arr_err in
      let arr_off :=
        slice_assign i0 hi
          (map (fun v => v - v + off_unit) (slice i0 hi arr)) arr_off in
      group_err_loop arr offset g elem_per_group idxs' arr_err arr_off))
  end.

Definition group_err (arr : list R) (offset : R) (g : nat)
    : result (R * list R) :=
  let arr_len := length arr in
  let arr_err := map (fun _ => 0) arr in
  let arr_off := map (fun _ => 0) arr in
  match g with
  | O => raise ZeroDivisionError
  | _ =>
      let elem_per_group := (arr_len / g)%nat in
      rbind (group_err_loop arr offset g elem_per_group (seq 0 g) arr_err arr_off)
        (fun '(arr_err, arr_off) => ok (tensor_mean arr_err, arr_off))
  end.

(** Lines 336-344 of [forward_off_hook]: the search for the number of
    groups, from the per-channel minima and the stored offset. *)
Fixpoint best_group_loop (c_min : list R) (off : R) (gs : list nat)
    (min_err : R) (min_err_g : nat) : result (R * nat) :=
  match gs with
  | [] => ok (min_err, min_err_g)
  | g :: gs' =>
      rbind (group_err c_min (- off) g) (fun '(err, _) =>
      if Rltb err min_err then best_group_loop c_min off gs' err g
      else best_group_loop c_min off gs' min_err min_err_g)
  end.

Definition best_group (c_min : list R) (off : R) : result nat :=
  rbind (best_group_loop c_min off [1; 2; 3; 4]%nat 100 0%nat)
    (fun '(_, min_err_g) => ok min_err_g).

(** All of [f] on a list, stopping at the first exception. *)
Fixpoint rmapM {A B : Type} (f : A -> result B) (l : list A) : result (list B) :=
  match l with
  | [] => ok []
  | a :: l' => rbind (f a) (fun b => rbind (rmapM f l') (fun bs => ok (b :: bs)))
  end.

(** [inputs[0].permute(permute_idx).reshape([num_channels, -1]).min(dim=1).values]
    of a 4-d input: the minimum of every channel. *)
Definition channel_min (channel_last : bool) (x : Tensor) : result (list R) :=
  match shape x with
  | [d0; d1; d2; d3] =>
      let rows :=
        if channel_last then
          map (fun c =>
                 flat_map (fun a =>
                 flat_map (fun b =>
                 map (fun w => elem x [a; b; w; c]) (seq 0 d2)) (seq 0 d1))
                 (seq 0 d0))
              (seq 0 d3)
        else
          map (fun c =>
                 flat_map (fun a =>
                 flat_map (fun b =>
                 map (fun w => elem x [a; c; b; w]) (seq 0 d3)) (seq 0 d2))
                 (seq 0 d0))
              (seq 0 d1) in
      match rows with
      | [] => raise RuntimeError
      | _ => rmapM tensor_min rows
      end
  | _ => raise RuntimeError
  end.

(** The value of the stored offset as the search uses it.  The search
    compares 0-dim tensors; a stored offset with more than one element makes
    the first comparison raise. *)
Definition offset_value (o : option Tensor) : result R :=
  match o with
  | None => raise TypeError
  | Some off =>
      if Nat.eqb (numel off) 1 then ok (elem off (map (fun _ => 0%nat) (shape off)))
      else raise RuntimeError
  end.

Definition forward_off_hook (channel_last : bool) (m : Q_Conv2d) (c : hook_call)
    : result Q_Conv2d :=
  if negb (symm (a_quant m)) then
    let c_idx := if channel_last then 3%nat else 1%nat in
    rbind (shape_at (shape (inputs0 c)) c_idx) (fun num_channels =>
    if Nat.eqb num_channels 3 then ok m
    else
      rbind (channel_min channel_last (inputs0 c)) (fun c_min =>
      rbind (offset_value (offset (a_quant m))) (fun off =>
      rbind (best_group c_min off) (fun min_err_g =>
      rbind (group_err c_min (- off) min_err_g) (fun '(_, arr_off) =>
      ok (with_quantizers
            (set_offset (view_c11 (device (inputs0 c)) (map Ropp arr_off))
               (a_quant m))
            (w_quant m) m))))))
  else ok m.

(** [model.eval()] on the quantizers. *)
Definition set_training (b : bool) (q : Quantizer) : Quantizer :=
  mkQuantizer (symm q) (offset q) (_bitwidth q) (_alpha q) b.

Definition eval_module (m : module) : module :=
  match m with
  | M_Conv2d m =>
      M_Conv2d (with_quantizers (set_training false (a_quant m))
                  (set_training false (w_quant m)) m)
  | M_Linear m =>
      M_Linear (mkQ_Linear (in_features m) (out_features m) (lin_weight m)
                  (set_training false (lin_a_quant m))
                  (set_training false (lin_w_quant m)))
  | M_Other => M_Other
  end.

(** [l[i] = v]. *)
Fixpoint list_set {A : Type} (i : nat) (v : A) (l : list A) : list A :=
  match l, i with
  | [], _ => []
  | _ :: l', O => v :: l'
  | a :: l', S i' => a :: list_set i' v l'
  end.

(** The hooks of one call: [forward_hook], then [forward_off_hook], on a
    [Q_Conv2d]; nothing that this file reads on any other module. *)
Definition run_hooks (channel_last : bool) (ms : list module) (c : hook_call)
    : result (list module) :=
  match nth_error ms (target c) with
  | Some (M_Conv2d m) =>
      rbind (forward_hook channel_last m c) (fun m =>
      rbind (forward_off_hook channel_last m c) (fun m =>
      ok (list_set (target c) (M_Conv2d m) ms)))
  | _ => ok ms
  end.

Fixpoint run_calls (channel_last : bool) (ms : list module)
    (calls : list hook_call) : result (list module) :=
  match calls with
  | [] => ok ms
  | c :: calls' =>
      rbind (run_hooks channel_last ms c) (fun ms' =>
      run_calls channel_last ms' calls')
  end.

Definition sample_activation_size (model : Model) (x : Tensor)
    (channel_last : bool) : result Model :=
  let ms := map eval_module (modules model) in
  rbind (run_calls channel_last ms (call model ms x)) (fun ms' =>
  ok (mkModel ms' (call model))).

(** ** [initialize_Q] *)

(** The body of the loop over [model.modules()]. *)
Definition initialize_module (first : bool) (m : module) : result module :=
  match m with
  | M_Conv2d m =>
      if first then
        rbind (tensor_max (weight m)) (fun v =>
        ok (M_Conv2d (with_quantizers (a_quant m) (set_alpha_data v (w_quant m)) m)))
      else
        ok (M_Conv2d
              (with_quantizers (set_bitwidth_requires_grad false (a_quant m))
                 (set_bitwidth_requires_grad false (w_quant m)) m))
  | M_Linear m =>
      if first then
        rbind (tensor_max (lin_weight m)) (fun v =>
        ok (M_Linear
              (mkQ_Linear (in_features m) (out_features m) (lin_weight m)
                 (lin_a_quant m) (set_alpha_data v (lin_w_quant m)))))
      else
        ok (M_Linear
              (mkQ_Linear (in_features m) (out_features m) (lin_weight m)
                 (set_bitwidth_requires_grad false (lin_a_quant m))
                 (set_bitwidth_requires_grad false (lin_w_quant m))))
  | M_Other => ok M_Other
  end.

Definition initialize_Q (model : Model) (mode : string)
    (sample_input : option Tensor) (channel_last : bool) : result Model :=
  if negb (String.eqb mode "first" || String.eqb mode "finetune") then
    raise AssertionError
  else
    rbind
      (if String.eqb mode "first" then
         match sample_input with
         | None => raise AssertionError
         | Some x => sample_activation_size model x channel_last
         end
       else ok model)
      (fun model =>
         rbind (rmapM (initialize_module (String.eqb mode "first")) (modules model))
           (fun ms => ok (mkModel ms (call model)))).

(** A random source for the examples: the generator state is a counter, and
    the two devices turn the same seed into different streams, as the CPU
    and CUDA generators of [torch] do. *)
Definition counter_source : RandomSource :=
  {| generator := Z;
     seeded := fun d z => match d with Cpu => z | Cuda => (z + 1)%Z end;
     rand1 := fun _ g => (IZR g / 4, (g + 1)%Z);
     randn1 := fun _ g => (IZR (2 * g), (g + 1)%Z) |}.

(** ** The deterministic policy on binary32 values

    The embedding above computes with exact reals.  A float32 tensor also
    underflows to zero, overflows to infinity and turns into NaN, which no
    real number shows.  [F32] embeds lines 155-203 once more, for one
    element on the deterministic path, on binary32 values: every operation
    rounds its exact result to the nearest binary32 number, ties to even,
    and follows IEEE 754 on infinities and NaN.  Zeros carry no sign (a zero
    divisor counts as [+0], which is the zero that [F.softplus] returns),
    and [exp], [log1p] and [pow] are taken as correctly rounded. *)
Module F32.

Inductive float32 : Type :=
| Finite (r : R)
| Inf (negative : bool)
| NaN.

(** The exponent of the last place of the binary32 numbers around [r]:
    24 significant bits, and [2^-149] in the subnormal range. *)
Definition ulp_exp (r : R) : Z :=
  Z.max (Int_part (ln (Rabs r) / ln 2) - 23) (-149).

(** Rounding to the nearest binary32 number, ties to even. *)
Definition rnd (r : R) : float32 :=
  let e := ulp_exp r in
  let y := IZR (round_half_even (r * powerRZ 2 (- e))) * powerRZ 2 e in
  if Rle_dec (powerRZ 2 128) (Rabs y) then Inf (Rltb r 0) else Finite y.

Definition neg (a : float32) : float32 :=
  match a with
  | Finite r => Finite (- r)
  | Inf s => Inf (negb s)
  | NaN => NaN
  end.

Definition add (a b : float32) : float32 :=
  match a, b with
  | NaN, _ | _, NaN => NaN
  | Inf s, Inf t => if Bool.eqb s t then Inf s else NaN
  | Inf s, Finite _ => Inf s
  | Finite _, Inf t => Inf t
  | Finite x, Finite y => rnd (x + y)
  end.

Definition sub (a b : float32) : float32 := add a (neg b).

Definition mul (a b : float32) : float32 :=
  match a, b with
  | NaN, _ | _, NaN => NaN
  | Inf s, Inf t => Inf (xorb s t)
  | Inf s, Finite y => if Req_dec_T y 0 then NaN else Inf (xorb s (Rltb y 0))
  | Finite x, Inf t => if Req_dec_T x 0 then NaN else Inf (xorb (Rltb x 0) t)
  | Finite x, Finite y => rnd (x * y)
  end.

Definition div (a b : float32) : float32 :=
  match a, b with
  | NaN, _ | _, NaN => NaN
  | Inf _, Inf _ => NaN
  | Inf s, Finite y => Inf (xorb s (Rltb y 0))
  | Finite _, Inf _ => Finite 0
  | Finite x, Finite y =>
      if Req_dec_T y 0 then
        if Req_dec_T x 0 then NaN else Inf (Rltb x 0)
      else rnd (x / y)
  end.

(** [torch.reciprocal]. *)
Definition reciprocal (a : float32) : float32 := div (Finite 1) a.

(** [torch.clamp(v, lo, hi)]: NaN stays NaN. *)
Definition clamp (v : float32) (lo hi : R) : float32 :=
  match v with
  | Finite r => Finite (Rmin (Rmax r lo) hi)
  | Inf true => Finite lo
  | Inf false => Finite hi
  | NaN => NaN
  end.

(** [torch.round]. *)
Definition round (v : float32) : float32 :=
  match v with
  | Finite r => Finite (IZR (round_half_even r))
  | _ => v
  end.

(** [torch.exp]. *)
Definition exp (v : float32) : float32 :=
  match v with
  | Finite r => rnd (Rtrigo_def.exp r)
  | Inf true => Finite 0
  | Inf false => Inf false
  | NaN => NaN
  end.

(** [torch.log1p]. *)
Definition log1p (v : float32) : float32 :=
  match v with
  | Finite r =>
      if Rlt_dec (-1) r then rnd (ln (1 + r))
      else if Rlt_dec r (-1) then NaN else Inf true
  | Inf true => NaN
  | Inf false => Inf false
  | NaN => NaN
  end.

(** [torch.pow(2., v)]. *)
Definition pow2 (v : float32) : float32 :=
  match v with
  | Finite r => rnd (Rpower 2 r)
  | Inf true => Finite 0
  | Inf false => Inf false
  | NaN => NaN
  end.

(** [torch.sigmoid], computed as [1 / (1 + exp(-v))]. *)
Definition sigmoid (v : float32) : float32 :=
  div (Finite 1) (add (Finite 1) (exp (neg v))).

(** [F.softplus] with [beta=1], [threshold=20]: [v] above the threshold,
    [log1p(exp(v))] below. *)
Definition softplus (v : float32) : float32 :=
  match v with
  | Finite r => if Rlt_dec 20 r then v else log1p (exp v)
  | Inf true => log1p (exp v)
  | Inf false => v
  | NaN => NaN
  end.

Definition hard_quant (x : float32) : float32 :=
  let y_out := round x in
  let y_grad := x in
  add (sub y_out y_grad) y_grad.

Definition _logit2bit (logit : float32) : float32 :=
  let r := Finite 6.5 in
  add (Finite 2.0) (mul (sigmoid logit) r).

(** A parameter holds the binary32 number nearest to its value. *)
Definition bitwidth (q : Quantizer) : float32 :=
  if requires_grad (_bitwidth q) then _logit2bit (rnd (data (_bitwidth q)))
  else round (_logit2bit (rnd (data (_bitwidth q)))).

Definition alpha (q : Quantizer) : float32 := softplus (rnd (data (_alpha q))).

(** [_quant] on the deterministic path (line 201), for one element [x] of
    the input; [offset] is the element of [self.offset] that meets it, which
    a symmetric quantizer replaces by its scale. *)
Definition _quant (q : Quantizer) (offset x : float32) : float32 :=
  let bitwidth := hard_quant (bitwidth q) in
  let alpha := alpha q in
  let offset := if symm q then alpha else offset in
  let alpha :=
    if symm q then mul (sub (Finite 2) (pow2 (add (neg bitwidth) (Finite 1)))) alpha
    else alpha in
  let n_lv := sub (pow2 bitwidth) (Finite 1) in
  let n_lv_inv := reciprocal n_lv in
  let step := mul alpha n_lv_inv in
  let x := add x offset in
  let x := mul (hard_quant (mul (clamp (div x alpha) 0 1) n_lv)) step in
  sub x offset.

End F32.

(** ** Quantizers and a model for the examples *)

(** An asymmetric quantizer as [Quantizer(act_func='relu')] builds it. *)
(** The tag [relu] followed by the superscript two, U+00B2. *)
Definition relu_superscript_two : string :=
  String.append "relu" (String (ascii_of_nat 178) EmptyString).

Definition relu_quantizer : Quantizer :=
  mkQuantizer false (Some (scalar Cuda 0)) (mkParameter 2.5 true)
    (mkParameter 6 true) true.

(** The same quantizer after its bitwidth logit has moved to [0] (5.25
    bits, 31 levels) and its scale logit to [-200]. *)
Definition underflow_quantizer : Quantizer :=
  mkQuantizer false (Some (scalar Cuda 0)) (mkParameter 0 true)
    (mkParameter (-200) true) true.

(** The scale that [_quant] divides by and its step are normal binary32
    numbers: the step is at least [2^-126], the smallest of them, and the
    scale at most [2^127]. *)
Definition normal_scale (q : Quantizer) : Prop :=
  / 2 ^ 126 <= quant_step q /\ quant_alpha q <= 2 ^ 127.

(** A convolution whose weight tensor holds [-5] and [1], and a model made
    of it and one unquantized module, whose forward pass calls no hooked
    module. *)
Definition demo_conv : Q_Conv2d :=
  mkQ_Conv2d 16 32 (3, 3)%Z [-5; 1] relu_quantizer relu_quantizer
    None None None None.

Definition demo_model : Model :=
  mkModel [M_Conv2d demo_conv; M_Other] (fun _ _ => []).

(** The same convolution in a model whose forward pass calls it once, on
    a CPU input of shape [1, 4, 2, 2] filled with zeros. *)
Definition calib_model : Model :=
  mkModel [M_Conv2d demo_conv]
    (fun _ _ => [mkHookCall 0 (mkTensor Cpu [1; 4; 2; 2]%nat (fun _ => 0))
                   [1; 32; 2; 2]%nat]).


(** ** Vocabulary of the statements *)

(** [v] is the largest element of [l]. *)
Definition is_max (v : R) (l : list R) : Prop :=
  In v l /\ Forall (fun u => u <= v) l.

(** [m'] is [m] with the scale logit of its weight quantizer replaced by
    the largest element of its weight tensor. *)
Definition weight_seeded (m m' : module) : Prop :=
  match m, m' with
  | M_Conv2d a, M_Conv2d b =>
      exists v, is_max v (weight a) /\
                b = with_quantizers (a_quant a) (set_alpha_data v (w_quant a)) a
  | M_Linear a, M_Linear b =>
      exists v, is_max v (lin_weight a) /\
                b = mkQ_Linear (in_features a) (out_features a) (lin_weight a)
                      (lin_a_quant a) (set_alpha_data v (lin_w_quant a))
  | M_Other, M_Other => True
  | _, _ => False
  end.

(** [m'] is [m] with both bitwidth logits frozen. *)
Definition bitwidth_frozen (m m' : module) : Prop :=
  match m, m' with
  | M_Conv2d a, M_Conv2d b =>
      b = with_quantizers (set_bitwidth_requires_grad false (a_quant a))
            (set_bitwidth_requires_grad false (w_quant a)) a /\
      requires_grad (_bitwidth (a_quant b)) = false /\
      requires_grad (_bitwidth (w_quant b)) = false
  | M_Linear a, M_Linear b =>
      b = mkQ_Linear (in_features a) (out_features a) (lin_weight a)
            (set_bitwidth_requires_grad false (lin_a_quant a))
            (set_bitwidth_requires_grad false (lin_w_quant a)) /\
      requires_grad (_bitwidth (lin_a_quant b)) = false /\
      requires_grad (_bitwidth (lin_w_quant b)) = false
  | M_Other, M_Other => True
  | _, _ => False
  end.

Definition has_weight (m : module) : Prop :=
  match m with
  | M_Conv2d a => weight a <> []
  | M_Linear a => lin_weight a <> []
  | M_Other => True
  end.

(** The cost that [model_bops] adds for one module, when the extents it
    reads are recorded. *)
Definition module_bops (m : module) : option R :=
  match m with
  | M_Conv2d m =>
      match out_height m, out_width m with
      | Some h_out, Some w_out =>
          Some (bops (fst (kernel_size m)) (in_channels m) (out_channels m)
                  (Z.of_nat h_out) (Z.of_nat w_out)
                  (bitwidth (w_quant m)) (bitwidth (a_quant m)))
      | _, _ => None
      end
  | M_Linear m =>
      Some (bops 1 (in_features m) 1 1 (out_features m)
              (bitwidth (lin_w_quant m)) (bitwidth (lin_a_quant m)))
  | M_Other => Some 0
  end.

(** The sum of the costs of the modules, when every one has a cost. *)
Fixpoint total_cost (ms : list module) : option R :=
  match ms with
  | [] => Some 0
  | m :: rest =>
      match module_bops m, total_cost rest with
      | Some c, Some a => Some (c + a)
      | _, _ => None
      end
  end.

(** A convolution has its output extents recorded. *)
Definition calibrated (m : module) : Prop :=
  match m with
  | M_Conv2d m => out_height m <> None /\ out_width m <> None
  | _ => True
  end.

(** The convolution of the examples after a calibration pass. *)
Definition calibrated_conv : Q_Conv2d :=
  mkQ_Conv2d 16 32 (3, 3)%Z [-5; 1] relu_quantizer relu_quantizer
    (Some 2%nat) (Some 2%nat) (Some 2%nat) (Some 2%nat).

(** A quantizer with a larger bitwidth logit. *)
Definition wide_quantizer : Quantizer :=
  mkQuantizer false (Some (scalar Cuda 0)) (mkParameter 3 true)
    (mkParameter 6 true) true.

(** The element count and the bitwidth that [print_bitwidth] averages for
    the weights of one module, and for its input activations. *)
Definition weight_entry (m : module) : option (R * R) :=
  match m with
  | M_Conv2d m => Some (INR (length (weight m)), bitwidth (w_quant m))
  | M_Linear m => Some (INR (length (lin_weight m)), bitwidth (lin_w_quant m))
  | M_Other => None
  end.

Definition act_entry (m : module) : option (R * R) :=
  match m with
  | M_Conv2d m =>
      match in_height m, in_width m with
      | Some ih, Some iw =>
          Some (IZR (Z.of_nat ih * Z.of_nat iw * in_channels m),
                bitwidth (a_quant m))
      | _, _ => None
      end
  | M_Linear m => Some (IZR (in_features m), bitwidth (lin_a_quant m))
  | M_Other => None
  end.

(** The sum of the counts, and of the counts times the bitwidths, over the
    modules that have an entry. *)
Fixpoint count_sum (f : module -> option (R * R)) (ms : list module) : R :=
  match ms with
  | [] => 0
  | m :: rest =>
      match f m with
      | Some (n, _) => n + count_sum f rest
      | None => count_sum f rest
      end
  end.

Fixpoint bits_sum (f : module -> option (R * R)) (ms : list module) : R :=
  match ms with
  | [] => 0
  | m :: rest =>
      match f m with
      | Some (n, b) => n * b + bits_sum f rest
      | None => bits_sum f rest
      end
  end.

(** A module that [print_bitwidth] can report: a quantized operator has a
    weight element and a positive number of input elements, recorded by the
    calibration pass for a convolution. *)
Definition reportable (m : module) : Prop :=
  match m with
  | M_Conv2d m =>
      weight m <> [] /\
      exists ih iw,
        in_height m = Some ih /\ in_width m = Some iw /\
        (0 < Z.of_nat ih * Z.of_nat iw * in_channels m)%Z
  | M_Linear m => lin_weight m <> [] /\ (0 < in_features m)%Z
  | M_Other => True
  end.

(** [o] is one of the candidate multiples [unit * i], [i] from 0 to 4. *)
Definition candidate_multiple (unit o : R) : Prop :=
  exists i : Z, (0 <= i <= 4)%Z /\ o = unit * IZR i.

(** What the hooks of the calibration pass leave as it is on a
    convolution: everything but the stored activation offset and the
    recorded extents, and an extent once recorded stays recorded. *)
Definition hooks_keep (m m' : Q_Conv2d) : Prop :=
  in_channels m' = in_channels m /\ out_channels m' = out_channels m /\
  kernel_size m' = kernel_size m /\ weight m' = weight m /\
  w_quant m' = w_quant m /\
  symm (a_quant m') = symm (a_quant m) /\
  _bitwidth (a_quant m') = _bitwidth (a_quant m) /\
  _alpha (a_quant m') = _alpha (a_quant m) /\
  training (a_quant m') = training (a_quant m) /\
  (in_height m <> None -> in_height m' <> None) /\
  (in_width m <> None -> in_width m' <> None) /\
  (out_height m <> None -> out_height m' <> None) /\
  (out_width m <> None -> out_width m' <> None).

Definition module_kept (m m' : module) : Prop :=
  match m, m' with
  | M_Conv2d a, M_Conv2d b => hooks_keep a b
  | M_Linear a, M_Linear b => b = a
  | M_Other, M_Other => True
  | _, _ => False
  end.

(** Both quantizers of a quantized operator are in evaluation mode. *)
Definition in_eval_mode (m : module) : Prop :=
  match m with
  | M_Conv2d a => training (a_quant a) = false /\ training (w_quant a) = false
  | M_Linear a =>
      training (lin_a_quant a) = false /\ training (lin_w_quant a) = false
  | M_Other => True
  end.

(** The one call of [calib_model], and its convolution after the pass. *)
Definition demo_call : hook_call :=
  mkHookCall 0 (mkTensor Cpu [1; 4; 2; 2]%nat (fun _ => 0)) [1; 32; 2; 2]%nat.

Definition eval_conv : Q_Conv2d :=
  with_quantizers (set_training false relu_quantizer)
    (set_training false relu_quantizer) demo_conv.

Definition recalibrated_conv : Q_Conv2d :=
  mkQ_Conv2d 16 32 (3, 3)%Z [-5; 1]
    (set_offset (view_c11 Cpu (map Ropp [0; 0; 0; 0]))
       (set_training false relu_quantizer))
    (set_training false relu_quantizer)
    (Some 2%nat) (Some 2%nat) (Some 2%nat) (Some 2%nat).

(** A quantized operator whose weight tensor has no element. *)
Definition lacks_weight (m : module) : Prop :=
  match m with
  | M_Conv2d a => weight a = []
  | M_Linear a => lin_weight a = []
  | M_Other => False
  end.

(** Both bitwidths of a quantized operator are whole numbers from 2 to 8. *)
Definition integer_bitwidths (m : module) : Prop :=
  match m with
  | M_Conv2d a =>
      exists na nw : Z,
        (2 <= na <= 8)%Z /\ (2 <= nw <= 8)%Z /\
        bitwidth (a_quant a) = IZR na /\ bitwidth (w_quant a) = IZR nw
  | M_Linear a =>
      exists na nw : Z,
        (2 <= na <= 8)%Z /\ (2 <= nw <= 8)%Z /\
        bitwidth (lin_a_quant a) = IZR na /\ bitwidth (lin_w_quant a) = IZR nw
  | M_Other => True
  end.

(** [forward] of the quantizer draws no random number: on every input it
    can shift it returns with the generators as they were. *)
Definition deterministic_forward (q : Quantizer) : Prop :=
  forall (rs : RandomSource) (t off : Tensor) (s : rng rs),
    quant_offset q t = ok off ->
    exists y,
      forward q t s = (ok y, s) /\
      forall i,
        elem y i =
        round (clamp ((elem t i + elem off i) / quant_alpha q) 0 1
               * quant_n_lv q) * quant_step q - elem off i.

Definition deterministic_module (m : module) : Prop :=
  match m with
  | M_Conv2d a =>
      deterministic_forward (a_quant a) /\ deterministic_forward (w_quant a)
  | M_Linear a =>
      deterministic_forward (lin_a_quant a) /\
      deterministic_forward (lin_w_quant a)
  | M_Other => True
  end.

(** The generator state and the inputs of the examples. *)
Definition demo_rng : rng counter_source := mkRng (rs := counter_source) 0%Z 0%Z.

Definition zero_input : Tensor := scalar Cpu 0.

(** A random source whose uniform draw is always one half. *)
Definition half_source : RandomSource :=
  {| generator := Z;
     seeded := fun d z => match d with Cpu => z | Cuda => (z + 1)%Z end;
     rand1 := fun _ g => (1 / 2, (g + 1)%Z);
     randn1 := fun _ g => (IZR (2 * g), (g + 1)%Z) |}.

(** * Properties *)

(** ** Rounding *)

Lemma Int_part_bounds (r : R) :
  IZR (Int_part r) <= r < IZR (Int_part r) + 1.
Proof.
  destruct (base_Int_part r) as [Hlo Hhi]. lra.
Qed.

Lemma Int_part_of_Z (z : Z) : Int_part (IZR z) = z.
Proof.
  symmetry. apply Int_part_spec. lra.
Qed.

Lemma round_half_even_between (r : R) (a b : Z) :
  IZR a <= r <= IZR b -> (a <= round_half_even r <= b)%Z.
Proof.
  intros [Ha Hb]. unfold round_half_even.
  pose proof (Int_part_bounds r) as [Hf Hf'].
  assert (Haf : (a <= Int_part r)%Z).
  { apply Z.lt_succ_r, lt_IZR. rewrite succ_IZR. lra. }
  assert (Hfb : (Int_part r <= b)%Z) by (apply le_IZR; lra).
  destruct (Rlt_dec _ _) as [Hd | Hd]; [lia | ].
  assert (Hlt : (Int_part r < b)%Z) by (apply lt_IZR; lra).
  destruct (Rlt_dec _ _); [lia | ].
  destruct (Z.even _); lia.
Qed.

Lemma round_half_even_of_Z (z : Z) : round_half_even (IZR z) = z.
Proof.
  unfold round_half_even. rewrite Int_part_of_Z.
  destruct (Rlt_dec _ _) as [Hd | Hd]; [reflexivity | lra].
Qed.

Lemma round_half_even_near (r : R) (z : Z) :
  IZR z - 1 / 2 < r < IZR z + 1 / 2 -> round_half_even r = z.
Proof.
  intros [Hlo Hhi]. unfold round_half_even.
  pose proof (Int_part_bounds r) as [Hf Hf'].
  assert (Hz : (z - 1 <= Int_part r <= z)%Z).
  { split.
    - apply Z.lt_succ_r, lt_IZR. rewrite succ_IZR, minus_IZR. lra.
    - apply Z.lt_succ_r, lt_IZR. rewrite succ_IZR. lra. }
  assert (Hcase : Int_part r = z \/ Int_part r = (z - 1)%Z) by lia.
  destruct Hcase as [He | He]; rewrite He in *.
  - destruct (Rlt_dec _ _) as [Hd | Hd]; [reflexivity | lra].
  - rewrite minus_IZR in *.
    destruct (Rlt_dec _ _) as [Hd | Hd]; [lra | ].
    destruct (Rlt_dec _ _) as [Hd' | Hd']; [f_equal; lia | lra].
Qed.

Lemma round_of_Z (z : Z) : round (IZR z) = IZR z.
Proof.
  unfold round. now rewrite round_half_even_of_Z.
Qed.

Lemma hard_quant_round (x : R) : hard_quant x = round x.
Proof.
  unfold hard_quant, detach. lra.
Qed.

(** ** The bit-logit mapper *)

Lemma sigmoid_range (x : R) : 0 < sigmoid x < 1.
Proof.
  unfold sigmoid. pose proof (exp_pos (- x)) as He.
  split.
  - apply Rdiv_lt_0_compat; lra.
  - apply Rmult_lt_reg_r with (1 + exp (- x)); [lra | ].
    unfold Rdiv. rewrite Rmult_assoc, Rinv_l by lra. lra.
Qed.

Lemma logit2bit_range (logit : R) : 2 < _logit2bit logit < 8.5.
Proof.
  unfold _logit2bit. pose proof (sigmoid_range logit). lra.
Qed.

Lemma round_logit2bit (logit : R) :
  (2 <= round_half_even (_logit2bit logit) <= 8)%Z.
Proof.
  pose proof (logit2bit_range logit) as [Hlo Hhi].
  assert (H9 : (2 <= round_half_even (_logit2bit logit) <= 9)%Z)
    by (apply round_half_even_between; lra).
  assert (Hne : round_half_even (_logit2bit logit) <> 9%Z).
  { unfold round_half_even.
    pose proof (Int_part_bounds (_logit2bit logit)) as [Hf Hf'].
    assert (Hf8 : (Int_part (_logit2bit logit) < 9)%Z) by (apply lt_IZR; lra).
    destruct (Rlt_dec _ _) as [Hd | Hd]; [lia | ].
    destruct (Rlt_dec _ _) as [Hd' | Hd'].
    - assert (Int_part (_logit2bit logit) <> 8%Z).
      { intros He. rewrite He in Hd'. lra. }
      lia.
    - destruct (Z.even (Int_part (_logit2bit logit))) eqn:Hev; [lia | ].
      assert (Int_part (_logit2bit logit) <> 8%Z).
      { intros He. rewrite He in Hev. discriminate. }
      lia. }
  lia.
Qed.

(** C4: the mapped bitwidth lies in [2, 8.5] for every logit, and a frozen
    bitwidth is one of the integers 2 to 8. *)
Theorem bitwidth_range :
  (forall logit : R, 2.0 <= _logit2bit logit <= 8.5) /\
  (forall q : Quantizer, 2.0 <= bitwidth q <= 8.5) /\
  (forall q : Quantizer,
     exists n : Z,
       In n [2; 3; 4; 5; 6; 7; 8]%Z /\
       bitwidth (set_bitwidth_requires_grad false q) = IZR n).
Proof.
  split; [ | split].
  - intros logit. pose proof (logit2bit_range logit). lra.
  - intros q. unfold bitwidth.
    pose proof (logit2bit_range (data (_bitwidth q))) as Hr.
    destruct (requires_grad (_bitwidth q)); [lra | ].
    pose proof (round_logit2bit (data (_bitwidth q))) as [Hlo Hhi].
    unfold round. apply IZR_le in Hlo, Hhi. lra.
  - intros q. exists (round_half_even (_logit2bit (data (_bitwidth q)))).
    split; [ | reflexivity].
    pose proof (round_logit2bit (data (_bitwidth q))) as Hr.
    simpl.
    assert (Hc : forall z : Z, (2 <= z <= 8)%Z ->
              (2 = z \/ 3 = z \/ 4 = z \/ 5 = z \/ 6 = z \/ 7 = z \/ 8 = z \/ False)%Z)
      by (intros z Hz; lia).
    apply Hc, Hr.
Qed.

(** ** Construction *)

Lemma prefix_cons_inv (a : ascii) (s1 s2 : string) :
  String.prefix (String a s1) s2 = true ->
  exists s2', s2 = String a s2' /\ String.prefix s1 s2' = true.
Proof.
  destruct s2 as [ | b s2]; simpl; [discriminate | ].
  destruct (ascii_dec a b) as [-> | Hne]; [eauto | discriminate].
Qed.

Lemma prefix_relu_lower (s : string) :
  String.prefix "relu" s = true -> String.prefix "relu" (lower s) = true.
Proof.
  intros H.
  apply prefix_cons_inv in H as (s1 & -> & H).
  apply prefix_cons_inv in H as (s2 & -> & H).
  apply prefix_cons_inv in H as (s3 & -> & H).
  apply prefix_cons_inv in H as (s4 & -> & _).
  cbn. destruct (lower s4); reflexivity.
Qed.

Lemma str_in_relu_lower (s : string) :
  str_in "relu" s = true -> str_in "relu" (lower s) = true.
Proof.
  induction s as [ | c s IH].
  - simpl. discriminate.
  - intros H. change (str_in "relu" (String c s))
      with (String.prefix "relu" (String c s) || str_in "relu" s)%bool in H.
    change (str_in "relu" (lower (String c s)))
      with (String.prefix "relu" (lower (String c s)) || str_in "relu" (lower s))%bool.
    apply orb_true_iff in H. apply orb_true_iff.
    destruct H as [H | H]; [left; now apply prefix_relu_lower | right; auto].
Qed.

Lemma last_char_cons (c : ascii) (a : string) :
  last_char (String c a) <> None.
Proof.
  revert c. induction a as [ | d a IH]; intros c; [discriminate | ].
  exact (IH d).
Qed.

(** The scale logit of a recognised tag: the conversion of the last
    character either fails or is overwritten by [6]. *)
Lemma init_alpha_recognized (a : string) :
  (str_in "relu" a || str_in "swish" a)%bool = true ->
  rbind
    (match last_char a with
     | Some c => if isdigit c then float_of_char c else ok 0
     | None => raise IndexError
     end)
    (fun _ : R => ok 6)
  = if float_rejects_last a then raise ValueError else ok 6.
Proof.
  intros Hrec. unfold float_rejects_last.
  destruct (last_char a) as [c | ] eqn:Hc.
  - destruct (isdigit c); cbn [andb]; [ | reflexivity].
    unfold float_of_char.
    destruct (Nat.leb 48 (nat_of_ascii c) && Nat.leb (nat_of_ascii c) 57)%bool;
      reflexivity.
  - destruct a as [ | c a']; [discriminate Hrec | ].
    now apply last_char_cons in Hc.
Qed.

(** [Quantizer.__init__] on a tagged asymmetric quantizer, branch by
    branch. *)
Lemma Quantizer_init_tagged (tag : string) :
  Quantizer_init false (Some tag) =
  rbind
    (let a := lower tag in
     if str_in "relu" a then ok 0
     else if str_in "swish" a then
       if str_in "h" (slice_to 2 a) then ok 0.3125
       else ok 0.2784645427610738
     else raise NotImplementedError)
    (fun o =>
       if float_rejects_last (lower tag) then raise ValueError
       else ok (mkQuantizer false (Some (scalar Cuda o)) (mkParameter 2.5 true)
                  (mkParameter 6 true) true)).
Proof.
  unfold Quantizer_init. cbn [negb rbind ok]. cbv zeta.
  destruct (str_in "relu" (lower tag)) eqn:Hr; cbn [rbind ok raise].
  - rewrite Hr. cbn [orb].
    rewrite (init_alpha_recognized (lower tag)) by (rewrite Hr; reflexivity).
    destruct (float_rejects_last (lower tag)); reflexivity.
  - destruct (str_in "swish" (lower tag)) eqn:Hs; cbn [rbind ok raise];
      [ | reflexivity].
    destruct (str_in "h" (slice_to 2 (lower tag))); cbn [rbind ok raise];
      rewrite Hr, Hs; cbn [orb];
      rewrite (init_alpha_recognized (lower tag)) by (rewrite Hr, Hs; reflexivity);
      destruct (float_rejects_last (lower tag)); reflexivity.
Qed.

Lemma Quantizer_init_relu (tag : string) :
  str_in "relu" (lower tag) = true ->
  float_rejects_last (lower tag) = false ->
  exists q, Quantizer_init false (Some tag) = ok q /\
            symm q = false /\ offset q = Some (scalar Cuda 0).
Proof.
  intros H Hf. rewrite Quantizer_init_tagged. cbv zeta.
  rewrite H, Hf. cbn [rbind ok]. eexists. split; [reflexivity | ].
  split; reflexivity.
Qed.

Lemma Quantizer_init_hswish (tag : string) :
  str_in "relu" (lower tag) = false ->
  str_in "swish" (lower tag) = true ->
  str_in "h" (slice_to 2 (lower tag)) = true ->
  float_rejects_last (lower tag) = false ->
  exists q, Quantizer_init false (Some tag) = ok q /\
            symm q = false /\ offset q = Some (scalar Cuda 0.3125).
Proof.
  intros Hr Hs Hh Hf. rewrite Quantizer_init_tagged. cbv zeta.
  rewrite Hr, Hs, Hh, Hf. cbn [rbind ok]. eexists. split; [reflexivity | ].
  split; reflexivity.
Qed.

Lemma Quantizer_init_swish (tag : string) :
  str_in "relu" (lower tag) = false ->
  str_in "swish" (lower tag) = true ->
  str_in "h" (slice_to 2 (lower tag)) = false ->
  float_rejects_last (lower tag) = false ->
  exists q, Quantizer_init false (Some tag) = ok q /\
            symm q = false /\
            offset q = Some (scalar Cuda 0.2784645427610738).
Proof.
  intros Hr Hs Hh Hf. rewrite Quantizer_init_tagged. cbv zeta.
  rewrite Hr, Hs, Hh, Hf. cbn [rbind ok]. eexists. split; [reflexivity | ].
  split; reflexivity.
Qed.

Lemma Quantizer_init_unknown (tag : string) :
  str_in "relu" (lower tag) = false ->
  str_in "swish" (lower tag) = false ->
  Quantizer_init false (Some tag) = raise NotImplementedError.
Proof.
  intros Hr Hs. rewrite Quantizer_init_tagged. cbv zeta.
  rewrite Hr, Hs. reflexivity.
Qed.

Lemma Quantizer_init_rejected (tag : string) :
  (str_in "relu" (lower tag) || str_in "swish" (lower tag))%bool = true ->
  float_rejects_last (lower tag) = true ->
  Quantizer_init false (Some tag) = raise ValueError.
Proof.
  intros Hrec Hf. rewrite Quantizer_init_tagged. cbv zeta. rewrite Hf.
  destruct (str_in "relu" (lower tag)); [reflexivity | ].
  cbn [orb] in Hrec. rewrite Hrec.
  destruct (str_in "h" (slice_to 2 (lower tag))); reflexivity.
Qed.

Lemma Quantizer_init_symm (act_func : option string) :
  exists q, Quantizer_init true act_func = ok q /\
            symm q = true /\ offset q = None.
Proof.
  unfold Quantizer_init. cbn [negb rbind ok]. eexists.
  split; [reflexivity | ]. split; reflexivity.
Qed.

(** C5: the constructor selects the offset by the activation tag (0 for a
    tag containing [relu], 0.3125 for a hard swish, 0.2784645427610738 for a
    swish) and raises [NotImplementedError] for a tag that names neither;
    but for a recognised tag whose last character passes [isdigit] and is
    no decimal digit, the conversion of line 151, whose value the next line
    overwrites, raises [ValueError] and no quantizer is built: so for the
    tag [relu] followed by a superscript two. *)
Theorem quantizer_offset_by_tag (tag : string) :
  (float_rejects_last (lower tag) = false ->
   (str_in "relu" tag = true \/ str_in "relu" (lower tag) = true ->
    exists q, Quantizer_init false (Some tag) = ok q /\
              offset q = Some (scalar Cuda 0)) /\
   (str_in "relu" (lower tag) = false ->
    str_in "swish" (lower tag) = true ->
    str_in "h" (slice_to 2 (lower tag)) = true ->
    exists q, Quantizer_init false (Some tag) = ok q /\
              offset q = Some (scalar Cuda 0.3125)) /\
   (str_in "relu" (lower tag) = false ->
    str_in "swish" (lower tag) = true ->
    str_in "h" (slice_to 2 (lower tag)) = false ->
    exists q, Quantizer_init false (Some tag) = ok q /\
              offset q = Some (scalar Cuda 0.2784645427610738))) /\
  (str_in "relu" (lower tag) = false ->
   str_in "swish" (lower tag) = false ->
   Quantizer_init false (Some tag) = raise NotImplementedError) /\
  ((str_in "relu" (lower tag) || str_in "swish" (lower tag))%bool = true ->
   float_rejects_last (lower tag) = true ->
   Quantizer_init false (Some tag) = raise ValueError) /\
  str_in "relu" relu_superscript_two = true /\
  Quantizer_init false (Some relu_superscript_two) = raise ValueError.
Proof.
  split; [intros Hf; split; [ | split] | split; [ | split; [ | split]]].
  - intros H.
    assert (Hl : str_in "relu" (lower tag) = true)
      by (destruct H as [H | H]; [now apply str_in_relu_lower | exact H]).
    destruct (Quantizer_init_relu tag Hl Hf) as (q & Hq & _ & Ho). eauto.
  - intros Hr Hs Hh.
    destruct (Quantizer_init_hswish tag Hr Hs Hh Hf) as (q & Hq & _ & Ho).
    eauto.
  - intros Hr Hs Hh.
    destruct (Quantizer_init_swish tag Hr Hs Hh Hf) as (q & Hq & _ & Ho).
    eauto.
  - apply Quantizer_init_unknown.
  - apply Quantizer_init_rejected.
  - reflexivity.
  - apply Quantizer_init_rejected; reflexivity.
Qed.

Lemma quantizer_offset_by_tag_witness :
  (exists q, Quantizer_init false (Some "ReLU6"%string) = ok q /\
             offset q = Some (scalar Cuda 0)) /\
  (exists q, Quantizer_init false (Some "hswish"%string) = ok q /\
             offset q = Some (scalar Cuda 0.3125)) /\
  (exists q, Quantizer_init false (Some "swish"%string) = ok q /\
             offset q = Some (scalar Cuda 0.2784645427610738)) /\
  Quantizer_init false (Some "gelu"%string) = raise NotImplementedError /\
  Quantizer_init false (Some relu_superscript_two) = raise ValueError.
Proof.
  split; [ | split; [ | split; [ | split]]].
  - apply (proj1 (proj1 (quantizer_offset_by_tag "ReLU6") eq_refl)).
    right. reflexivity.
  - apply (proj1 (proj2 (proj1 (quantizer_offset_by_tag "hswish") eq_refl)));
      reflexivity.
  - apply (proj2 (proj2 (proj1 (quantizer_offset_by_tag "swish") eq_refl)));
      reflexivity.
  - apply (proj1 (proj2 (quantizer_offset_by_tag "gelu"))); reflexivity.
  - apply (proj1 (proj2 (proj2 (quantizer_offset_by_tag relu_superscript_two))));
      reflexivity.
Defined.

Lemma Q_Conv2d_init_untagged (c_in c_out k : Z) (w : list R) :
  exists m, Q_Conv2d_init c_in c_out k w None = ok m /\
            symm (a_quant m) = true /\ offset (a_quant m) = None.
Proof.
  unfold Q_Conv2d_init.
  destruct (Quantizer_init_symm None) as (q & Hq & Hs & Ho).
  rewrite Hq. cbn [rbind ok]. eexists. split; [reflexivity | ]. now split.
Qed.

Lemma Q_Conv2d_init_tagged (c_in c_out k : Z) (w : list R) (tag : string) :
  match Q_Conv2d_init c_in c_out k w (Some tag) with
  | inr m => symm (a_quant m) = false /\ offset (a_quant m) <> None
  | inl _ => True
  end.
Proof.
  unfold Q_Conv2d_init. rewrite Quantizer_init_tagged. cbv zeta.
  destruct (str_in "relu" (lower tag)); cbn [rbind ok raise];
    [ | destruct (str_in "swish" (lower tag)); cbn [rbind ok raise];
        [destruct (str_in "h" (slice_to 2 (lower tag))); cbn [rbind ok raise]
        | exact I]];
    (destruct (float_rejects_last (lower tag)); cbn [rbind ok raise];
     [exact I | split; [reflexivity | discriminate]]).
Qed.

Lemma Q_Conv_init_quantizer (c1 c2 k : Z) (w : list R) :
  exists m, Q_Conv_init c1 c2 k w = ok m /\
            symm (a_quant (conv m)) = false /\
            offset (a_quant (conv m)) =
              Some (scalar Cuda (if (c1 =? 3)%Z then 0 else 0.2784645427610738)).
Proof.
  unfold Q_Conv_init, Q_Conv2d_init.
  destruct (c1 =? 3)%Z eqn:H3.
  - destruct (Quantizer_init_relu "relu1" eq_refl eq_refl)
      as (q & Hq & Hs & Ho).
    rewrite Hq. cbn [rbind ok orb]. eexists. split; [reflexivity | ].
    now split.
  - destruct (Quantizer_init_swish "swish" eq_refl eq_refl eq_refl eq_refl)
      as (q & Hq & Hs & Ho).
    rewrite Hq. cbn [rbind ok orb]. eexists. split; [reflexivity | ].
    destruct (c1 =? 32)%Z; now split.
Qed.

(** C6, as the code has it: a [Q_Conv2d] gets a symmetric activation
    quantizer, without offset, exactly when it is built without an
    activation tag; [Q_Conv] always passes a tag, ["relu1"] for a 3-channel
    input and ["swish"] for any other, so its activation quantizer is
    asymmetric with the offset of that tag. *)
Theorem activation_quantizer_symmetry :
  (forall c_in c_out k w,
     exists m, Q_Conv2d_init c_in c_out k w None = ok m /\
               symm (a_quant m) = true /\ offset (a_quant m) = None) /\
  (forall c_in c_out k w tag,
     match Q_Conv2d_init c_in c_out k w (Some tag) with
     | inr m => symm (a_quant m) = false /\ offset (a_quant m) <> None
     | inl _ => True
     end) /\
  (forall c1 c2 k w,
     exists m, Q_Conv_init c1 c2 k w = ok m /\
               symm (a_quant (conv m)) = false /\
               offset (a_quant (conv m)) =
                 Some (scalar Cuda
                         (if (c1 =? 3)%Z then 0 else 0.2784645427610738))).
Proof.
  split; [ | split].
  - apply Q_Conv2d_init_untagged.
  - apply Q_Conv2d_init_tagged.
  - apply Q_Conv_init_quantizer.
Qed.

(** C6 fails on the first operator of the network: the [Q_Conv] that
    consumes the 3-channel image gets an asymmetric activation quantizer. *)
Lemma first_conv_is_asymmetric :
  ~ (exists m, Q_Conv_init 3 32 6 [1] = ok m /\ symm (a_quant (conv m)) = true).
Proof.
  intros (m & Hm & Hs).
  destruct (Q_Conv_init_quantizer 3 32 6 [1]) as (m' & Hm' & Hs' & _).
  rewrite Hm in Hm'. injection Hm' as <-. congruence.
Qed.

(** ** [initialize_Q] *)

Lemma fold_left_Rmax_spec (l : list R) (v : R) :
  (fold_left Rmax l v = v \/ In (fold_left Rmax l v) l) /\
  v <= fold_left Rmax l v /\
  Forall (fun u => u <= fold_left Rmax l v) l.
Proof.
  revert v. induction l as [ | a l IH]; intros v; simpl.
  - repeat split; [now left | lra | constructor].
  - destruct (IH (Rmax v a)) as (Hin & Hle & Hall).
    pose proof (Rmax_l v a) as Hl. pose proof (Rmax_r v a) as Hr.
    repeat split.
    + destruct Hin as [He | Hin]; [ | now right; right].
      rewrite He. unfold Rmax. destruct (Rle_dec v a); [right | ]; now left.
    + lra.
    + constructor; [lra | exact Hall].
Qed.

Lemma tensor_max_spec (l : list R) :
  l <> [] -> exists v, tensor_max l = ok v /\ is_max v l.
Proof.
  destruct l as [ | a l]; [congruence | intros _].
  simpl. eexists. split; [reflexivity | ].
  destruct (fold_left_Rmax_spec l a) as (Hin & Hle & Hall).
  split.
  - destruct Hin as [He | Hin]; [left; now rewrite He | now right].
  - constructor; assumption.
Qed.

Lemma rmapM_first (ms : list module) :
  Forall has_weight ms ->
  exists ms', rmapM (initialize_module true) ms = ok ms' /\
              Forall2 weight_seeded ms ms'.
Proof.
  induction 1 as [ | m ms Hm _ (ms' & Hms & Hall)]; simpl.
  - exists []. split; [reflexivity | constructor].
  - destruct m as [a | a | ]; simpl in Hm |- *.
    + destruct (tensor_max_spec _ Hm) as (v & Hv & Hmax).
      rewrite Hv, Hms. cbn [rbind ok]. eexists. split; [reflexivity | ].
      constructor; [ | exact Hall]. exists v. now split.
    + destruct (tensor_max_spec _ Hm) as (v & Hv & Hmax).
      rewrite Hv, Hms. cbn [rbind ok]. eexists. split; [reflexivity | ].
      constructor; [ | exact Hall]. exists v. now split.
    + rewrite Hms. cbn [rbind ok]. eexists. split; [reflexivity | ].
      constructor; [exact I | exact Hall].
Qed.

Lemma rmapM_finetune (ms : list module) :
  exists ms', rmapM (initialize_module false) ms = ok ms' /\
              Forall2 bitwidth_frozen ms ms'.
Proof.
  induction ms as [ | m ms (ms' & Hms & Hall)]; simpl.
  - exists []. split; [reflexivity | constructor].
  - destruct m as [a | a | ]; simpl; rewrite Hms; cbn [rbind ok];
      (eexists; split; [reflexivity | ]); (constructor; [ | exact Hall]);
      simpl; auto.
Qed.

(** C7, as the code has it: mode ["first"] needs a sample input, runs the
    calibration pass and then stores in the scale logit of every weight
    quantizer the largest element of that operator's weight tensor (the
    signed maximum, not the largest magnitude); mode ["finetune"] needs no
    sample input and switches off [requires_grad] on both bitwidth logits
    of every quantized operator. *)
Theorem initialize_Q_modes :
  (forall model x channel_last model1,
     sample_activation_size model x channel_last = ok model1 ->
     Forall has_weight (modules model1) ->
     exists model2,
       initialize_Q model "first" (Some x) channel_last = ok model2 /\
       Forall2 weight_seeded (modules model1) (modules model2)) /\
  (forall model channel_last,
     initialize_Q model "first" None channel_last = raise AssertionError) /\
  (forall model sample_input channel_last,
     exists model2,
       initialize_Q model "finetune" sample_input channel_last = ok model2 /\
       Forall2 bitwidth_frozen (modules model) (modules model2)).
Proof.
  split; [ | split].
  - intros model x channel_last model1 Hcal Hw.
    unfold initialize_Q. cbn [String.eqb Ascii.eqb Bool.eqb orb negb].
    rewrite Hcal. cbn [rbind ok].
    destruct (rmapM_first _ Hw) as (ms' & Hms & Hall).
    rewrite Hms. cbn [rbind ok]. eexists. split; [reflexivity | exact Hall].
  - intros model channel_last. reflexivity.
  - intros model sample_input channel_last.
    unfold initialize_Q. cbn [String.eqb Ascii.eqb Bool.eqb orb negb rbind ok].
    destruct (rmapM_finetune (modules model)) as (ms' & Hms & Hall).
    rewrite Hms. cbn [rbind ok]. eexists. split; [reflexivity | exact Hall].
Qed.

Lemma initialize_Q_modes_witness :
  exists model2,
    initialize_Q demo_model "first" (Some (scalar Cpu 0)) false = ok model2 /\
    Forall2 weight_seeded
      (map eval_module (modules demo_model)) (modules model2).
Proof.
  apply (proj1 initialize_Q_modes demo_model (scalar Cpu 0) false
           (mkModel (map eval_module (modules demo_model)) (call demo_model))).
  - reflexivity.
  - repeat constructor. discriminate.
Defined.

(** C7 fails where the largest magnitude of a weight tensor is that of a
    negative element: on the weights [-5; 1] the scale logit becomes [1],
    and the largest magnitude is [5]. *)
Lemma first_mode_seeds_signed_maximum :
  exists m rest,
    rbind (initialize_Q demo_model "first" (Some (scalar Cpu 0)) false)
      (fun model => ok (modules model)) = ok (M_Conv2d m :: rest) /\
    weight m = [-5; 1] /\
    data (_alpha (w_quant m)) = 1 /\
    is_max 5 (map Rabs (weight m)) /\
    ~ is_max (data (_alpha (w_quant m))) (map Rabs (weight m)).
Proof.
  eexists. eexists. split; [reflexivity | ].
  cbn [weight with_quantizers w_quant _alpha data set_alpha_data demo_conv
       eval_module map fold_left].
  assert (Hmax : Rmax (-5) 1 = 1) by (apply Rmax_right; lra).
  assert (Habs5 : Rabs (-5) = 5) by (rewrite Rabs_left; lra).
  assert (Habs1 : Rabs 1 = 1) by (apply Rabs_right; lra).
  rewrite Hmax, Habs5, Habs1.
  split; [reflexivity | ]. split; [reflexivity | ]. split.
  - split; [now left | ]. repeat constructor; lra.
  - intros [_ Hall]. inversion Hall as [ | u l Hu _]. lra.
Qed.

(** ** BOPs *)

Lemma bops_formula (k c_in c_out h_out w_out : Z) (w_bit a_bit : R) :
  bops k c_in c_out h_out w_out w_bit a_bit =
  IZR c_out * IZR c_in * IZR k ^ 2 * IZR h_out * IZR w_out * a_bit * w_bit
  * / 2 ^ 30.
Proof.
  unfold bops. rewrite !mult_IZR.
  replace (IZR (2 ^ 30)) with (2 ^ 30) by (rewrite pow_IZR; reflexivity).
  unfold Rdiv. ring.
Qed.

(** C8: the cost of one operator is the product of its extents and its two
    bitwidths scaled by [2^-30]; [model_bops] evaluates it on a convolution
    with the recorded output extents and on a linear operator with [k=1],
    [c_out=1], [h_out=1], [w_out=out_features]; the convolution of the
    scenario costs [32*16*9*196*8*4 / 2^30]. *)
Theorem bops_cost :
  (forall k c_in c_out h_out w_out w_bit a_bit,
     bops k c_in c_out h_out w_out w_bit a_bit =
     IZR c_out * IZR c_in * IZR k ^ 2 * IZR h_out * IZR w_out * a_bit * w_bit
     * / 2 ^ 30) /\
  (forall c_in c_out k k' wt aq wq ih iw h_out w_out,
     model_bops
       [M_Conv2d (mkQ_Conv2d c_in c_out (k, k') wt aq wq ih iw
                    (Some h_out) (Some w_out))] =
     ok (0 + bops k c_in c_out (Z.of_nat h_out) (Z.of_nat w_out)
               (bitwidth wq) (bitwidth aq))) /\
  (forall l,
     model_bops [M_Linear l] =
     ok (0 + bops 1 (in_features l) 1 1 (out_features l)
               (bitwidth (lin_w_quant l)) (bitwidth (lin_a_quant l)))) /\
  bops 3 16 32 14 14 4 8 = 32 * 16 * 9 * 196 * 8 * 4 / 2 ^ 30.
Proof.
  split; [ | split; [ | split]].
  - apply bops_formula.
  - reflexivity.
  - reflexivity.
  - rewrite bops_formula. unfold Rdiv. ring.
Qed.

(** ** [noise_quant] *)

Lemma gen_of_set_gen {rs : RandomSource} (d : Device) (g : generator rs)
    (s : rng rs) : gen_of d (set_gen d g s) = g.
Proof.
  destruct d; reflexivity.
Qed.

Lemma gen_of_manual_seed {rs : RandomSource} (d : Device) (seed : R) :
  gen_of d (manual_seed (rs := rs) seed) = seeded rs d (int_of seed).
Proof.
  destruct d; reflexivity.
Qed.

(** What [forward] computes, field by field. *)
Lemma noise_quant_forward_eq {rs : RandomSource} (x : Tensor) (step : R)
    (s : rng rs) :
  let d := forward_device x in
  let rseed := fst (rand1 rs d (gen_of d s)) in
  let draw := randn1 rs d (seeded rs d (int_of rseed)) in
  noise_quant_forward x step s =
  ((mkCtx [rseed], tmap (fun v => v + round (fst draw / 2) * step) x),
   set_gen d (snd draw) (manual_seed rseed)).
Proof.
  cbv zeta. unfold noise_quant_forward, torch_rand, torch_randn.
  destruct (rand1 rs (forward_device x) (gen_of (forward_device x) s))
    as [rseed g1] eqn:Hrand.
  cbn [fst snd]. rewrite gen_of_manual_seed.
  destruct (randn1 rs (forward_device x)
              (seeded rs (forward_device x) (int_of rseed))) as [n g2].
  reflexivity.
Qed.

(** What [backward] computes from a context saved by [forward]. *)
Lemma noise_quant_backward_eq {rs : RandomSource} (rseed : R)
    (grad_output : Tensor) (s : rng rs) :
  fst (noise_quant_backward (mkCtx [rseed]) grad_output s) =
  ok (grad_output,
      round (fst (randn1 rs Cpu (seeded rs Cpu (int_of rseed))) / 2)).
Proof.
  unfold noise_quant_backward, torch_randn. cbn [saved_tensors].
  rewrite gen_of_manual_seed.
  destruct (randn1 rs Cpu _) as [n g2]. reflexivity.
Qed.

(** C10: one forward call draws one normal sample from the freshly seeded
    generator of the input's device and adds the one value
    [round(sample / 2) * step] to every element. *)
Theorem noise_quant_shared_dither (rs : RandomSource) (x : Tensor) (step : R)
    (s : rng rs) :
  let d := forward_device x in
  let rseed := fst (rand1 rs d (gen_of d s)) in
  let draw := randn1 rs d (seeded rs d (int_of rseed)) in
  let dither := round (fst draw / 2) * step in
  let y := snd (fst (noise_quant_forward x step s)) in
  let s' := snd (noise_quant_forward x step s) in
  (forall i, elem y i = elem x i + dither) /\
  shape y = shape x /\ device y = device x /\
  gen_of d s' = snd draw.
Proof.
  cbv zeta. rewrite noise_quant_forward_eq. cbn [fst snd].
  rewrite gen_of_set_gen. repeat split.
Qed.

(** On a CPU input the backward draw repeats the forward draw. *)
Lemma noise_quant_backward_cpu {rs : RandomSource} (x : Tensor) (step : R)
    (s s' : rng rs) (grad_output : Tensor) :
  is_cuda x = false ->
  let c := fst (fst (noise_quant_forward x step s)) in
  let y := snd (fst (noise_quant_forward x step s)) in
  exists d' : R,
    fst (noise_quant_backward c grad_output s') = ok (grad_output, d') /\
    forall i, elem y i = elem x i + d' * step.
Proof.
  intros Hcpu. cbv zeta. rewrite noise_quant_forward_eq. cbn [fst snd].
  unfold forward_device. rewrite Hcpu. rewrite noise_quant_backward_eq.
  eexists. split; [reflexivity | ]. intros i. reflexivity.
Qed.

(** The two draws of one invocation: the forward sample comes from the
    generator of the device of [x], the backward sample from the CPU
    generator, both freshly seeded with the saved seed. *)
Lemma noise_quant_draws {rs : RandomSource} (x : Tensor) (step : R)
    (s s' : rng rs) (grad_output : Tensor) :
  let d := forward_device x in
  let rseed := fst (rand1 rs d (gen_of d s)) in
  let forward_d := round (fst (randn1 rs d (seeded rs d (int_of rseed))) / 2) in
  let backward_d :=
    round (fst (randn1 rs Cpu (seeded rs Cpu (int_of rseed))) / 2) in
  let c := fst (fst (noise_quant_forward x step s)) in
  let y := snd (fst (noise_quant_forward x step s)) in
  (forall i, elem y i = elem x i + forward_d * step) /\
  fst (noise_quant_backward c grad_output s') = ok (grad_output, backward_d).
Proof.
  cbv zeta. rewrite noise_quant_forward_eq. cbn [fst snd]. split.
  - intros i. reflexivity.
  - apply noise_quant_backward_eq.
Qed.

Lemma int_of_unit_interval (r : R) : 0 <= r < 1 -> int_of r = 0%Z.
Proof.
  intros [Hlo Hhi]. unfold int_of.
  destruct (Rlt_dec r 0) as [Hneg | _]; [lra | ].
  symmetry. apply Int_part_spec. lra.
Qed.

(** With a source whose CPU and CUDA streams differ, a CUDA input gets the
    forward multiplier [1] and the backward surrogate [0]. *)
Lemma cuda_backward_draw_mismatch :
  let x := scalar Cuda 0 in
  let s := mkRng (rs := counter_source) 0%Z 0%Z in
  let c := fst (fst (noise_quant_forward x 1 s)) in
  let y := snd (fst (noise_quant_forward x 1 s)) in
  elem y [] = 0 + 1 * 1 /\
  fst (noise_quant_backward c x s) = ok (x, 0).
Proof.
  cbv zeta. rewrite noise_quant_forward_eq. cbn [fst snd].
  rewrite noise_quant_backward_eq.
  cbn [forward_device is_cuda scalar device gen_of cuda_gen counter_source
       rand1 randn1 seeded fst snd elem tmap].
  assert (Hseed : int_of (0 / 4) = 0%Z) by (apply int_of_unit_interval; lra).
  rewrite Hseed. cbn [Z.add Z.mul Pos.mul].
  assert (H1 : round (2 / 2) = 1).
  { replace (2 / 2) with (IZR 1) by lra. apply round_of_Z. }
  assert (H0 : round (0 / 2) = 0).
  { replace (0 / 2) with (IZR 0) by lra. apply round_of_Z. }
  rewrite H1, H0. split; reflexivity.
Qed.


(** C2 on the code: the gradient for [x] is [grad_output] unchanged and the
    gradient for [step] is [round(sample / 2)] for a sample drawn after
    re-seeding with the saved seed.  The forward sample comes from the
    generator of the device of [x], the backward sample always from the CPU
    generator; on a CUDA input, with a source whose two streams differ, the
    forward multiplier is [1] and the backward surrogate is [0]. *)
Theorem noise_quant_backward_draw :
  (forall (rs : RandomSource) (x : Tensor) (step : R) (s s' : rng rs)
          (grad_output : Tensor),
     let d := forward_device x in
     let rseed := fst (rand1 rs d (gen_of d s)) in
     let c := fst (fst (noise_quant_forward x step s)) in
     let y := snd (fst (noise_quant_forward x step s)) in
     (forall i,
        elem y i =
        elem x i
        + round (fst (randn1 rs d (seeded rs d (int_of rseed))) / 2) * step) /\
     fst (noise_quant_backward c grad_output s') =
     ok (grad_output,
         round (fst (randn1 rs Cpu (seeded rs Cpu (int_of rseed))) / 2))) /\
  (let x := scalar Cuda 0 in
   let s := mkRng (rs := counter_source) 0%Z 0%Z in
   let c := fst (fst (noise_quant_forward x 1 s)) in
   let y := snd (fst (noise_quant_forward x 1 s)) in
   elem y [] = 0 + 1 * 1 /\
   fst (noise_quant_backward c x s) = ok (x, 0)).
Proof.
  split.
  - intros rs x step s s' grad_output. apply noise_quant_draws.
  - apply cuda_backward_draw_mismatch.
Qed.

(** ** [Quantizer._quant] *)

Lemma quant_offset_frozen (q : Quantizer) (x : Tensor) :
  quant_offset (set_bitwidth_requires_grad false q) x = quant_offset q x.
Proof.
  reflexivity.
Qed.

Lemma quant_lsq_elem (q : Quantizer) (x : Tensor) (i : index) :
  elem (quant_lsq q x) i =
  round (clamp (elem x i / quant_alpha q) 0 1 * quant_n_lv q) * quant_step q.
Proof.
  unfold quant_lsq. cbn [tmap elem]. now rewrite hard_quant_round.
Qed.

(** The deterministic policy: no draw, and the LSQ value element-wise. *)
Lemma quant_deterministic {rs : RandomSource} (q : Quantizer) (x off : Tensor)
    (is_training : bool) (s : rng rs) :
  quant_offset q x = ok off ->
  (is_training && requires_grad (_bitwidth q))%bool = false ->
  _quant q x is_training s =
    (ok (tzip Rminus (quant_lsq q (tzip Rplus x off)) off), s).
Proof.
  intros Hoff Hbr. unfold _quant, bind, lift. rewrite Hoff. cbn [ok].
  rewrite Hbr. reflexivity.
Qed.

(** The stochastic policy: [noise_quant] on the shifted input. *)
Lemma quant_stochastic {rs : RandomSource} (q : Quantizer) (x off : Tensor)
    (is_training : bool) (s : rng rs) :
  quant_offset q x = ok off ->
  (is_training && requires_grad (_bitwidth q))%bool = true ->
  _quant q x is_training s =
    (ok (tzip Rminus
           (tmap (fun v => clamp (v / quant_alpha q) 0 1 * quant_alpha q)
              (snd (fst (noise_quant_forward (tzip Rplus x off) (quant_step q) s))))
           off),
     snd (noise_quant_forward (tzip Rplus x off) (quant_step q) s)).
Proof.
  intros Hoff Hbr. unfold _quant, bind, lift. rewrite Hoff. cbn [ok].
  rewrite Hbr. unfold quant_diffq, bind, noise_quant, ret.
  destruct (noise_quant_forward (tzip Rplus x off) (quant_step q) s)
    as [[c y] s'].
  reflexivity.
Qed.

(** C1: [_quant] runs the stochastic policy exactly when [is_training] holds
    and the bitwidth logit requires gradient, and the deterministic LSQ
    policy, which leaves the generators alone, in every other case; a
    quantizer frozen for finetuning runs LSQ under [is_training=True]. *)
Theorem quant_branch_selection (rs : RandomSource) (q : Quantizer)
    (x off : Tensor) (s : rng rs) :
  quant_offset q x = ok off ->
  let d := forward_device x in
  let rseed := fst (rand1 rs d (gen_of d s)) in
  let draw := randn1 rs d (seeded rs d (int_of rseed)) in
  let lsq (q : Quantizer) (i : index) :=
    round (clamp ((elem x i + elem off i) / quant_alpha q) 0 1 * quant_n_lv q)
    * quant_step q - elem off i in
  (forall is_training,
     (is_training && requires_grad (_bitwidth q))%bool = true ->
     exists y s',
       _quant q x is_training s = (ok y, s') /\
       gen_of d s' = snd draw /\
       forall i,
         elem y i =
         clamp ((elem x i + elem off i + round (fst draw / 2) * quant_step q)
                / quant_alpha q) 0 1 * quant_alpha q - elem off i) /\
  (forall is_training,
     (is_training && requires_grad (_bitwidth q))%bool = false ->
     exists y,
       _quant q x is_training s = (ok y, s) /\
       forall i, elem y i = lsq q i) /\
  (exists y,
     _quant (set_bitwidth_requires_grad false q) x true s = (ok y, s) /\
     forall i, elem y i = lsq (set_bitwidth_requires_grad false q) i) /\
  forward q x s = _quant q x (training q) s.
Proof.
  intros Hoff. cbv zeta. split; [ | split; [ | split]].
  - intros is_training Hbr.
    rewrite (quant_stochastic q x off is_training s Hoff Hbr).
    eexists. eexists. split; [reflexivity | ].
    rewrite noise_quant_forward_eq. cbn [fst snd].
    assert (Hd : forward_device (tzip Rplus x off) = forward_device x)
      by reflexivity.
    rewrite Hd, gen_of_set_gen. split; reflexivity.
  - intros is_training Hbr.
    rewrite (quant_deterministic q x off is_training s Hoff Hbr).
    eexists. split; [reflexivity | ].
    intros i. cbn [tzip elem]. now rewrite quant_lsq_elem.
  - rewrite (quant_deterministic (set_bitwidth_requires_grad false q) x off
               true s); [ | now rewrite quant_offset_frozen | reflexivity].
    eexists. split; [reflexivity | ].
    intros i. cbn [tzip elem]. now rewrite quant_lsq_elem.
  - reflexivity.
Qed.

Lemma quant_branch_selection_witness :
  exists y,
    _quant (set_bitwidth_requires_grad false relu_quantizer) (scalar Cpu 0)
      true (mkRng (rs := counter_source) 0%Z 0%Z)
    = (ok y, mkRng (rs := counter_source) 0%Z 0%Z) /\
    forall i,
      elem y i =
      round (clamp ((0 + 0)
                    / quant_alpha (set_bitwidth_requires_grad false relu_quantizer))
               0 1
             * quant_n_lv (set_bitwidth_requires_grad false relu_quantizer))
      * quant_step (set_bitwidth_requires_grad false relu_quantizer) - 0.
Proof.
  apply (proj1 (proj2 (proj2
    (quant_branch_selection counter_source relu_quantizer (scalar Cpu 0)
       (cpu (scalar Cuda 0)) (mkRng (rs := counter_source) 0%Z 0%Z) eq_refl)))).
Defined.

(** ** The level set of the LSQ policy *)

Lemma softplus_pos (x : R) : 0 < softplus x.
Proof.
  unfold softplus. destruct (Rlt_dec 20 x) as [Hbig | _]; [lra | ].
  rewrite <- ln_1. apply ln_increasing; [lra | ].
  pose proof (exp_pos x). lra.
Qed.

Lemma Rpower_2_Z (b : Z) : (0 <= b)%Z -> Rpower 2 (IZR b) = IZR (2 ^ b).
Proof.
  intros Hb. rewrite <- (Z2Nat.id b Hb) at 1.
  rewrite <- INR_IZR_INZ, Rpower_pow by lra.
  rewrite pow_IZR, Z2Nat.id by exact Hb. reflexivity.
Qed.

Lemma hard_quant_bitwidth (q : Quantizer) :
  exists b : Z, (2 <= b <= 8)%Z /\ hard_quant (bitwidth q) = IZR b.
Proof.
  exists (round_half_even (_logit2bit (data (_bitwidth q)))).
  split; [apply round_logit2bit | ].
  rewrite hard_quant_round. unfold bitwidth.
  destruct (requires_grad (_bitwidth q)); [reflexivity | ].
  unfold round at 2. apply round_of_Z.
Qed.

Lemma quant_n_lv_Z (q : Quantizer) :
  exists n : Z, (3 <= n)%Z /\ quant_n_lv q = IZR n.
Proof.
  destruct (hard_quant_bitwidth q) as (b & Hb & Hq).
  exists (2 ^ b - 1)%Z. split.
  - assert (2 ^ 2 <= 2 ^ b)%Z by (apply Z.pow_le_mono_r; lia). lia.
  - unfold quant_n_lv. rewrite Hq, Rpower_2_Z by lia.
    rewrite minus_IZR. reflexivity.
Qed.

Lemma quant_alpha_pos (q : Quantizer) : 0 < quant_alpha q.
Proof.
  unfold quant_alpha. pose proof (softplus_pos (data (_alpha q))) as Ha.
  fold (alpha q) in Ha. destruct (symm q); [ | exact Ha].
  destruct (hard_quant_bitwidth q) as (b & Hb & Hq). rewrite Hq.
  assert (Hlt : Rpower 2 (- IZR b + 1) < 2).
  { rewrite <- (Rpower_1 2) at 2 by lra.
    apply Rpower_lt; [lra | ].
    assert (2 <= IZR b) by (apply IZR_le; lia). lra. }
  apply Rmult_lt_0_compat; lra.
Qed.

Lemma clamp_unit (v : R) : 0 <= clamp v 0 1 <= 1.
Proof.
  unfold clamp, Rmin, Rmax.
  destruct (Rle_dec v 0); destruct (Rle_dec _ 1); lra.
Qed.

Lemma clamp_inside (v : R) : 0 <= v <= 1 -> clamp v 0 1 = v.
Proof.
  intros Hv. unfold clamp, Rmin, Rmax.
  destruct (Rle_dec v 0); destruct (Rle_dec _ 1); lra.
Qed.

(** One LSQ step lands on a level [k * step] with [0 <= k <= n_lv]. *)
Lemma lsq_level (q : Quantizer) (n : Z) (v : R) :
  quant_n_lv q = IZR n -> (3 <= n)%Z ->
  exists k : Z,
    (0 <= k <= n)%Z /\
    round (clamp (v / quant_alpha q) 0 1 * quant_n_lv q) = IZR k.
Proof.
  intros Hn Hn3. rewrite Hn.
  exists (round_half_even (clamp (v / quant_alpha q) 0 1 * IZR n)).
  split; [ | reflexivity].
  apply round_half_even_between.
  pose proof (clamp_unit (v / quant_alpha q)) as [Hlo Hhi].
  assert (Hpos : 0 < IZR n) by (apply IZR_lt; lia).
  split; nra.
Qed.

(** A level is a fixed point of the LSQ step. *)
Lemma lsq_fixed (q : Quantizer) (n k : Z) (o : R) :
  quant_n_lv q = IZR n -> (3 <= n)%Z -> (0 <= k <= n)%Z ->
  round (clamp ((IZR k * quant_step q - o + o) / quant_alpha q) 0 1
         * quant_n_lv q)
  = IZR k.
Proof.
  intros Hn Hn3 [Hk0 Hkn].
  pose proof (quant_alpha_pos q) as Ha.
  assert (Hpos : 0 < IZR n) by (apply IZR_lt; lia).
  apply IZR_le in Hk0, Hkn.
  assert (Hq : (IZR k * quant_step q - o + o) / quant_alpha q = IZR k / IZR n).
  { unfold quant_step. rewrite Hn. field. lra. }
  rewrite Hq, Hn, clamp_inside.
  - replace (IZR k / IZR n * IZR n) with (IZR k) by (field; lra).
    apply round_of_Z.
  - split.
    + apply Rmult_le_pos; [lra | ]. apply Rlt_le, Rinv_0_lt_compat, Hpos.
    + apply Rmult_le_reg_r with (IZR n); [exact Hpos | ].
      unfold Rdiv. rewrite Rmult_assoc, Rinv_l by lra. lra.
Qed.

Lemma quant_offset_device (q : Quantizer) (x y : Tensor) :
  device y = device x -> quant_offset q y = quant_offset q x.
Proof.
  intros Hd. unfold quant_offset, is_cuda. now rewrite Hd.
Qed.

(** Every quantizer that the constructor builds has a usable offset. *)
Lemma Quantizer_init_offset_usable (sy : bool) (act_func : option string)
    (q : Quantizer) (x : Tensor) :
  Quantizer_init sy act_func = ok q -> exists off, quant_offset q x = ok off.
Proof.
  destruct sy.
  - unfold Quantizer_init. cbn [negb rbind ok].
    intros H. injection H as <-. unfold quant_offset. cbn [symm rbind ok]. eauto.
  - destruct act_func as [tag | ]; [ | discriminate].
    rewrite Quantizer_init_tagged. cbv zeta.
    destruct (if str_in "relu" (lower tag) then _ else _) as [e | o];
      cbn [rbind]; [discriminate | ].
    destruct (float_rejects_last (lower tag)); [discriminate | ].
    intros H. injection H as <-. unfold quant_offset.
    cbn [symm offset rbind ok]. eauto.
Qed.

Lemma exp_64_upper : exp 64 <= 3 ^ 64.
Proof.
  replace (exp 64) with (exp 1 ^ 64).
  - apply pow_incr. split; [apply Rlt_le, exp_pos | apply exp_le_3].
  - rewrite <- Rpower_pow by apply exp_pos.
    unfold Rpower. rewrite ln_exp. f_equal. simpl. lra.
Qed.

(** [ln (1 + u)] is at least [u / 2] on the unit interval. *)
Lemma ln_1_plus_lower (u : R) : 0 <= u <= 1 -> u / 2 <= ln (1 + u).
Proof.
  intros Hu. rewrite <- (ln_exp (u / 2)).
  assert (He : exp (u / 2) <= 1 + u).
  { pose proof (exp_ineq1_le (- (u / 2))) as Hn.
    pose proof (exp_pos (u / 2)) as Hp.
    assert (Hinv : exp (u / 2) * exp (- (u / 2)) = 1)
      by (rewrite <- exp_plus, Rplus_opp_r; apply exp_0).
    nra. }
  destruct He as [He | He]; [ | rewrite He; lra].
  apply Rlt_le, ln_increasing; [apply exp_pos | exact He].
Qed.

Lemma softplus_normal (l : R) :
  -64 <= l <= 64 -> / (2 * 3 ^ 64) <= softplus l <= 64.
Proof.
  intros [Hlo Hhi]. unfold softplus.
  assert (Hsmall : / (2 * 3 ^ 64) <= 20).
  { apply Rle_trans with 1; [ | lra].
    rewrite <- Rinv_1. apply Rinv_le_contravar; [lra | ].
    assert (1 <= 3 ^ 64) by (apply pow_R1_Rle; lra). lra. }
  destruct (Rlt_dec 20 l) as [H20 | H20]; [lra | ].
  split.
  - assert (Hexp : / 3 ^ 64 <= exp l).
    { apply Rle_trans with (exp (-64)).
      - replace (exp (-64)) with (exp (Ropp 64)) by (f_equal; lra).
        rewrite exp_Ropp. apply Rinv_le_contravar; [apply exp_pos | ].
        apply exp_64_upper.
      - destruct Hlo as [Hlo | <-]; [ | lra].
        now apply Rlt_le, exp_increasing. }
    assert (Hpos : 0 < / 3 ^ 64).
    { apply Rinv_0_lt_compat, pow_lt. lra. }
    assert (Hu : / 3 ^ 64 <= 1).
    { rewrite <- Rinv_1. apply Rinv_le_contravar; [lra | ].
      apply pow_R1_Rle. lra. }
    apply Rle_trans with (ln (1 + / 3 ^ 64)).
    + pose proof (ln_1_plus_lower (/ 3 ^ 64) ltac:(lra)) as Hl.
      rewrite Rinv_mult. lra.
    + destruct Hexp as [Hexp | <-]; [ | lra].
      apply Rlt_le, ln_increasing; lra.
  - apply Rle_trans with (ln (exp 21)); [ | rewrite ln_exp; lra].
    assert (He : 1 + exp l < exp 21).
    { assert (exp l <= exp 20).
      { destruct (Rle_lt_or_eq_dec l 20 ltac:(lra)) as [Hl | ->]; [ | lra].
        now apply Rlt_le, exp_increasing. }
      replace 21 with (20 + 1) by lra. rewrite exp_plus.
      pose proof (exp_ineq1 1 ltac:(lra)).
      pose proof (exp_ineq1 20 ltac:(lra)). nra. }
    apply Rlt_le, ln_increasing; [ | exact He].
    pose proof (exp_pos l). lra.
Qed.

Lemma normal_margin : 2 * 3 ^ 64 * 255 <= 2 ^ 126.
Proof.
  rewrite (pow_IZR 3 64), (pow_IZR 2 126), <- !mult_IZR.
  apply IZR_le. apply Z.leb_le. vm_compute. reflexivity.
Qed.

Lemma symm_factor_range (b : Z) :
  (2 <= b)%Z -> 1 <= 2 - Rpower 2 (- IZR b + 1) < 2.
Proof.
  intros Hb. apply IZR_le in Hb.
  assert (Hlt : Rpower 2 (- IZR b + 1) < Rpower 2 0)
    by (apply Rpower_lt; lra).
  rewrite Rpower_O in Hlt by lra.
  assert (Hpos : 0 < Rpower 2 (- IZR b + 1)) by (unfold Rpower; apply exp_pos).
  lra.
Qed.

(** A scale logit between -64 and 64 keeps the scale and the step in the
    normal range of binary32. *)
Lemma normal_scale_range (q : Quantizer) :
  -64 <= data (_alpha q) <= 64 ->
  / (2 * 3 ^ 64) <= alpha q <= 64 /\
  alpha q <= quant_alpha q <= 128 /\
  / 2 ^ 126 <= quant_step q.
Proof.
  intros Hn. pose proof (softplus_normal _ Hn) as Ha. fold (alpha q) in Ha.
  assert (Hp : 0 < / (2 * 3 ^ 64)).
  { apply Rinv_0_lt_compat. assert (0 < 3 ^ 64) by (apply pow_lt; lra). lra. }
  assert (Hqa : alpha q <= quant_alpha q <= 128).
  { unfold quant_alpha. cbv zeta. destruct (symm q); [ | lra].
    destruct (hard_quant_bitwidth q) as (b & Hb & ->).
    pose proof (symm_factor_range b ltac:(lia)). nra. }
  split; [exact Ha | ]. split; [exact Hqa | ].
  destruct (hard_quant_bitwidth q) as (b & Hb & Hq).
  assert (Hlv : quant_n_lv q = IZR (2 ^ b - 1)).
  { unfold quant_n_lv. rewrite Hq, Rpower_2_Z by lia. now rewrite minus_IZR. }
  assert (H3 : 3 <= quant_n_lv q <= 255).
  { rewrite Hlv.
    assert (2 ^ 2 <= 2 ^ b)%Z by (apply Z.pow_le_mono_r; lia).
    assert (2 ^ b <= 2 ^ 8)%Z by (apply Z.pow_le_mono_r; lia).
    split; apply IZR_le; lia. }
  unfold quant_step. cbv zeta.
  apply Rle_trans with (/ (2 * 3 ^ 64) * / 255).
  - rewrite <- Rinv_mult. apply Rinv_le_contravar; [ | apply normal_margin].
    assert (0 < 3 ^ 64) by (apply pow_lt; lra). lra.
  - assert (Hi : / 255 <= / quant_n_lv q)
      by (apply Rinv_le_contravar; lra).
    assert (0 < / 255) by (apply Rinv_0_lt_compat; lra).
    nra.
Qed.

Lemma normal_scale_of_logit (q : Quantizer) :
  -64 <= data (_alpha q) <= 64 -> normal_scale q.
Proof.
  intros Hl. destruct (normal_scale_range q Hl) as (_ & [_ Hqa] & Hs).
  split; [exact Hs | ].
  apply Rle_trans with 128; [exact Hqa | ].
  replace 128 with (2 ^ 7) by lra. apply Rle_pow; [lra | lia].
Qed.

(** C3, as the code has it: on a quantizer whose scale and step are normal
    binary32 numbers, the deterministic policy applied to its own output
    returns that output. *)
Theorem lsq_idempotent (rs : RandomSource) (q : Quantizer) (x off : Tensor)
    (s : rng rs) :
  normal_scale q ->
  quant_offset q x = ok off ->
  exists y z,
    _quant q x false s = (ok y, s) /\
    _quant q y false s = (ok z, s) /\
    (forall i, elem z i = elem y i) /\
    shape z = shape y /\ device z = device y.
Proof.
  intros _ Hoff.
  set (y := tzip Rminus (quant_lsq q (tzip Rplus x off)) off).
  assert (Hoff' : quant_offset q y = ok off)
    by (rewrite (quant_offset_device q x y); [exact Hoff | reflexivity]).
  exists y, (tzip Rminus (quant_lsq q (tzip Rplus y off)) off).
  split; [now apply quant_deterministic | ].
  split; [now apply quant_deterministic | ].
  split; [ | split; reflexivity].
  intros i. destruct (quant_n_lv_Z q) as (n & Hn3 & Hn).
  destruct (lsq_level q n (elem x i + elem off i) Hn Hn3) as (k & Hk & Hr).
  assert (Hy : elem y i = IZR k * quant_step q - elem off i).
  { subst y. cbn [tzip elem]. rewrite quant_lsq_elem. cbn [tzip elem].
    now rewrite Hr. }
  cbn [tzip elem]. rewrite quant_lsq_elem. cbn [tzip elem].
  rewrite Hy, (lsq_fixed q n k (elem off i) Hn Hn3 Hk). reflexivity.
Qed.

Lemma lsq_idempotent_witness :
  exists y z,
    _quant relu_quantizer (scalar Cpu 0) false
      (mkRng (rs := counter_source) 0%Z 0%Z)
    = (ok y, mkRng (rs := counter_source) 0%Z 0%Z) /\
    _quant relu_quantizer y false (mkRng (rs := counter_source) 0%Z 0%Z)
    = (ok z, mkRng (rs := counter_source) 0%Z 0%Z) /\
    (forall i, elem z i = elem y i) /\
    shape z = shape y /\ device z = device y.
Proof.
  apply (lsq_idempotent counter_source relu_quantizer (scalar Cpu 0)
           (cpu (scalar Cuda 0)) (mkRng (rs := counter_source) 0%Z 0%Z));
    [ | reflexivity].
  apply normal_scale_of_logit. cbn [relu_quantizer _alpha data]. lra.
Defined.

(** ** The deterministic policy in binary32, at a scale that underflows *)

Lemma ln_2_pos : 0 < ln 2.
Proof. rewrite <- ln_1. apply ln_increasing; lra. Qed.

Lemma powerRZ_2_exp (z : Z) : powerRZ 2 z = exp (IZR z * ln 2).
Proof. rewrite powerRZ_Rpower by lra. reflexivity. Qed.

Lemma powerRZ_2_lt (a b : Z) : (a < b)%Z -> powerRZ 2 a < powerRZ 2 b.
Proof.
  intros H. rewrite !powerRZ_2_exp. apply exp_increasing.
  apply IZR_lt in H. pose proof ln_2_pos. nra.
Qed.

Lemma powerRZ_2_le (a b : Z) : (a <= b)%Z -> powerRZ 2 a <= powerRZ 2 b.
Proof.
  intros H. destruct (Z.eq_dec a b) as [-> | Hne]; [lra | ].
  apply Rlt_le, powerRZ_2_lt. lia.
Qed.

Lemma powerRZ_2_Z (z : Z) : (0 <= z)%Z -> powerRZ 2 z = IZR (2 ^ z).
Proof.
  intros H. rewrite powerRZ_Rpower by lra. now apply Rpower_2_Z.
Qed.

(** The binary exponent of a real between two powers of two. *)
Lemma mag_unique (r : R) (k : Z) :
  powerRZ 2 k <= Rabs r < powerRZ 2 (k + 1) ->
  Int_part (ln (Rabs r) / ln 2) = k.
Proof.
  intros [Hlo Hhi]. pose proof ln_2_pos as H2.
  pose proof (powerRZ_lt 2 k ltac:(lra)) as Hk.
  assert (Hl : IZR k * ln 2 <= ln (Rabs r)).
  { rewrite <- (ln_exp (IZR k * ln 2)), <- powerRZ_2_exp.
    destruct Hlo as [Hlo | <-]; [ | lra].
    apply Rlt_le, ln_increasing; assumption. }
  assert (Hu : ln (Rabs r) < (IZR k + 1) * ln 2).
  { rewrite <- (ln_exp ((IZR k + 1) * ln 2)), <- plus_IZR, <- powerRZ_2_exp.
    apply ln_increasing; lra. }
  set (x := ln (Rabs r) / ln 2) in *.
  assert (Hx : IZR k <= x < IZR k + 1).
  { unfold x. split.
    - apply Rmult_le_reg_r with (ln 2); [lra | ].
      unfold Rdiv. rewrite Rmult_assoc, Rinv_l by lra. lra.
    - apply Rmult_lt_reg_r with (ln 2); [lra | ].
      unfold Rdiv. rewrite Rmult_assoc, Rinv_l by lra. lra. }
  pose proof (Int_part_bounds x) as [Hi1 Hi2].
  assert (Int_part x < k + 1)%Z by (apply lt_IZR; rewrite plus_IZR; lra).
  assert (k < Int_part x + 1)%Z by (apply lt_IZR; rewrite plus_IZR; lra).
  lia.
Qed.

Lemma rnd_0 : F32.rnd 0 = F32.Finite 0.
Proof.
  unfold F32.rnd. generalize (F32.ulp_exp 0). intros e. cbv zeta.
  rewrite Rmult_0_l. change 0 with (IZR 0) at 1 2.
  rewrite round_half_even_of_Z. rewrite Rmult_0_l, Rabs_R0.
  destruct (Rle_dec (powerRZ 2 128) 0) as [H | _]; [ | reflexivity].
  pose proof (powerRZ_lt 2 128 ltac:(lra)). lra.
Qed.

(** A number with a 24-bit significand and an exponent in range is its own
    rounding. *)
Lemma rnd_exact (r : R) (m e : Z) :
  r = IZR m * powerRZ 2 e ->
  (2 ^ 23 <= Z.abs m < 2 ^ 24)%Z -> (-149 <= e <= 104)%Z ->
  F32.rnd r = F32.Finite r.
Proof.
  intros Hr Hm He.
  assert (Habs : Rabs r = IZR (Z.abs m) * powerRZ 2 e).
  { rewrite Hr, Rabs_mult, <- abs_IZR.
    rewrite (Rabs_right (powerRZ 2 e)); [reflexivity | ].
    apply Rle_ge, powerRZ_le. lra. }
  pose proof (powerRZ_lt 2 e ltac:(lra)) as Hpe.
  assert (Hmag : powerRZ 2 (e + 23) <= Rabs r < powerRZ 2 (e + 23 + 1)).
  { rewrite Habs. destruct Hm as [Hm1 Hm2]. apply IZR_le in Hm1. apply IZR_lt in Hm2.
    replace (e + 23 + 1)%Z with (e + 24)%Z by lia.
    rewrite !powerRZ_add by lra.
    rewrite (powerRZ_2_Z 23), (powerRZ_2_Z 24) by lia.
    split; nra. }
  unfold F32.rnd, F32.ulp_exp. rewrite (mag_unique r (e + 23) Hmag).
  replace (Z.max (e + 23 - 23) (-149)) with e by lia. cbv zeta.
  assert (Hx : r * powerRZ 2 (- e) = IZR m).
  { rewrite Hr, Rmult_assoc, <- powerRZ_add by lra.
    replace (e + - e)%Z with 0%Z by lia. cbn [powerRZ]. ring. }
  rewrite Hx, round_half_even_of_Z, <- Hr.
  destruct (Rle_dec (powerRZ 2 128) (Rabs r)) as [H | _]; [ | reflexivity].
  exfalso. destruct Hmag as [_ Hhi].
  pose proof (powerRZ_2_le (e + 23 + 1) 128 ltac:(lia)). lra.
Qed.

(** Below half of the smallest subnormal number everything rounds to zero. *)
Lemma rnd_underflow (r : R) :
  Rabs r < powerRZ 2 (-150) -> F32.rnd r = F32.Finite 0.
Proof.
  intros Hr. destruct (Req_dec r 0) as [-> | Hne]; [apply rnd_0 | ].
  pose proof ln_2_pos as H2.
  assert (Hpos : 0 < Rabs r) by now apply Rabs_pos_lt.
  assert (He : F32.ulp_exp r = (-149)%Z).
  { unfold F32.ulp_exp. set (x := ln (Rabs r) / ln 2).
    assert (Hx : x < -150).
    { unfold x. apply Rmult_lt_reg_r with (ln 2); [lra | ].
      unfold Rdiv. rewrite Rmult_assoc, Rinv_l by lra. rewrite Rmult_1_r.
      rewrite <- (ln_exp (-150 * ln 2)), <- powerRZ_2_exp.
      now apply ln_increasing. }
    pose proof (Int_part_bounds x) as [Hi _].
    assert (Int_part x < -150)%Z by (apply lt_IZR; lra).
    lia. }
  unfold F32.rnd. rewrite He. cbv zeta.
  assert (Hs : round_half_even (r * powerRZ 2 (- -149)) = 0%Z).
  { apply round_half_even_near.
    assert (Hm : Rabs (r * powerRZ 2 149) < 1 / 2).
    { rewrite Rabs_mult, (Rabs_right (powerRZ 2 149))
        by (apply Rle_ge, powerRZ_le; lra).
      pose proof (powerRZ_lt 2 149 ltac:(lra)) as H149.
      apply Rlt_le_trans with (powerRZ 2 (-150) * powerRZ 2 149).
      - apply Rmult_lt_compat_r; assumption.
      - rewrite <- powerRZ_add by lra.
        change (-150 + 149)%Z with (-1)%Z. cbv [powerRZ Pos.to_nat Pos.iter_op pow].
        lra. }
    change (- -149)%Z with 149%Z.
    apply Rabs_def2 in Hm. lra. }
  rewrite Hs, Rmult_0_l, Rabs_R0.
  destruct (Rle_dec (powerRZ 2 128) 0) as [H | _]; [ | reflexivity].
  pose proof (powerRZ_lt 2 128 ltac:(lra)). lra.
Qed.

(** A number of magnitude at most one rounds to a finite number. *)
Lemma rnd_finite (r : R) :
  Rabs r <= 1 -> exists v, F32.rnd r = F32.Finite v.
Proof.
  intros Hr. pose proof ln_2_pos as H2.
  assert (He : (-149 <= F32.ulp_exp r <= 0)%Z).
  { unfold F32.ulp_exp. set (x := ln (Rabs r) / ln 2).
    assert (Hx : x <= 0).
    { assert (Hl : ln (Rabs r) <= 0).
      { destruct (Rle_lt_dec (Rabs r) 0) as [H0 | H0].
        - unfold ln. destruct (Rlt_dec 0 (Rabs r)); [exfalso; lra | lra].
        - rewrite <- ln_1. destruct Hr as [Hr | ->]; [ | lra].
          now apply Rlt_le, ln_increasing. }
      unfold x. apply Rmult_le_reg_r with (ln 2); [lra | ].
      unfold Rdiv. rewrite Rmult_assoc, Rinv_l by lra. lra. }
    pose proof (Int_part_bounds x) as [Hi _].
    assert (Int_part x < 1)%Z by (apply lt_IZR; lra).
    lia. }
  unfold F32.rnd. set (e := F32.ulp_exp r) in *. cbv zeta.
  set (m := round_half_even (r * powerRZ 2 (- e))).
  assert (Hp : powerRZ 2 (- e) = IZR (2 ^ (- e))) by (apply powerRZ_2_Z; lia).
  assert (Hpe : 0 < powerRZ 2 (- e)) by (apply powerRZ_lt; lra).
  assert (Hm : (- 2 ^ (- e) <= m <= 2 ^ (- e))%Z).
  { apply round_half_even_between. rewrite opp_IZR, <- Hp.
    unfold Rabs in Hr. destruct (Rcase_abs r); split; nra. }
  assert (Hy : Rabs (IZR m * powerRZ 2 e) <= 1).
  { assert (Hinv : powerRZ 2 (- e) * powerRZ 2 e = 1).
    { rewrite <- powerRZ_add by lra. replace (- e + e)%Z with 0%Z by lia.
      reflexivity. }
    pose proof (powerRZ_lt 2 e ltac:(lra)) as Hpe'.
    destruct Hm as [Hm1 Hm2]. apply IZR_le in Hm1, Hm2.
    rewrite opp_IZR, <- Hp in Hm1. rewrite <- Hp in Hm2.
    apply Rabs_le. split; nra. }
  destruct (Rle_dec (powerRZ 2 128) (Rabs (IZR m * powerRZ 2 e))) as [H | _];
    [ | eauto].
  exfalso. pose proof (powerRZ_2_lt 0 128 ltac:(lia)) as H128.
  rewrite powerRZ_O in H128. lra.
Qed.

Lemma exp_underflow : Rabs (exp (-200)) < powerRZ 2 (-150).
Proof.
  rewrite Rabs_right by (apply Rle_ge, Rlt_le, exp_pos).
  rewrite powerRZ_2_exp. apply exp_increasing.
  assert (Hl : ln 2 < 1).
  { rewrite <- (ln_exp 1). apply ln_increasing; [lra | ].
    pose proof (exp_ineq1 1 ltac:(lra)). lra. }
  lra.
Qed.

Ltac rnd_dyadic r m e :=
  rewrite (rnd_exact r m e);
  [ | cbv [powerRZ Pos.to_nat Pos.iter_op Nat.add pow]; lra | lia | lia].

Lemma alpha_underflow : F32.alpha underflow_quantizer = F32.Finite 0.
Proof.
  unfold F32.alpha, underflow_quantizer. cbn [_alpha data].
  rnd_dyadic (-200) (-13107200)%Z (-16)%Z.
  unfold F32.softplus. destruct (Rlt_dec 20 (-200)) as [H | _]; [lra | ].
  unfold F32.exp. rewrite (rnd_underflow _ exp_underflow).
  unfold F32.log1p. destruct (Rlt_dec (-1) 0) as [_ | H]; [ | lra].
  rewrite Rplus_0_r, ln_1. apply rnd_0.
Qed.

Lemma sigmoid_zero : F32.sigmoid (F32.Finite 0) = F32.Finite (1 / 2).
Proof.
  unfold F32.sigmoid, F32.neg, F32.exp. rewrite Ropp_0, exp_0.
  rnd_dyadic 1 8388608%Z (-23)%Z.
  unfold F32.add. rnd_dyadic (1 + 1) 8388608%Z (-22)%Z.
  unfold F32.div. destruct (Req_dec_T (1 + 1) 0) as [H | _]; [lra | ].
  replace (1 / (1 + 1)) with (1 / 2) by lra.
  rnd_dyadic (1 / 2) 8388608%Z (-24)%Z. reflexivity.
Qed.

Lemma bitwidth_underflow_quantizer :
  F32.hard_quant (F32.bitwidth underflow_quantizer) = F32.Finite 5.
Proof.
  unfold F32.bitwidth, underflow_quantizer. cbn [_bitwidth requires_grad data].
  rewrite rnd_0. unfold F32._logit2bit. cbv zeta. rewrite sigmoid_zero.
  unfold F32.mul. replace (1 / 2 * 6.5) with 3.25 by lra.
  rnd_dyadic 3.25 13631488%Z (-22)%Z.
  unfold F32.add. replace (2.0 + 3.25) with 5.25 by lra.
  rnd_dyadic 5.25 11010048%Z (-21)%Z.
  unfold F32.hard_quant, F32.round. cbv zeta.
  rewrite (round_half_even_near 5.25 5) by lra.
  unfold F32.sub, F32.neg, F32.add.
  replace (5 + Ropp 5.25) with (Ropp (1 / 4)) by lra.
  rnd_dyadic (Ropp (1 / 4)) (-8388608)%Z (-25)%Z.
  replace (Ropp (1 / 4) + 5.25) with 5 by lra.
  rnd_dyadic 5 10485760%Z (-21)%Z. reflexivity.
Qed.

Lemma rnd_31 : F32.rnd 31 = F32.Finite 31.
Proof. rnd_dyadic 31 16252928%Z (-19)%Z. reflexivity. Qed.

Lemma hard_quant_31 : F32.hard_quant (F32.Finite 31) = F32.Finite 31.
Proof.
  unfold F32.hard_quant, F32.round. cbv zeta.
  rewrite round_half_even_of_Z.
  unfold F32.sub, F32.neg, F32.add.
  replace (31 + Ropp 31) with 0 by lra. rewrite rnd_0.
  replace (0 + 31) with 31 by lra. apply rnd_31.
Qed.

Lemma step_underflow :
  F32.sub (F32.pow2 (F32.Finite 5)) (F32.Finite 1) = F32.Finite 31 /\
  F32.mul (F32.Finite 0) (F32.reciprocal (F32.Finite 31)) = F32.Finite 0.
Proof.
  split.
  - unfold F32.pow2. change 5 with (IZR 5). rewrite Rpower_2_Z by lia.
    change (IZR (2 ^ 5)) with 32. rnd_dyadic 32 8388608%Z (-18)%Z.
    unfold F32.sub, F32.neg, F32.add.
    replace (32 + Ropp 1) with 31 by lra. apply rnd_31.
  - unfold F32.reciprocal, F32.div.
    destruct (Req_dec_T 31 0) as [H | _]; [lra | ].
    destruct (rnd_finite (1 / 31)) as (v & ->).
    { rewrite Rabs_right; lra. }
    unfold F32.mul. rewrite Rmult_0_l. apply rnd_0.
Qed.

(** With the scale at zero the step is zero: an input of 1 comes out as 0,
    and an input of 0 as NaN. *)
Lemma quant_underflow :
  F32._quant underflow_quantizer (F32.Finite 0) (F32.Finite 1) = F32.Finite 0 /\
  F32._quant underflow_quantizer (F32.Finite 0) (F32.Finite 0) = F32.NaN.
Proof.
  destruct step_underflow as [Hn Hs].
  unfold F32._quant. cbv zeta.
  rewrite bitwidth_underflow_quantizer, alpha_underflow.
  cbn [symm underflow_quantizer]. rewrite Hn, Hs. split.
  - unfold F32.add at 1. rewrite Rplus_0_r.
    rnd_dyadic 1 8388608%Z (-23)%Z.
    unfold F32.div. destruct (Req_dec_T 0 0) as [_ | H]; [ | congruence].
    destruct (Req_dec_T 1 0) as [H | _]; [lra | ].
    unfold Rltb. destruct (Rlt_dec 1 0) as [H | _]; [lra | ].
    cbn [F32.clamp]. unfold F32.mul at 2. rewrite Rmult_1_l, rnd_31.
    rewrite hard_quant_31. unfold F32.mul. rewrite Rmult_0_r, rnd_0.
    unfold F32.sub, F32.neg, F32.add. rewrite Ropp_0, Rplus_0_r. apply rnd_0.
  - unfold F32.add at 1. rewrite Rplus_0_r, rnd_0.
    unfold F32.div. destruct (Req_dec_T 0 0) as [_ | H]; [ | congruence].
    reflexivity.
Qed.

(** C3, as stated, fails on the code: at the scale logit -200 [F.softplus]
    underflows to zero, the first pass sends the input 1 to 0 and the
    second pass sends that 0 to NaN. *)
Theorem lsq_not_idempotent_at_zero_scale :
  F32.alpha underflow_quantizer = F32.Finite 0 /\
  exists y,
    F32._quant underflow_quantizer (F32.Finite 0) (F32.Finite 1) = y /\
    F32._quant underflow_quantizer (F32.Finite 0) y = F32.NaN /\
    F32._quant underflow_quantizer (F32.Finite 0) y <> y.
Proof.
  destruct quant_underflow as [H1 H0].
  split; [exact alpha_underflow | ].
  exists (F32.Finite 0). split; [exact H1 | ].
  split; [exact H0 | ]. rewrite H0. discriminate.
Qed.

(** ** Calibration: the group search *)

Lemma Rltb_true (a b : R) : a < b -> Rltb a b = true.
Proof.
  intros H. unfold Rltb. destruct (Rlt_dec a b); [reflexivity | contradiction].
Qed.

Lemma Rltb_false (a b : R) : ~ a < b -> Rltb a b = false.
Proof.
  intros H. unfold Rltb. destruct (Rlt_dec a b); [contradiction | reflexivity].
Qed.

(** Evaluation of comparisons, minima and absolute values of constants. *)
Ltac Reval :=
  repeat match goal with
  | |- context [Rmin ?a ?b] =>
      first [rewrite (Rmin_left a b) by lra | rewrite (Rmin_right a b) by lra]
  | |- context [Rabs ?a] =>
      first [rewrite (Rabs_right a) by lra | rewrite (Rabs_left a) by lra]
  | |- context [Rltb ?a ?b] =>
      first [rewrite (Rltb_true a b) by lra | rewrite (Rltb_false a b) by lra]
  end.

Ltac group_err_steps :=
  cbn [group_err_loop Nat.mul Nat.add Nat.eqb Nat.sub slice slice_assign firstn
       skipn tensor_min fold_left rbind ok raise app map].

(** [optimal_i] returns a candidate in [0..4] that is nearest to the
    target, and the first of the nearest ones. *)
Lemma optimal_i_nearest (target unit : R) (i : Z) :
  optimal_i target unit = ok i ->
  In i [0; 1; 2; 3; 4]%Z /\
  Rabs (target - unit * IZR i) < 100 /\
  (forall j, In j [0; 1; 2; 3; 4]%Z ->
     Rabs (target - unit * IZR i) <= Rabs (target - unit * IZR j)) /\
  (forall j, In j [0; 1; 2; 3; 4]%Z -> (j < i)%Z ->
     Rabs (target - unit * IZR i) < Rabs (target - unit * IZR j)).
Proof.
  unfold optimal_i. cbn [fold_left]. unfold Rltb.
  repeat match goal with
         | |- context [Rlt_dec ?a ?b] => destruct (Rlt_dec a b); cbv beta iota
         end;
    cbn [Z.eqb Pos.eqb]; intros H; try discriminate H;
    injection H as <-;
    (split; [simpl; tauto | ]); (split; [lra | ]);
    (split; intros j Hj; simpl in Hj;
     repeat (destruct Hj as [<- | Hj]; [try lra; try lia | ]);
     try contradiction).
Qed.

Section GroupSearch.

Variable c_min : list R.
Variable off : R.
(** The mean absolute error of every group count. *)
Variable err : nat -> R.

Lemma best_group_loop_spec (gs : list nat) :
  forall (m0 : R) (g0 : nat),
    (forall g, In g gs -> exists o, group_err c_min (- off) g = ok (err g, o)) ->
    exists m g,
      best_group_loop c_min off gs m0 g0 = ok (m, g) /\
      ((m = m0 /\ g = g0 /\ forall g', In g' gs -> m0 <= err g') \/
       (exists l1 l2,
          gs = l1 ++ g :: l2 /\ m = err g /\ m < m0 /\
          (forall g', In g' l1 -> m < err g') /\
          (forall g', In g' l2 -> m <= err g'))).
Proof.
  induction gs as [ | a gs' IH]; intros m0 g0 Hall.
  - exists m0, g0. split; [reflexivity | ]. left. repeat split.
    intros g' [].
  - destruct (Hall a (or_introl eq_refl)) as [o Ho].
    assert (Hall' : forall g, In g gs' ->
              exists o, group_err c_min (- off) g = ok (err g, o))
      by (intros g Hg; apply Hall; now right).
    cbn [best_group_loop]. rewrite Ho. cbn [rbind ok]. unfold Rltb.
    destruct (Rlt_dec (err a) m0) as [Hlt | Hge].
    + destruct (IH (err a) a Hall')
        as (m & g & Hloop & [(Hm & Hg & Hmin) | (l1 & l2 & Hgs & Hm & Hm0 & H1 & H2)]).
      * exists m, g. split; [exact Hloop | ]. right.
        exists [], gs'. subst m g. repeat split; auto.
        intros g' [].
      * exists m, g. split; [exact Hloop | ]. right.
        exists (a :: l1), l2. subst gs'. repeat split; auto; try lra.
        intros g' [<- | Hg']; [lra | auto].
    + destruct (IH m0 g0 Hall')
        as (m & g & Hloop & [(Hm & Hg & Hmin) | (l1 & l2 & Hgs & Hm & Hm0 & H1 & H2)]).
      * exists m, g. split; [exact Hloop | ]. left. repeat split; auto.
        intros g' [<- | Hg']; [lra | auto].
      * exists m, g. split; [exact Hloop | ]. right.
        exists (a :: l1), l2. subst gs'. repeat split; auto.
        intros g' [<- | Hg']; [lra | auto].
Qed.

End GroupSearch.

Lemma ascending_prefix (l1 l2 : list nat) (g g' : nat) :
  [1; 2; 3; 4]%nat = l1 ++ g :: l2 ->
  In g' [1; 2; 3; 4]%nat -> (g' < g)%nat -> In g' l1.
Proof.
  intros Hgs Hg' Hlt.
  destruct l1 as [ | a [ | b [ | c [ | d l1]]]]; simpl in Hgs;
    injection Hgs as; subst; simpl in Hg' |- *;
    try (destruct l1; discriminate);
    intuition lia.
Qed.

(** C9, as the code has it: when the four group evaluations complete and
    one of them has a mean absolute error below the initial bound [100],
    the search returns the group count of least error, and the smallest
    such count. *)
Theorem best_group_minimal (c_min : list R) (off : R) (err : nat -> R) :
  (forall g, In g [1; 2; 3; 4]%nat ->
     exists o, group_err c_min (- off) g = ok (err g, o)) ->
  (exists g, In g [1; 2; 3; 4]%nat /\ err g < 100) ->
  exists g,
    best_group c_min off = ok g /\
    In g [1; 2; 3; 4]%nat /\
    (forall g', In g' [1; 2; 3; 4]%nat -> err g <= err g') /\
    (forall g', In g' [1; 2; 3; 4]%nat -> (g' < g)%nat -> err g < err g').
Proof.
  intros Hall (gb & Hgb & Hbound).
  destruct (best_group_loop_spec c_min off err [1; 2; 3; 4]%nat 100 0%nat Hall)
    as (m & g & Hloop & [(Hm & Hg & Hmin) | (l1 & l2 & Hgs & Hm & Hm0 & H1 & H2)]).
  - specialize (Hmin gb Hgb). lra.
  - exists g. unfold best_group. rewrite Hloop. cbn [rbind ok].
    split; [reflexivity | ].
    assert (Hin : forall g', In g' [1; 2; 3; 4]%nat ->
              In g' l1 \/ g' = g \/ In g' l2).
    { intros g' Hg'. rewrite Hgs in Hg'. apply in_app_or in Hg'.
      destruct Hg' as [Hg' | [Hg' | Hg']]; auto. }
    split; [ | split].
    + rewrite Hgs. apply in_or_app. right. now left.
    + intros g' Hg'. subst m.
      destruct (Hin g' Hg') as [Hl | [-> | Hl]];
        [apply Rlt_le; auto | lra | auto].
    + intros g' Hg' Hlt. subst m. apply H1.
      now apply (ascending_prefix l1 l2 g g').
Qed.

Lemma optimal_i_zero : optimal_i 0 (- 0) = ok 0%Z.
Proof.
  unfold optimal_i. cbn [fold_left]. Reval. reflexivity.
Qed.

(** With the swish-like unit [-0.25] the target [-0.6] is nearest to the
    second multiple. *)
Lemma optimal_i_example : optimal_i (-0.6) (-0.25) = ok 2%Z.
Proof.
  unfold optimal_i. cbn [fold_left]. Reval. reflexivity.
Qed.

Ltac group_err_eval :=
  unfold group_err;
  cbn [length Nat.div Nat.divmod fst seq map];
  repeat (group_err_steps; Reval; rewrite ?optimal_i_zero);
  eexists; f_equal; f_equal;
  unfold tensor_mean; cbn [fold_left length INR]; lra.

Lemma group_err_zeros (g : nat) :
  In g [1; 2; 3; 4]%nat ->
  exists o, group_err [0; 0; 0; 0] (- 0) g = ok (0, o).
Proof.
  intros [<- | [<- | [<- | [<- | []]]]]; group_err_eval.
Qed.

Lemma best_group_minimal_witness :
  exists g,
    best_group [0; 0; 0; 0] 0 = ok g /\
    In g [1; 2; 3; 4]%nat /\
    (forall g', In g' [1; 2; 3; 4]%nat -> 0 <= 0) /\
    (forall g', In g' [1; 2; 3; 4]%nat -> (g' < g)%nat -> 0 < 0).
Proof.
  apply (best_group_minimal [0; 0; 0; 0] 0 (fun _ => 0)).
  - exact group_err_zeros.
  - exists 1%nat. split; [simpl; tauto | lra].
Defined.

Lemma group_err_alternating (g : nat) :
  In g [1; 2; 3; 4]%nat ->
  exists o, group_err [0; 200; 0; 200; 0; 200; 0; 200] (- 0) g = ok (100, o).
Proof.
  intros [<- | [<- | [<- | [<- | []]]]]; group_err_eval.
Qed.

(** Where no group count beats the initial bound the search returns the
    initial 0: on eight channels with minima alternating between 0 and 200
    every group count has mean absolute error 100, and the evaluation of
    the returned count divides by zero. *)
Lemma best_group_bound_unbeaten :
  (exists o1 o2 o3 o4,
     group_err [0; 200; 0; 200; 0; 200; 0; 200] (- 0) 1 = ok (100, o1) /\
     group_err [0; 200; 0; 200; 0; 200; 0; 200] (- 0) 2 = ok (100, o2) /\
     group_err [0; 200; 0; 200; 0; 200; 0; 200] (- 0) 3 = ok (100, o3) /\
     group_err [0; 200; 0; 200; 0; 200; 0; 200] (- 0) 4 = ok (100, o4)) /\
  best_group [0; 200; 0; 200; 0; 200; 0; 200] 0 = ok 0%nat /\
  group_err [0; 200; 0; 200; 0; 200; 0; 200] (- 0) 0 = raise ZeroDivisionError.
Proof.
  split; [ | split; [ | reflexivity]].
  - destruct (group_err_alternating 1) as [o1 H1]; [simpl; tauto | ].
    destruct (group_err_alternating 2) as [o2 H2]; [simpl; tauto | ].
    destruct (group_err_alternating 3) as [o3 H3]; [simpl; tauto | ].
    destruct (group_err_alternating 4) as [o4 H4]; [simpl; tauto | ].
    exists o1, o2, o3, o4. auto.
  - destruct (best_group_loop_spec [0; 200; 0; 200; 0; 200; 0; 200] 0
                (fun _ => 100) [1; 2; 3; 4]%nat 100 0%nat group_err_alternating)
      as (m & g & Hloop & [(Hm & Hg & _) | (l1 & l2 & _ & Hm & Hm0 & _)]).
    + unfold best_group. rewrite Hloop. subst g. reflexivity.
    + lra.
Qed.

(** C9 fails where a group minimum is farther than the bound [100] from
    every candidate multiple: [optimal_i] finds no candidate and the
    calibration exits; no group count is selected. *)
Lemma best_group_exits_on_far_minimum :
  best_group [1000; 1000; 1000; 1000] 0 = raise SystemExit.
Proof.
  unfold best_group. cbn [best_group_loop].
  assert (H1 : group_err [1000; 1000; 1000; 1000] (- 0) 1 = raise SystemExit).
  { unfold group_err. cbn [length Nat.div Nat.divmod fst seq map].
    group_err_steps. Reval.
    assert (Hi : optimal_i 1000 (- 0) = raise SystemExit).
    { unfold optimal_i. cbn [fold_left]. Reval. reflexivity. }
    rewrite Hi. reflexivity. }
  rewrite H1. reflexivity.
Qed.

(** The search also stops with an exception below four channels: with one
    channel the evaluation of two groups takes the minimum of an empty
    slice. *)
Lemma best_group_one_channel : best_group [0] 0 = raise RuntimeError.
Proof.
  unfold best_group. cbn [best_group_loop].
  assert (H1 : group_err [0] (- 0) 1 = ok (0, [0 - 0 + - 0 * 0])).
  { unfold group_err. cbn [length Nat.div Nat.divmod fst seq map].
    group_err_steps. rewrite optimal_i_zero. group_err_steps. Reval.
    f_equal. f_equal. unfold tensor_mean. cbn [fold_left length INR]. lra. }
  rewrite H1. cbn [rbind ok]. Reval. reflexivity.
Qed.

(** ** The calibration pass on an example *)

Lemma best_group_zeros : best_group [0; 0; 0; 0] 0 = ok 1%nat.
Proof.
  destruct (best_group_loop_spec [0; 0; 0; 0] 0 (fun _ => 0) [1; 2; 3; 4]%nat
              100 0%nat group_err_zeros)
    as (m & g & Hloop & [(Hm & Hg & Hmin) | (l1 & l2 & Hgs & Hm & Hm0 & H1 & H2)]).
  - specialize (Hmin 1%nat (or_introl eq_refl)). lra.
  - unfold best_group. rewrite Hloop. cbn [rbind ok].
    destruct l1 as [ | a l1].
    + injection Hgs as <- _. reflexivity.
    + specialize (H1 a (or_introl eq_refl)). lra.
Qed.

Lemma group_err_zeros_one :
  group_err [0; 0; 0; 0] (- 0) 1 = ok (0, [0; 0; 0; 0]).
Proof.
  unfold group_err. cbn [length Nat.div Nat.divmod fst seq map].
  group_err_steps. Reval. rewrite optimal_i_zero. group_err_steps. Reval.
  f_equal. f_equal.
  - unfold tensor_mean. cbn [fold_left length INR]. lra.
  - repeat (f_equal; try lra).
Qed.

(** One hooked call of a convolution: the extents are recorded, the model
    is left in evaluation mode, and the scalar offset of the activation
    quantizer is replaced by a per-channel offset. *)
Lemma sample_activation_size_example :
  exists c,
    rbind (sample_activation_size calib_model (scalar Cpu 0) false)
      (fun m => ok (modules m)) = ok [M_Conv2d c] /\
    in_height c = Some 2%nat /\ in_width c = Some 2%nat /\
    out_height c = Some 2%nat /\ out_width c = Some 2%nat /\
    training (a_quant c) = false /\
    exists o, offset (a_quant c) = Some o /\ shape o = [4; 1; 1]%nat /\
              forall i, elem o i = 0.
Proof.
  unfold sample_activation_size, run_calls, run_hooks, forward_hook,
    forward_off_hook, channel_min.
  cbn -[best_group group_err Rmin]. Reval.
  rewrite best_group_zeros. cbn -[group_err Rmin].
  rewrite group_err_zeros_one. cbn.
  eexists. split; [reflexivity | ]. cbn.
  repeat (split; [reflexivity | ]).
  eexists. split; [reflexivity | ]. split; [reflexivity | ].
  intros i. cbn. destruct (rev i) as [ | a [ | b [ | c l]]]; try reflexivity.
  do 4 (destruct c as [ | c]; [lra | ]). destruct c; reflexivity.
Qed.

(** * Further properties *)

(** ** Rounding and the bit-logit mapper *)

Lemma round_half_even_error (r : R) :
  Rabs (IZR (round_half_even r) - r) <= 1 / 2.
Proof.
  unfold round_half_even.
  pose proof (Int_part_bounds r) as [Hf Hf'].
  destruct (Rlt_dec _ _) as [Hd | Hd].
  - apply Rabs_le. lra.
  - destruct (Rlt_dec _ _) as [Hd' | Hd'].
    + rewrite plus_IZR. apply Rabs_le. lra.
    + destruct (Z.even (Int_part r)); [ | rewrite plus_IZR]; apply Rabs_le; lra.
Qed.

Lemma Rabs_le_bounds (a b : R) : Rabs a <= b -> - b <= a <= b.
Proof.
  unfold Rabs. destruct (Rcase_abs a); lra.
Qed.

Lemma round_half_even_monotone (x y : R) :
  x <= y -> (round_half_even x <= round_half_even y)%Z.
Proof.
  intros Hxy.
  destruct (Z.le_gt_cases (round_half_even x) (round_half_even y)) as [H | H];
    [exact H | exfalso].
  pose proof (round_half_even_error x) as Hx.
  pose proof (round_half_even_error y) as Hy.
  apply Rabs_le_bounds in Hx, Hy.
  assert (Hz : IZR (round_half_even y) + 1 <= IZR (round_half_even x)).
  { rewrite <- plus_IZR. apply IZR_le. lia. }
  assert (Heq : x = y) by lra.
  subst y. lia.
Qed.

(** [hard_quant] returns an integer within one half of its argument, keeps
    integers, and is monotone. *)
Theorem hard_quant_nearest_integer :
  (forall x, exists n : Z,
     hard_quant x = IZR n /\ Rabs (hard_quant x - x) <= 1 / 2) /\
  (forall n : Z, hard_quant (IZR n) = IZR n) /\
  (forall x y, x <= y -> hard_quant x <= hard_quant y).
Proof.
  split; [ | split].
  - intros x. exists (round_half_even x). rewrite hard_quant_round.
    split; [reflexivity | apply round_half_even_error].
  - intros n. rewrite hard_quant_round. apply round_of_Z.
  - intros x y Hxy. rewrite !hard_quant_round. unfold round.
    apply IZR_le. now apply round_half_even_monotone.
Qed.

Lemma sigmoid_increasing (x y : R) : x < y -> sigmoid x < sigmoid y.
Proof.
  intros Hxy. unfold sigmoid.
  pose proof (exp_pos (- x)) as Hx. pose proof (exp_pos (- y)) as Hy.
  assert (He : exp (- y) < exp (- x)) by (apply exp_increasing; lra).
  unfold Rdiv. rewrite !Rmult_1_l.
  apply Rinv_lt_contravar; [apply Rmult_lt_0_compat; lra | lra].
Qed.

Lemma sigmoid_monotone (x y : R) : x <= y -> sigmoid x <= sigmoid y.
Proof.
  intros [Hxy | ->]; [ | lra]. now apply Rlt_le, sigmoid_increasing.
Qed.

(** The mapped bitwidth never decreases with the logit, and neither does
    the frozen, rounded bitwidth. *)
Theorem logit2bit_monotone (l1 l2 : R) :
  l1 <= l2 ->
  _logit2bit l1 <= _logit2bit l2 /\
  forall q1 q2,
    data (_bitwidth q1) = l1 -> data (_bitwidth q2) = l2 ->
    bitwidth (set_bitwidth_requires_grad false q1)
    <= bitwidth (set_bitwidth_requires_grad false q2).
Proof.
  intros Hl.
  assert (Hle : _logit2bit l1 <= _logit2bit l2).
  { unfold _logit2bit. pose proof (sigmoid_monotone l1 l2 Hl). lra. }
  split; [exact Hle | ].
  intros q1 q2 H1 H2. unfold bitwidth. cbn [set_bitwidth_requires_grad _bitwidth
    requires_grad data]. rewrite H1, H2. unfold round. apply IZR_le.
  now apply round_half_even_monotone.
Qed.

Lemma logit2bit_monotone_witness :
  _logit2bit 0 <= _logit2bit 1 /\
  forall q1 q2,
    data (_bitwidth q1) = 0 -> data (_bitwidth q2) = 1 ->
    bitwidth (set_bitwidth_requires_grad false q1)
    <= bitwidth (set_bitwidth_requires_grad false q2).
Proof.
  apply (logit2bit_monotone 0 1). lra.
Defined.

Lemma quant_step_pos (q : Quantizer) : 0 < quant_step q.
Proof.
  destruct (quant_n_lv_Z q) as (n & Hn3 & Hn).
  unfold quant_step. apply Rmult_lt_0_compat; [apply quant_alpha_pos | ].
  apply Rinv_0_lt_compat. rewrite Hn. apply IZR_lt. lia.
Qed.

(** With the scale logit between -64 and 64 the scale that [_quant]
    divides by and its step are positive normal binary32 numbers (the step
    is at least [2^-126], the scale at most 128), and the number of levels
    is [2^b - 1] for an integer [b] from 2 to 8: [_quant] divides by no
    zero. *)
Theorem quant_scale_normal (q : Quantizer) :
  -64 <= data (_alpha q) <= 64 ->
  normal_scale q /\
  0 < alpha q <= 64 /\
  0 < quant_alpha q <= 128 /\
  0 < / 2 ^ 126 <= quant_step q /\
  exists b : Z,
    (2 <= b <= 8)%Z /\ hard_quant (bitwidth q) = IZR b /\
    quant_n_lv q = IZR (2 ^ b - 1) /\ 3 <= quant_n_lv q.
Proof.
  intros Hn. split; [now apply normal_scale_of_logit | ].
  destruct (normal_scale_range q Hn) as (Ha & Hqa & Hs).
  pose proof (softplus_pos (data (_alpha q))) as Hp. fold (alpha q) in Hp.
  destruct (hard_quant_bitwidth q) as (b & Hb & Hq).
  assert (Hlv : quant_n_lv q = IZR (2 ^ b - 1)).
  { unfold quant_n_lv. rewrite Hq, Rpower_2_Z by lia. now rewrite minus_IZR. }
  assert (H3 : (3 <= 2 ^ b - 1)%Z).
  { assert (2 ^ 2 <= 2 ^ b)%Z by (apply Z.pow_le_mono_r; lia). lia. }
  apply IZR_le in H3 as H3'. rewrite <- Hlv in H3'.
  assert (H126 : 0 < / 2 ^ 126) by (apply Rinv_0_lt_compat, pow_lt; lra).
  split; [lra | ]. split; [lra | ]. split; [lra | ].
  exists b. auto.
Qed.

Lemma quant_scale_normal_witness :
  normal_scale relu_quantizer /\
  0 < alpha relu_quantizer <= 64 /\
  0 < quant_alpha relu_quantizer <= 128 /\
  0 < / 2 ^ 126 <= quant_step relu_quantizer /\
  exists b : Z,
    (2 <= b <= 8)%Z /\ hard_quant (bitwidth relu_quantizer) = IZR b /\
    quant_n_lv relu_quantizer = IZR (2 ^ b - 1) /\
    3 <= quant_n_lv relu_quantizer.
Proof.
  apply (quant_scale_normal relu_quantizer).
  cbn [relu_quantizer _alpha data]. lra.
Defined.

(** ** Construction, continued *)

Lemma Quantizer_init_fields (sy : bool) (act_func : option string)
    (q : Quantizer) :
  Quantizer_init sy act_func = ok q ->
  symm q = sy /\
  _bitwidth q = mkParameter 2.5 true /\
  _alpha q = mkParameter (if sy then 1 else 6) true /\
  training q = true.
Proof.
  destruct sy.
  - unfold Quantizer_init. cbn [negb rbind ok].
    intros H. injection H as <-. repeat split.
  - destruct act_func as [tag | ]; [ | discriminate].
    rewrite Quantizer_init_tagged. cbv zeta.
    destruct (if str_in "relu" (lower tag) then _ else _) as [e | o];
      cbn [rbind]; [discriminate | ].
    destruct (float_rejects_last (lower tag)); [discriminate | ].
    intros H. injection H as <-. repeat split.
Qed.

(** What the constructor stores: the bitwidth logit 2.5 and the scale logit
    1 (symmetric) or 6 (asymmetric, whatever digit ends the tag), both
    trainable, in training mode; an asymmetric quantizer without a tag
    raises [AttributeError]. *)
Theorem Quantizer_init_parameters :
  (forall sy act_func q,
     Quantizer_init sy act_func = ok q ->
     symm q = sy /\
     _bitwidth q = mkParameter 2.5 true /\
     _alpha q = mkParameter (if sy then 1 else 6) true /\
     training q = true) /\
  Quantizer_init false None = raise AttributeError.
Proof.
  split; [exact Quantizer_init_fields | reflexivity].
Qed.

Lemma Quantizer_init_parameters_witness :
  symm relu_quantizer = false /\
  _bitwidth relu_quantizer = mkParameter 2.5 true /\
  _alpha relu_quantizer = mkParameter 6 true /\
  training relu_quantizer = true.
Proof.
  apply (proj1 Quantizer_init_parameters false (Some "relu1"%string)
           relu_quantizer).
  reflexivity.
Defined.

Lemma exp_5_2_lower : 5.5 < exp 2.5.
Proof.
  replace 2.5 with (5 / 6 + (5 / 6 + 5 / 6)) by lra.
  rewrite !exp_plus.
  assert (H : 1 + 5 / 6 < exp (5 / 6)) by (apply exp_ineq1; lra).
  nra.
Qed.

Lemma logit2bit_initial : 7.5 < _logit2bit 2.5 < 8.5.
Proof.
  split; [ | apply logit2bit_range].
  unfold _logit2bit, sigmoid. rewrite exp_Ropp.
  pose proof exp_5_2_lower as He.
  assert (Hinv : / exp 2.5 < / 5.5) by (apply Rinv_lt_contravar; nra).
  assert (Hpos : 0 < / exp 2.5) by (apply Rinv_0_lt_compat; lra).
  assert (Hs : 11 / 13 < 1 / (1 + / exp 2.5)).
  { apply Rmult_lt_reg_r with (1 + / exp 2.5); [lra | ].
    unfold Rdiv at 2. rewrite Rmult_1_l, Rinv_l by lra. lra. }
  lra.
Qed.

Lemma round_logit2bit_initial : round (_logit2bit 2.5) = 8.
Proof.
  unfold round. f_equal. apply round_half_even_near.
  pose proof logit2bit_initial. lra.
Qed.

(** A freshly constructed quantizer works with 8 bits, that is 255 levels,
    and reports the bitwidth 8 once its bitwidth logit is frozen. *)
Theorem fresh_quantizer_levels (sy : bool) (act_func : option string)
    (q : Quantizer) :
  Quantizer_init sy act_func = ok q ->
  hard_quant (bitwidth q) = 8 /\
  quant_n_lv q = 255 /\
  bitwidth (set_bitwidth_requires_grad false q) = 8.
Proof.
  intros Hq.
  destruct (Quantizer_init_fields sy act_func q Hq) as (_ & Hb & _ & _).
  assert (H8 : hard_quant (bitwidth q) = 8).
  { rewrite hard_quant_round. unfold bitwidth. rewrite Hb.
    cbn [requires_grad data]. apply round_logit2bit_initial. }
  split; [exact H8 | ]. split.
  - unfold quant_n_lv. rewrite H8, (Rpower_2_Z 8) by lia.
    replace (2 ^ 8)%Z with 256%Z by reflexivity. lra.
  - unfold bitwidth. cbn [set_bitwidth_requires_grad _bitwidth requires_grad data].
    rewrite Hb. cbn [data]. apply round_logit2bit_initial.
Qed.

Lemma fresh_quantizer_levels_witness :
  hard_quant (bitwidth relu_quantizer) = 8 /\
  quant_n_lv relu_quantizer = 255 /\
  bitwidth (set_bitwidth_requires_grad false relu_quantizer) = 8.
Proof.
  apply (fresh_quantizer_levels false (Some "relu1"%string) relu_quantizer).
  reflexivity.
Defined.

(** ** The LSQ policy, element by element *)

Section LsqValue.

Variable q : Quantizer.

(** What line 201 computes from one shifted element. *)
Let lsq (v : R) : R :=
  round (clamp (v / quant_alpha q) 0 1 * quant_n_lv q) * quant_step q.

Lemma lsq_step_levels :
  exists n : Z, (3 <= n)%Z /\ quant_n_lv q = IZR n /\
                IZR n * quant_step q = quant_alpha q.
Proof.
  destruct (quant_n_lv_Z q) as (n & Hn3 & Hn). exists n.
  split; [exact Hn3 | ]. split; [exact Hn | ].
  unfold quant_step. rewrite Hn.
  assert (0 < IZR n) by (apply IZR_lt; lia). field. lra.
Qed.

Lemma lsq_on_grid (v : R) :
  exists k : Z, (0 <= IZR k <= quant_n_lv q) /\ lsq v = IZR k * quant_step q.
Proof.
  destruct (quant_n_lv_Z q) as (n & Hn3 & Hn).
  destruct (lsq_level q n v Hn Hn3) as (k & [Hk0 Hkn] & Hr).
  exists k. unfold lsq. rewrite Hr, Hn. split; [ | reflexivity].
  split; apply IZR_le; assumption.
Qed.

Lemma lsq_in_range (v : R) : 0 <= lsq v <= quant_alpha q.
Proof.
  destruct (lsq_on_grid v) as (k & [Hk0 Hkn] & ->).
  destruct lsq_step_levels as (n & _ & Hn & Hstep).
  pose proof (quant_step_pos q) as Hs.
  rewrite Hn in Hkn. split; [nra | ]. rewrite <- Hstep. nra.
Qed.

Lemma lsq_below (v : R) : v <= 0 -> lsq v = 0.
Proof.
  intros Hv. unfold lsq. pose proof (quant_alpha_pos q) as Ha.
  assert (Hc : clamp (v / quant_alpha q) 0 1 = 0).
  { assert (v / quant_alpha q <= 0).
    { assert (0 < / quant_alpha q) by (apply Rinv_0_lt_compat, Ha).
      unfold Rdiv. nra. }
    unfold clamp. rewrite Rmax_right by lra. apply Rmin_left. lra. }
  rewrite Hc, Rmult_0_l. replace 0 with (IZR 0) at 1 by reflexivity.
  rewrite round_of_Z. lra.
Qed.





End LsqValue.

(** ** Range, grid and error of [_quant] *)

Lemma quant_lsq_value {rs : RandomSource} (q : Quantizer) (x off : Tensor)
    (is_training : bool) (s : rng rs) :
  quant_offset q x = ok off ->
  (is_training && requires_grad (_bitwidth q))%bool = false ->
  exists y,
    _quant q x is_training s = (ok y, s) /\
    shape y = shape x /\ device y = device x /\
    forall i,
      elem y i =
      round (clamp ((elem x i + elem off i) / quant_alpha q) 0 1 * quant_n_lv q)
      * quant_step q - elem off i.
Proof.
  intros Hoff Hbr. rewrite (quant_deterministic q x off is_training s Hoff Hbr).
  eexists. split; [reflexivity | ]. split; [reflexivity | ].
  split; [reflexivity | ].
  intros i. cbn [tzip elem]. now rewrite quant_lsq_elem.
Qed.









Lemma quant_diffq_value {rs : RandomSource} (q : Quantizer) (x off : Tensor)
    (is_training : bool) (s : rng rs) :
  quant_offset q x = ok off ->
  (is_training && requires_grad (_bitwidth q))%bool = true ->
  exists y s',
    _quant q x is_training s = (ok y, s') /\
    shape y = shape x /\ device y = device x /\
    forall i, - elem off i <= elem y i <= quant_alpha q - elem off i.
Proof.
  intros Hoff Hbr. rewrite (quant_stochastic q x off is_training s Hoff Hbr).
  eexists. eexists. split; [reflexivity | ].
  rewrite noise_quant_forward_eq. cbn [fst snd tzip tmap shape device elem].
  split; [reflexivity | ]. split; [reflexivity | ].
  intros i. pose proof (quant_alpha_pos q) as Ha.
  match goal with
  | |- context [clamp ?v 0 1] => pose proof (clamp_unit v) as [Hlo Hhi]
  end.
  split; nra.
Qed.






Lemma quant_range_any_mode {rs : RandomSource} (q : Quantizer) (x off : Tensor)
    (is_training : bool) (s : rng rs) :
  quant_offset q x = ok off ->
  exists y s',
    _quant q x is_training s = (ok y, s') /\
    forall i, - elem off i <= elem y i <= quant_alpha q - elem off i.
Proof.
  intros Hoff.
  destruct (is_training && requires_grad (_bitwidth q))%bool eqn:Hbr.
  - destruct (quant_diffq_value q x off is_training s Hoff Hbr)
      as (y & s' & Hy & _ & _ & Hr).
    exists y, s'. split; assumption.
  - destruct (quant_lsq_value q x off is_training s Hoff Hbr)
      as (y & Hy & _ & _ & Hval).
    exists y, s. split; [exact Hy | ].
    intros i. rewrite Hval.
    pose proof (lsq_in_range q (elem x i + elem off i)) as Hr. cbv zeta in Hr.
    lra.
Qed.

(** ** [Q_Conv] *)

(** What [Q_Conv.__init__] builds: one quantizer value, used for the
    activation and for the weight. *)
Lemma Q_Conv_init_value (c1 c2 k : Z) (w : list R) :
  let frozen := ((c1 =? 3) || (c1 =? 32))%Z%bool in
  let o := if (c1 =? 3)%Z then 0 else 0.2784645427610738 in
  let q := mkQuantizer false (Some (scalar Cuda o))
             (mkParameter 2.5 (negb frozen)) (mkParameter 6 true) true in
  Q_Conv_init c1 c2 k w
  = ok (mkQ_Conv (mkQ_Conv2d c1 c2 (k, k) w q q None None None None)).
Proof.
  cbv zeta. unfold Q_Conv_init.
  destruct (c1 =? 3)%Z; [reflexivity | ].
  destruct (c1 =? 32)%Z; reflexivity.
Qed.

(** [Q_Conv] freezes both bitwidth logits exactly when its input has 3 or
    32 channels; a frozen one reports the bitwidth 8, any other the mapped
    value of the initial logit. *)
Theorem Q_Conv_frozen_bitwidth (c1 c2 k : Z) (w : list R) :
  let frozen := ((c1 =? 3) || (c1 =? 32))%Z%bool in
  exists m,
    Q_Conv_init c1 c2 k w = ok m /\
    requires_grad (_bitwidth (a_quant (conv m))) = negb frozen /\
    requires_grad (_bitwidth (w_quant (conv m))) = negb frozen /\
    bitwidth (a_quant (conv m)) = (if frozen then 8 else _logit2bit 2.5) /\
    bitwidth (w_quant (conv m)) = (if frozen then 8 else _logit2bit 2.5).
Proof.
  cbv zeta. eexists. split; [apply Q_Conv_init_value | ].
  cbn [conv a_quant w_quant _bitwidth requires_grad].
  split; [reflexivity | ]. split; [reflexivity | ].
  unfold bitwidth. cbn [_bitwidth requires_grad data].
  destruct ((c1 =? 3) || (c1 =? 32))%Z%bool; cbn [negb];
    (split; [ | ]); try reflexivity; apply round_logit2bit_initial.
Qed.

(** The weight quantizer of a [Q_Conv] is built with the activation tag, so
    it is the asymmetric quantizer of the activations: in either policy no
    quantized weight is below [-offset], which is 0 for the operator on the
    3-channel input and about -0.278 for every other one. *)
Theorem Q_Conv_weights_clipped_below (c1 c2 k : Z) (w : list R) :
  exists m,
    Q_Conv_init c1 c2 k w = ok m /\
    w_quant (conv m) = a_quant (conv m) /\
    forall (rs : RandomSource) (x : Tensor) (is_training : bool) (s : rng rs),
    exists y s',
      _quant (w_quant (conv m)) x is_training s = (ok y, s') /\
      forall i,
        - (if (c1 =? 3)%Z then 0 else 0.2784645427610738) <= elem y i /\
        (c1 = 3%Z -> elem x i <= 0 -> elem y i = 0).
Proof.
  eexists. split; [apply Q_Conv_init_value | ].
  cbn [conv a_quant w_quant]. split; [reflexivity | ].
  intros rs x is_training s.
  set (o := if (c1 =? 3)%Z then 0 else 0.2784645427610738).
  set (q := mkQuantizer false (Some (scalar Cuda o))
              (mkParameter 2.5 (negb ((c1 =? 3) || (c1 =? 32))%Z))
              (mkParameter 6 true) true).
  assert (Hoff : exists off, quant_offset q x = ok off /\
                             forall i, elem off i = o).
  { unfold quant_offset. cbn [q symm offset rbind ok]. eexists.
    split; [reflexivity | ]. intros i. destruct (negb (is_cuda x)); reflexivity. }
  destruct Hoff as (off & Hoff & Hel).
  destruct (is_training && requires_grad (_bitwidth q))%bool eqn:Hbr.
  - destruct (quant_diffq_value q x off is_training s Hoff Hbr)
      as (y & s' & Hy & _ & _ & Hr).
    exists y, s'. split; [exact Hy | ]. intros i. specialize (Hr i).
    rewrite Hel in Hr. split; [lra | ].
    intros H3. exfalso. subst c1. cbn in Hbr.
    rewrite andb_false_r in Hbr. discriminate.
  - destruct (quant_lsq_value q x off is_training s Hoff Hbr)
      as (y & Hy & _ & _ & Hval).
    exists y, s. split; [exact Hy | ]. intros i. rewrite Hval, Hel.
    pose proof (lsq_in_range q (elem x i + o)) as Hr. cbv zeta in Hr.
    split; [lra | ].
    intros H3 Hx. subst c1. cbn [Z.eqb Pos.eqb] in o. subst o.
    pose proof (lsq_below q (elem x i + 0)) as Hl. cbv zeta in Hl.
    rewrite Hl by lra. lra.
Qed.

(** ** The seed of [noise_quant] *)

(** [torch.rand] draws from [0, 1) and [torch.manual_seed] takes [int] of
    its argument, so every invocation re-seeds with 0: the dither is the
    same multiple of [step] whatever the state of the generators. *)
Theorem noise_quant_seed_is_zero (rs : RandomSource) (x : Tensor) (step : R)
    (s : rng rs) :
  (forall d g, 0 <= fst (rand1 rs d g) < 1) ->
  let d := forward_device x in
  let draw := randn1 rs d (seeded rs d 0) in
  let y := snd (fst (noise_quant_forward x step s)) in
  let s' := snd (noise_quant_forward x step s) in
  (forall i, elem y i = elem x i + round (fst draw / 2) * step) /\
  s' = set_gen d (snd draw) (mkRng (seeded rs Cpu 0) (seeded rs Cuda 0)).
Proof.
  intros Hunit. cbv zeta. rewrite noise_quant_forward_eq. cbn [fst snd].
  unfold manual_seed. rewrite int_of_unit_interval by apply Hunit.
  split; [intros i | ]; reflexivity.
Qed.

Lemma noise_quant_seed_is_zero_witness :
  let s := mkRng (rs := half_source) 5%Z 7%Z in
  let draw := randn1 half_source Cpu (seeded half_source Cpu 0) in
  (forall i,
     elem (snd (fst (noise_quant_forward zero_input 1 s))) i
     = elem zero_input i + round (fst draw / 2) * 1) /\
  snd (noise_quant_forward zero_input 1 s)
  = set_gen Cpu (snd draw)
      (mkRng (seeded half_source Cpu 0) (seeded half_source Cuda 0)).
Proof.
  apply (noise_quant_seed_is_zero half_source zero_input 1
           (mkRng (rs := half_source) 5%Z 7%Z)).
  intros d g. cbn. lra.
Defined.

(** ** [model_bops] and [bops_loss] *)

Lemma model_bops_from_total (ms : list module) :
  forall t,
    model_bops_from t ms =
    match total_cost ms with
    | Some c => ok (t + c)
    | None => raise AttributeError
    end.
Proof.
  induction ms as [ | m ms IH]; intros t.
  - cbn. unfold ok. f_equal. lra.
  - destruct m as [c | l | ]; cbn [model_bops_from total_cost module_bops].
    + destruct (out_height c) as [h | ]; cbn [getattr rbind ok raise];
        [ | reflexivity].
      destruct (out_width c) as [w | ]; cbn [getattr rbind ok raise];
        [ | reflexivity].
      rewrite IH. destruct (total_cost ms); [ | reflexivity].
      unfold ok. f_equal. ring.
    + rewrite IH. destruct (total_cost ms); [ | reflexivity].
      unfold ok. f_equal. ring.
    + rewrite IH. destruct (total_cost ms); [ | reflexivity].
      unfold ok. f_equal. ring.
Qed.

Lemma total_cost_calibrated (ms : list module) :
  Forall calibrated ms <-> exists c, total_cost ms = Some c.
Proof.
  induction ms as [ | m ms IH].
  - split; [intros _; now exists 0 | constructor].
  - split.
    + intros H. inversion H as [ | ? ? Hm Hms]; subst.
      apply IH in Hms as [a Ha]. cbn [total_cost]. rewrite Ha.
      destruct m as [c | l | ]; cbn [module_bops calibrated] in *; eauto.
      destruct Hm as [Hh Hw].
      destruct (out_height c); [ | congruence].
      destruct (out_width c); [eauto | congruence].
    + intros [c Hc]. cbn [total_cost] in Hc.
      destruct (module_bops m) as [cm | ] eqn:Hm; [ | discriminate].
      destruct (total_cost ms) as [a | ] eqn:Ha; [ | discriminate].
      constructor; [ | apply IH; eauto].
      destruct m as [cv | l | ]; cbn [module_bops calibrated] in *; auto.
      destruct (out_height cv); [ | discriminate].
      destruct (out_width cv); [ | discriminate].
      split; discriminate.
Qed.

Lemma model_bops_needs_calibration_aux (ms : list module) :
  Forall calibrated ms -> exists v, model_bops ms = ok v.
Proof.
  intros H. apply total_cost_calibrated in H as [c Hc].
  unfold model_bops. rewrite model_bops_from_total, Hc. eauto.
Qed.

(** [model_bops] returns a total exactly when every convolution of the
    model has its output extents recorded by the calibration pass; on any
    other model it raises [AttributeError]. *)
Theorem model_bops_needs_calibration (ms : list module) :
  (Forall calibrated ms <-> exists v, model_bops ms = ok v) /\
  (~ Forall calibrated ms -> model_bops ms = raise AttributeError).
Proof.
  unfold model_bops. rewrite model_bops_from_total.
  pose proof (total_cost_calibrated ms) as Hc.
  destruct (total_cost ms) as [c | ].
  - split.
    + split; [intros _; eauto | intros _; apply Hc; eauto].
    + intros Hn. exfalso. apply Hn, Hc. eauto.
  - split; [ | reflexivity].
    split.
    + intros H. apply Hc in H as [c Hc']. discriminate.
    + intros [v Hv]. discriminate.
Qed.

Lemma model_bops_needs_calibration_witness :
  model_bops (modules demo_model) = raise AttributeError.
Proof.
  apply (proj2 (model_bops_needs_calibration (modules demo_model))).
  intros H. inversion H as [ | ? ? Hm _]. destruct Hm as [Hh _].
  now apply Hh.
Defined.

Lemma bitwidth_lower (q : Quantizer) : 2 <= bitwidth q.
Proof.
  unfold bitwidth. destruct (requires_grad (_bitwidth q)).
  - pose proof (logit2bit_range (data (_bitwidth q))). lra.
  - pose proof (round_logit2bit (data (_bitwidth q))) as [Hlo _].
    unfold round. now apply IZR_le in Hlo.
Qed.

Lemma bops_monotone (k c_in c_out h_out w_out : Z) (w w' a a' : R) :
  (0 <= c_in)%Z -> (0 <= c_out)%Z -> (0 <= h_out)%Z -> (0 <= w_out)%Z ->
  0 <= w <= w' -> 0 <= a <= a' ->
  bops k c_in c_out h_out w_out w a <= bops k c_in c_out h_out w_out w' a'.
Proof.
  intros Hci Hco Hh Hw Hw0 Ha0. unfold bops.
  assert (Hm : 0 <= IZR (c_out * (c_in * k * k) * (w_out * h_out))).
  { apply IZR_le. apply Z.mul_nonneg_nonneg; [ | lia].
    apply Z.mul_nonneg_nonneg; [assumption | ].
    rewrite <- Z.mul_assoc. apply Z.mul_nonneg_nonneg; [assumption | ].
    apply Z.square_nonneg. }
  assert (H230 : 0 < IZR (2 ^ 30)) by (apply IZR_lt; reflexivity).
  unfold Rdiv. apply Rmult_le_compat_r; [now apply Rlt_le, Rinv_0_lt_compat | ].
  rewrite !Rmult_assoc. apply Rmult_le_compat_l; [exact Hm | ]. nra.
Qed.

Lemma total_cost_middle (l1 l2 : list module) (m : module) :
  total_cost (l1 ++ m :: l2) =
  match module_bops m, total_cost (l1 ++ l2) with
  | Some c, Some a => Some (c + a)
  | _, _ => None
  end.
Proof.
  induction l1 as [ | x l1 IH]; [reflexivity | ].
  cbn [app total_cost]. rewrite IH.
  destruct (module_bops x), (module_bops m), (total_cost (l1 ++ l2));
    try reflexivity.
  f_equal. ring.
Qed.

(** Raising the weight or the activation bitwidth of one calibrated
    convolution, the other not lowered, never lowers the total of
    [model_bops]. *)
Theorem model_bops_monotone (l1 l2 : list module) (c : Q_Conv2d)
    (aq' wq' : Quantizer) (v : R) :
  (0 <= in_channels c)%Z -> (0 <= out_channels c)%Z ->
  bitwidth (w_quant c) <= bitwidth wq' ->
  bitwidth (a_quant c) <= bitwidth aq' ->
  model_bops (l1 ++ M_Conv2d c :: l2) = ok v ->
  exists v',
    model_bops (l1 ++ M_Conv2d (with_quantizers aq' wq' c) :: l2) = ok v' /\
    v <= v'.
Proof.
  intros Hci Hco Hwb Hab Hv.
  unfold model_bops in *. rewrite model_bops_from_total in *.
  rewrite total_cost_middle in *. cbn [module_bops] in *.
  cbn [with_quantizers out_height out_width kernel_size in_channels
       out_channels a_quant w_quant].
  destruct (out_height c) as [h_out | ]; [ | discriminate].
  destruct (out_width c) as [w_out | ]; [ | discriminate].
  destruct (total_cost (l1 ++ l2)) as [a | ]; [ | discriminate].
  injection Hv as <-. eexists. split; [reflexivity | ].
  pose proof (bitwidth_lower (w_quant c)). pose proof (bitwidth_lower (a_quant c)).
  assert (Hb : bops (fst (kernel_size c)) (in_channels c) (out_channels c)
                 (Z.of_nat h_out) (Z.of_nat w_out)
                 (bitwidth (w_quant c)) (bitwidth (a_quant c))
               <= bops (fst (kernel_size c)) (in_channels c) (out_channels c)
                    (Z.of_nat h_out) (Z.of_nat w_out)
                    (bitwidth wq') (bitwidth aq')).
  { apply bops_monotone; try assumption; try lia; lra. }
  lra.
Qed.

Lemma model_bops_monotone_witness :
  exists v',
    model_bops
      ([] ++ M_Conv2d (with_quantizers relu_quantizer wide_quantizer
                         calibrated_conv) :: [])
    = ok v' /\
    0 + bops 3 16 32 2 2 (bitwidth relu_quantizer) (bitwidth relu_quantizer)
    <= v'.
Proof.
  apply (model_bops_monotone [] [] calibrated_conv relu_quantizer
           wide_quantizer).
  - cbn. lia.
  - cbn. lia.
  - unfold bitwidth, _logit2bit. cbn [calibrated_conv w_quant relu_quantizer
      wide_quantizer _bitwidth requires_grad data].
    assert (sigmoid 2.5 <= sigmoid 3) by (apply sigmoid_monotone; lra). lra.
  - apply Rle_refl.
  - reflexivity.
Defined.

Lemma smooth_l1_loss_bounds (input target : R) :
  0 <= smooth_l1_loss input target <= Rabs (input - target) /\
  (smooth_l1_loss input target = 0 <-> input = target).
Proof.
  unfold smooth_l1_loss, Rltb.
  pose proof (Rabs_pos (input - target)) as Hd.
  assert (Hz : Rabs (input - target) = 0 <-> input = target).
  { split.
    - intros H. destruct (Req_dec (input - target) 0) as [He | Hne]; [lra | ].
      apply Rabs_no_R0 in Hne. contradiction.
    - intros ->. rewrite Rminus_diag. apply Rabs_R0. }
  destruct (Rlt_dec (Rabs (input - target)) 1) as [Hlt | Hge].
  - split; [nra | ]. rewrite <- Hz. split; intros H; nra.
  - split; [lra | ]. rewrite <- Hz. split; intros H; lra.
Qed.

(** [bops_loss] is the smooth L1 distance of the total cost to the target
    times [lambda_bops]: for a non-negative weight it lies between 0 and
    [lambda_bops * |total - target|], is 0 exactly when the total meets the
    target or the weight is 0, and is linear once the distance reaches 1;
    an exception of [model_bops] is passed on. *)
Theorem bops_loss_bounds (model : list module) (target_bops lambda_bops : R) :
  (forall total,
     model_bops model = ok total -> 0 <= lambda_bops ->
     exists l,
       bops_loss model target_bops lambda_bops = ok l /\
       0 <= l <= lambda_bops * Rabs (total - target_bops) /\
       (l = 0 <-> total = target_bops \/ lambda_bops = 0) /\
       (1 <= Rabs (total - target_bops) ->
        l = (Rabs (total - target_bops) - 0.5) * lambda_bops)) /\
  (forall e, model_bops model = raise e ->
             bops_loss model target_bops lambda_bops = raise e).
Proof.
  split.
  - intros total Ht Hl. unfold bops_loss. rewrite Ht. cbn [rbind ok].
    eexists. split; [reflexivity | ].
    destruct (smooth_l1_loss_bounds total target_bops) as [[H0 H1] Hz].
    split; [nra | ]. split.
    + split.
      * intros H. apply Rmult_integral in H. rewrite Hz in H. exact H.
      * intros [H | H]; [apply Hz in H; rewrite H | rewrite H]; ring.
    + intros Hd. unfold smooth_l1_loss.
      rewrite Rltb_false by lra. lra.
  - intros e He. unfold bops_loss. rewrite He. reflexivity.
Qed.

Lemma bops_loss_bounds_witness :
  exists l,
    bops_loss [] 1 2 = ok l /\
    0 <= l <= 2 * Rabs (0 - 1) /\
    (l = 0 <-> 0 = 1 \/ 2 = 0) /\
    (1 <= Rabs (0 - 1) -> l = (Rabs (0 - 1) - 0.5) * 2).
Proof.
  apply (proj1 (bops_loss_bounds [] 1 2) 0); [reflexivity | lra].
Defined.

(** ** [print_bitwidth] *)

Lemma length_pos_INR {A : Type} (l : list A) : l <> [] -> 0 < INR (length l).
Proof.
  destruct l as [ | a l]; [congruence | intros _].
  apply lt_0_INR. cbn. lia.
Qed.

(** One step of the running average keeps [average * count = sum]. *)
Lemma running_average_step (W S avg n b : R) :
  0 <= W -> 0 < n -> avg * W = S ->
  (avg + n * / 2 ^ 30 * (b - avg) / (W * / 2 ^ 30 + n * / 2 ^ 30)) * (W + n)
  = S + n * b.
Proof.
  intros HW Hn Hinv.
  assert (H30 : (2 ^ 30 : R) <> 0) by (apply pow_nonzero; lra).
  assert (HWn : W + n <> 0) by lra.
  replace (W * / 2 ^ 30 + n * / 2 ^ 30) with ((W + n) * / 2 ^ 30) by ring.
  replace (S + n * b) with (avg * W + n * b) by (rewrite Hinv; ring).
  field; repeat split; assumption.
Qed.

Lemma print_bitwidth_loop_spec (ms : list module) :
  Forall reportable ms ->
  forall W SW A SA avg_w avg_a,
    0 <= W -> 0 <= A -> avg_w * W = SW -> avg_a * A = SA ->
    exists avg_w' avg_a',
      print_bitwidth_loop ms (W * / 2 ^ 30) avg_w (A * / 2 ^ 30) avg_a
      = ok (avg_w', avg_a') /\
      0 <= count_sum weight_entry ms /\ 0 <= count_sum act_entry ms /\
      avg_w' * (W + count_sum weight_entry ms) = SW + bits_sum weight_entry ms /\
      avg_a' * (A + count_sum act_entry ms) = SA + bits_sum act_entry ms.
Proof.
  induction 1 as [ | m ms Hm _ IH]; intros W SW A SA avg_w avg_a HW HA Hw Ha.
  - exists avg_w, avg_a. cbn [print_bitwidth_loop count_sum bits_sum].
    rewrite !Rplus_0_r. repeat split; lra.
  - destruct m as [c | l | ]; cbn [reportable] in Hm.
    + destruct Hm as (Hne & ih & iw & Hih & Hiw & Hpos).
      pose proof (length_pos_INR _ Hne) as Hn. apply IZR_lt in Hpos.
      cbn [print_bitwidth_loop count_sum bits_sum weight_entry act_entry].
      rewrite Hih, Hiw. cbn [getattr rbind ok].
      set (n := INR (length (weight c))) in *.
      set (k := IZR (Z.of_nat ih * Z.of_nat iw * in_channels c)) in *.
      assert (E1 : (W + n) * / 2 ^ 30 = W * / 2 ^ 30 + n * / 2 ^ 30) by ring.
      assert (E2 : (A + k) * / 2 ^ 30 = A * / 2 ^ 30 + k * / 2 ^ 30) by ring.
      destruct (IH (W + n) (SW + n * bitwidth (w_quant c)) (A + k)
                  (SA + k * bitwidth (a_quant c))
                  (avg_w + n * / 2 ^ 30 * (bitwidth (w_quant c) - avg_w)
                           / (W * / 2 ^ 30 + n * / 2 ^ 30))
                  (avg_a + k * / 2 ^ 30 * (bitwidth (a_quant c) - avg_a)
                           / (A * / 2 ^ 30 + k * / 2 ^ 30)))
        as (aw & aa & Hloop & Hcw & Hca & Hiw' & Hia'); try lra;
        try (now apply running_average_step).
      rewrite E1, E2 in Hloop.
      exists aw, aa. split; [exact Hloop | ].
      split; [lra | ]. split; [lra | ].
      rewrite <- !Rplus_assoc, Hiw', Hia'. split; reflexivity.
    + destruct Hm as (Hne & Hpos).
      pose proof (length_pos_INR _ Hne) as Hn. apply IZR_lt in Hpos.
      cbn [print_bitwidth_loop count_sum bits_sum weight_entry act_entry].
      set (n := INR (length (lin_weight l))) in *.
      set (k := IZR (in_features l)) in *.
      assert (E1 : (W + n) * / 2 ^ 30 = W * / 2 ^ 30 + n * / 2 ^ 30) by ring.
      assert (E2 : (A + k) * / 2 ^ 30 = A * / 2 ^ 30 + k * / 2 ^ 30) by ring.
      destruct (IH (W + n) (SW + n * bitwidth (lin_w_quant l)) (A + k)
                  (SA + k * bitwidth (lin_a_quant l))
                  (avg_w + n * / 2 ^ 30 * (bitwidth (lin_w_quant l) - avg_w)
                           / (W * / 2 ^ 30 + n * / 2 ^ 30))
                  (avg_a + k * / 2 ^ 30 * (bitwidth (lin_a_quant l) - avg_a)
                           / (A * / 2 ^ 30 + k * / 2 ^ 30)))
        as (aw & aa & Hloop & Hcw & Hca & Hiw' & Hia'); try lra;
        try (now apply running_average_step).
      rewrite E1, E2 in Hloop.
      exists aw, aa. split; [exact Hloop | ].
      split; [lra | ]. split; [lra | ].
      rewrite <- !Rplus_assoc, Hiw', Hia'. split; reflexivity.
    + cbn [print_bitwidth_loop count_sum bits_sum weight_entry act_entry].
      apply IH; assumption.
Qed.

Lemma bitwidth_upper (q : Quantizer) : bitwidth q <= 8.5.
Proof.
  unfold bitwidth. destruct (requires_grad (_bitwidth q)).
  - pose proof (logit2bit_range (data (_bitwidth q))). lra.
  - pose proof (round_logit2bit (data (_bitwidth q))) as [_ Hhi].
    unfold round. apply IZR_le in Hhi. lra.
Qed.

Lemma bits_sum_bounds (ms : list module) :
  Forall reportable ms ->
  2 * count_sum weight_entry ms <= bits_sum weight_entry ms
  <= 8.5 * count_sum weight_entry ms /\
  2 * count_sum act_entry ms <= bits_sum act_entry ms
  <= 8.5 * count_sum act_entry ms.
Proof.
  induction 1 as [ | m ms Hm _ IH]; cbn [count_sum bits_sum]; [lra | ].
  destruct m as [c | l | ]; cbn [reportable weight_entry act_entry] in *.
  - destruct Hm as (Hne & ih & iw & Hih & Hiw & Hpos).
    rewrite Hih, Hiw. apply IZR_lt in Hpos.
    pose proof (length_pos_INR _ Hne).
    pose proof (bitwidth_lower (w_quant c)). pose proof (bitwidth_upper (w_quant c)).
    pose proof (bitwidth_lower (a_quant c)). pose proof (bitwidth_upper (a_quant c)).
    nra.
  - destruct Hm as (Hne & Hpos). apply IZR_lt in Hpos.
    pose proof (length_pos_INR _ Hne).
    pose proof (bitwidth_lower (lin_w_quant l)).
    pose proof (bitwidth_upper (lin_w_quant l)).
    pose proof (bitwidth_lower (lin_a_quant l)).
    pose proof (bitwidth_upper (lin_a_quant l)).
    nra.
  - exact IH.
Qed.

(** On a calibrated model the two averages that [print_bitwidth] reports
    are the means of the weight and of the activation bitwidths weighted by
    the element counts, they lie between 2 and 8.5 when the model has a
    quantized operator, and the total is that of [model_bops]; a
    convolution without recorded input extents raises [AttributeError]. *)
Theorem print_bitwidth_weighted_average :
  (forall ms,
     Forall reportable ms -> Forall calibrated ms ->
     exists avg_w avg_a total,
       print_bitwidth ms = ok (avg_w, avg_a, total) /\
       model_bops ms = ok total /\
       avg_w * count_sum weight_entry ms = bits_sum weight_entry ms /\
       avg_a * count_sum act_entry ms = bits_sum act_entry ms /\
       (0 < count_sum weight_entry ms ->
        avg_w = bits_sum weight_entry ms / count_sum weight_entry ms /\
        2 <= avg_w <= 8.5) /\
       (0 < count_sum act_entry ms ->
        avg_a = bits_sum act_entry ms / count_sum act_entry ms /\
        2 <= avg_a <= 8.5)) /\
  (forall c rest,
     in_height c = None ->
     print_bitwidth (M_Conv2d c :: rest) = raise AttributeError).
Proof.
  split.
  - intros ms Hrep Hcal.
    destruct (print_bitwidth_loop_spec ms Hrep 0 0 0 0 0 0)
      as (aw & aa & Hloop & _ & _ & Hw & Ha); try lra.
    rewrite !Rmult_0_l in Hloop. rewrite !Rplus_0_l in Hw, Ha.
    destruct (proj1 (total_cost_calibrated ms) Hcal) as [c Hc].
    assert (Hb : model_bops ms = ok (0 + c))
      by (unfold model_bops; now rewrite model_bops_from_total, Hc).
    exists aw, aa, (0 + c). unfold print_bitwidth. rewrite Hloop, Hb.
    cbn [rbind ok]. split; [reflexivity | ]. split; [reflexivity | ].
    split; [exact Hw | ]. split; [exact Ha | ].
    destruct (bits_sum_bounds ms Hrep) as [Hbw Hba].
    split; intros Hpos.
    + assert (He : aw = bits_sum weight_entry ms / count_sum weight_entry ms).
      { rewrite <- Hw. field. lra. }
      split; [exact He | ]. split; nra.
    + assert (He : aa = bits_sum act_entry ms / count_sum act_entry ms).
      { rewrite <- Ha. field. lra. }
      split; [exact He | ]. split; nra.
  - intros c rest Hih. unfold print_bitwidth.
    cbn [print_bitwidth_loop]. rewrite Hih. reflexivity.
Qed.

Lemma print_bitwidth_weighted_average_witness :
  exists avg_w avg_a total,
    print_bitwidth [M_Conv2d calibrated_conv; M_Other]
    = ok (avg_w, avg_a, total) /\
    model_bops [M_Conv2d calibrated_conv; M_Other] = ok total /\
    avg_w * count_sum weight_entry [M_Conv2d calibrated_conv; M_Other]
    = bits_sum weight_entry [M_Conv2d calibrated_conv; M_Other] /\
    avg_a * count_sum act_entry [M_Conv2d calibrated_conv; M_Other]
    = bits_sum act_entry [M_Conv2d calibrated_conv; M_Other] /\
    (0 < count_sum weight_entry [M_Conv2d calibrated_conv; M_Other] ->
     avg_w = bits_sum weight_entry [M_Conv2d calibrated_conv; M_Other]
             / count_sum weight_entry [M_Conv2d calibrated_conv; M_Other] /\
     2 <= avg_w <= 8.5) /\
    (0 < count_sum act_entry [M_Conv2d calibrated_conv; M_Other] ->
     avg_a = bits_sum act_entry [M_Conv2d calibrated_conv; M_Other]
             / count_sum act_entry [M_Conv2d calibrated_conv; M_Other] /\
     2 <= avg_a <= 8.5).
Proof.
  apply (proj1 print_bitwidth_weighted_average
           [M_Conv2d calibrated_conv; M_Other]).
  - constructor; [ | constructor; [exact I | constructor]].
    split; [discriminate | ].
    exists 2%nat, 2%nat. split; [reflexivity | split; reflexivity].
  - constructor; [ | constructor; [exact I | constructor]].
    split; discriminate.
Defined.

(** ** Calibration: [optimal_i] and [group_err] *)

Lemma optimal_i_found (target unit : R) (j : Z) :
  In j [0; 1; 2; 3; 4]%Z -> Rabs (target - unit * IZR j) < 100 ->
  exists i, optimal_i target unit = ok i.
Proof.
  intros Hj Hlt. unfold optimal_i. cbn [fold_left]. unfold Rltb.
  repeat match goal with
         | |- context [Rlt_dec ?a ?b] => destruct (Rlt_dec a b); cbv beta iota
         end;
    cbn [Z.eqb Pos.eqb]; eauto;
    exfalso; simpl in Hj;
    repeat (destruct Hj as [<- | Hj]; [lra | ]); contradiction.
Qed.

Lemma optimal_i_exits (target unit : R) :
  (forall j, In j [0; 1; 2; 3; 4]%Z -> 100 <= Rabs (target - unit * IZR j)) ->
  optimal_i target unit = raise SystemExit.
Proof.
  intros Hall. unfold optimal_i. cbn [fold_left].
  pose proof (Hall 0%Z) as H0. pose proof (Hall 1%Z) as H1.
  pose proof (Hall 2%Z) as H2. pose proof (Hall 3%Z) as H3.
  pose proof (Hall 4%Z) as H4. simpl in H0, H1, H2, H3, H4.
  rewrite (Rltb_false (Rabs (target - unit * 0)) 100) by (specialize (H0 ltac:(tauto)); lra).
  rewrite (Rltb_false (Rabs (target - unit * 1)) 100) by (specialize (H1 ltac:(tauto)); lra).
  rewrite (Rltb_false (Rabs (target - unit * 2)) 100) by (specialize (H2 ltac:(tauto)); lra).
  rewrite (Rltb_false (Rabs (target - unit * 3)) 100) by (specialize (H3 ltac:(tauto)); lra).
  rewrite (Rltb_false (Rabs (target - unit * 4)) 100) by (specialize (H4 ltac:(tauto)); lra).
  reflexivity.
Qed.

(** [optimal_i] exits exactly when every candidate multiple is at least 100
    away from the target; otherwise it returns the index, from 0 to 4, of
    the nearest candidate, the smallest index among equally near ones. *)
Theorem optimal_i_choice (target unit : R) :
  ((forall j, In j [0; 1; 2; 3; 4]%Z ->
      100 <= Rabs (target - unit * IZR j)) <->
   optimal_i target unit = raise SystemExit) /\
  ((exists j, In j [0; 1; 2; 3; 4]%Z /\ Rabs (target - unit * IZR j) < 100) <->
   exists i,
     optimal_i target unit = ok i /\ In i [0; 1; 2; 3; 4]%Z /\
     Rabs (target - unit * IZR i) < 100 /\
     (forall j, In j [0; 1; 2; 3; 4]%Z ->
        Rabs (target - unit * IZR i) <= Rabs (target - unit * IZR j)) /\
     (forall j, In j [0; 1; 2; 3; 4]%Z -> (j < i)%Z ->
        Rabs (target - unit * IZR i) < Rabs (target - unit * IZR j))).
Proof.
  split; split.
  - apply optimal_i_exits.
  - intros Hexit j Hj.
    destruct (Rlt_dec (Rabs (target - unit * IZR j)) 100) as [Hlt | Hge];
      [ | lra].
    destruct (optimal_i_found target unit j Hj Hlt) as [i Hi].
    rewrite Hi in Hexit. discriminate.
  - intros (j & Hj & Hlt).
    destruct (optimal_i_found target unit j Hj Hlt) as [i Hi].
    exists i. split; [exact Hi | ]. now apply optimal_i_nearest.
  - intros (i & Hi & Hin & Hlt & _). exists i. now split.
Qed.

Lemma optimal_i_candidate (target unit : R) (k : Z) :
  optimal_i target unit = ok k -> candidate_multiple unit (unit * IZR k).
Proof.
  intros Hk. apply optimal_i_nearest in Hk as (Hin & _).
  exists k. split; [ | reflexivity].
  simpl in Hin. intuition lia.
Qed.

Lemma Forall_firstn_keep {A : Type} (P : A -> Prop) (n : nat) (l : list A) :
  Forall P l -> Forall P (firstn n l).
Proof.
  revert n. induction l as [ | a l IH]; intros [ | n] H; cbn;
    try constructor; inversion H; subst; auto.
Qed.

Lemma Forall_skipn_keep {A : Type} (P : A -> Prop) (n : nat) (l : list A) :
  Forall P l -> Forall P (skipn n l).
Proof.
  revert n. induction l as [ | a l IH]; intros [ | n] H; cbn; auto.
  inversion H; subst; auto.
Qed.

Lemma slice_assign_Forall (P : R -> Prop) (i0 : nat) (hi : option nat)
    (vals acc : list R) :
  Forall P vals -> Forall P acc -> Forall P (slice_assign i0 hi vals acc).
Proof.
  intros Hv Ha. unfold slice_assign. destruct hi as [i1 | ].
  - apply Forall_app. split; [now apply Forall_firstn_keep | ].
    apply Forall_app. split; [exact Hv | now apply Forall_skipn_keep].
  - apply Forall_app. split; [now apply Forall_firstn_keep | exact Hv].
Qed.

Lemma slice_assign_length (f : R -> R) (i0 : nat) (hi : option nat)
    (arr acc : list R) :
  length acc = length arr ->
  match hi with Some i1 => (i0 <= i1 <= length arr)%nat | None => True end ->
  length (slice_assign i0 hi (map f (slice i0 hi arr)) acc) = length arr.
Proof.
  intros Hlen Hhi. unfold slice_assign, slice. destruct hi as [i1 | ].
  - rewrite !length_app, length_map, !length_firstn, !length_skipn. lia.
  - rewrite !length_app, length_map, !length_firstn, !length_skipn. lia.
Qed.

Lemma group_err_loop_spec (arr : list R) (offset : R) (g epg : nat)
    (idxs : list nat) :
  (g * epg <= length arr)%nat ->
  (forall i, In i idxs -> (i < g)%nat) ->
  forall arr_err arr_off arr_err' arr_off',
    length arr_err = length arr -> length arr_off = length arr ->
    Forall (fun e => 0 <= e) arr_err ->
    Forall (candidate_multiple offset) arr_off ->
    group_err_loop arr offset g epg idxs arr_err arr_off
    = ok (arr_err', arr_off') ->
    length arr_err' = length arr /\ length arr_off' = length arr /\
    Forall (fun e => 0 <= e) arr_err' /\
    Forall (candidate_multiple offset) arr_off'.
Proof.
  intros Hg. induction idxs as [ | i idxs IH];
    intros Hidx arr_err arr_off arr_err' arr_off' Hle Hlo Hpe Hpo Hloop.
  - cbn in Hloop. injection Hloop as <- <-. auto.
  - cbn [group_err_loop] in Hloop.
    destruct (tensor_min _) as [e | m]; [discriminate | ].
    cbn [rbind] in Hloop.
    destruct (optimal_i m offset) as [e | k] eqn:Hk; [discriminate | ].
    cbn [rbind] in Hloop.
    assert (Hi : (i < g)%nat) by (apply Hidx; now left).
    assert (Hhi : match (if Nat.eqb i (g - 1) then None
                         else Some ((i + 1) * epg)%nat) with
                  | Some i1 => (i * epg <= i1 <= length arr)%nat
                  | None => True
                  end).
    { destruct (Nat.eqb i (g - 1)) eqn:He; [exact I | ].
      apply Nat.eqb_neq in He. split; [nia | ].
      assert ((i + 1) * epg <= g * epg)%nat by (apply Nat.mul_le_mono_r; lia).
      lia. }
    apply IH in Hloop; auto.
    + intros j Hj. apply Hidx. now right.
    + now apply slice_assign_length.
    + now apply slice_assign_length.
    + apply slice_assign_Forall; [ | exact Hpe].
      apply Forall_map, Forall_forall. intros v _. apply Rabs_pos.
    + apply slice_assign_Forall; [ | exact Hpo].
      apply Forall_map, Forall_forall. intros v _.
      replace (v - v + offset * IZR k) with (offset * IZR k) by ring.
      now apply optimal_i_candidate with m.
Qed.

Lemma fold_left_Rplus_nonneg (l : list R) (a : R) :
  0 <= a -> Forall (fun e => 0 <= e) l -> 0 <= fold_left Rplus l a.
Proof.
  revert a. induction l as [ | e l IH]; intros a Ha Hl; cbn; [exact Ha | ].
  inversion Hl; subst. apply IH; [lra | assumption].
Qed.

Lemma group_err_result (arr : list R) (offset : R) (g : nat) (err : R)
    (arr_off : list R) :
  group_err arr offset g = ok (err, arr_off) ->
  0 <= err /\
  length arr_off = length arr /\
  Forall (candidate_multiple offset) arr_off.
Proof.
  unfold group_err. destruct g as [ | g']; [discriminate | ].
  set (g := S g').
  destruct (group_err_loop arr offset g (length arr / g) (seq 0 g)
              (map (fun _ => 0) arr) (map (fun _ => 0) arr))
    as [e | [arr_err' arr_off']] eqn:Hloop; [discriminate | ].
  cbn [rbind ok]. intros H. injection H as <- <-.
  apply group_err_loop_spec in Hloop as (Hle & Hlo & Hpe & Hpo).
  - split; [ | now split].
    unfold tensor_mean. apply Rmult_le_pos.
    + apply fold_left_Rplus_nonneg; [lra | exact Hpe].
    + destruct (Nat.eq_dec (length arr_err') 0) as [H0 | Hn].
      * rewrite H0. cbn [INR]. rewrite Rinv_0. lra.
      * apply Rlt_le, Rinv_0_lt_compat, lt_0_INR. lia.
  - apply Nat.Div0.mul_div_le.
  - intros i Hi. apply in_seq in Hi. lia.
  - apply length_map.
  - apply length_map.
  - apply Forall_map, Forall_forall. intros v _. lra.
  - apply Forall_map, Forall_forall. intros v _. exists 0%Z.
    split; [lia | lra].
Qed.

(** When [group_err] returns, its error is not negative and its offsets are
    one per channel, each a candidate multiple of the unit. *)
Theorem group_err_offsets (arr : list R) (offset : R) (g : nat) (err : R)
    (arr_off : list R) :
  group_err arr offset g = ok (err, arr_off) ->
  0 <= err /\
  length arr_off = length arr /\
  Forall (candidate_multiple offset) arr_off.
Proof.
  apply group_err_result.
Qed.

Lemma group_err_offsets_witness :
  0 <= 0 /\
  length [0; 0; 0; 0] = length [0; 0; 0; 0] /\
  Forall (candidate_multiple (- 0)) [0; 0; 0; 0].
Proof.
  apply (group_err_offsets [0; 0; 0; 0] (- 0) 1 0 [0; 0; 0; 0]).
  exact group_err_zeros_one.
Defined.

(** ** Calibration: the per-channel minima *)

Lemma fold_left_Rmin_spec (l : list R) (v : R) :
  (fold_left Rmin l v = v \/ In (fold_left Rmin l v) l) /\
  fold_left Rmin l v <= v /\
  Forall (fun u => fold_left Rmin l v <= u) l.
Proof.
  revert v. induction l as [ | a l IH]; intros v; simpl.
  - repeat split; [now left | lra | constructor].
  - destruct (IH (Rmin v a)) as (Hin & Hle & Hall).
    pose proof (Rmin_l v a) as Hl. pose proof (Rmin_r v a) as Hr.
    repeat split.
    + destruct Hin as [He | Hin]; [ | now right; right].
      rewrite He. unfold Rmin. destruct (Rle_dec v a); [ | right]; now left.
    + lra.
    + constructor; [lra | exact Hall].
Qed.

Lemma tensor_min_spec (l : list R) (m : R) :
  tensor_min l = ok m -> In m l /\ forall v, In v l -> m <= v.
Proof.
  destruct l as [ | a l]; [discriminate | ].
  cbn [tensor_min]. intros H. injection H as <-.
  destruct (fold_left_Rmin_spec l a) as (Hin & Hle & Hall).
  split.
  - destruct Hin as [He | Hin]; [left; now rewrite He | now right].
  - intros v [<- | Hv]; [exact Hle | ].
    rewrite Forall_forall in Hall. now apply Hall.
Qed.

Lemma rmapM_Forall2 {A B : Type} (f : A -> result B) (l : list A)
    (l' : list B) :
  rmapM f l = ok l' -> Forall2 (fun a b => f a = ok b) l l'.
Proof.
  revert l'. induction l as [ | a l IH]; intros l' H; cbn in H.
  - injection H as <-. constructor.
  - destruct (f a) as [e | b] eqn:Hb; [discriminate | ]. cbn [rbind] in H.
    destruct (rmapM f l) as [e | bs]; [discriminate | ]. cbn [rbind] in H.
    injection H as <-. constructor; [exact Hb | now apply IH].
Qed.

Lemma Forall2_nth_rel {A B : Type} (P : A -> B -> Prop) (l : list A)
    (l' : list B) (da : A) (db : B) :
  Forall2 P l l' ->
  forall c, (c < length l)%nat -> P (nth c l da) (nth c l' db).
Proof.
  induction 1 as [ | a b l l' Hab _ IH]; intros c Hc; cbn in Hc; [lia | ].
  destruct c as [ | c]; cbn; [exact Hab | apply IH; lia].
Qed.

Lemma nth_map_seq {A : Type} (f : nat -> A) (C c : nat) (d : A) :
  (c < C)%nat -> nth c (map f (seq 0 C)) d = f c.
Proof.
  intros Hc.
  rewrite (nth_indep _ d (f 0%nat)) by (rewrite length_map, length_seq; exact Hc).
  rewrite (map_nth f (seq 0 C) 0%nat c), seq_nth by exact Hc. reflexivity.
Qed.

Lemma in_channel_row (F : nat -> nat -> nat -> R) (n1 n2 n3 : nat) (v : R) :
  In v (flat_map (fun a =>
        flat_map (fun b => map (fun w => F a b w) (seq 0 n3)) (seq 0 n2))
        (seq 0 n1)) <->
  exists a b w, (a < n1)%nat /\ (b < n2)%nat /\ (w < n3)%nat /\ v = F a b w.
Proof.
  rewrite in_flat_map. split.
  - intros (a & Ha & Hv). apply in_flat_map in Hv as (b & Hb & Hv).
    apply in_map_iff in Hv as (w & <- & Hw).
    apply in_seq in Ha, Hb, Hw. exists a, b, w. repeat split; lia.
  - intros (a & b & w & Ha & Hb & Hw & ->).
    exists a. split; [apply in_seq; lia | ].
    apply in_flat_map. exists b. split; [apply in_seq; lia | ].
    apply in_map_iff. exists w. split; [reflexivity | apply in_seq; lia].
Qed.

Lemma channel_rows_min (F : nat -> nat -> nat -> nat -> R)
    (C n1 n2 n3 : nat) (mins : list R) :
  rmapM tensor_min
    (map (fun c =>
            flat_map (fun a =>
            flat_map (fun b => map (fun w => F c a b w) (seq 0 n3)) (seq 0 n2))
            (seq 0 n1))
       (seq 0 C)) = ok mins ->
  length mins = C /\
  forall c, (c < C)%nat ->
    (forall a b w, (a < n1)%nat -> (b < n2)%nat -> (w < n3)%nat ->
       nth c mins 0 <= F c a b w) /\
    (exists a b w, (a < n1)%nat /\ (b < n2)%nat /\ (w < n3)%nat /\
       nth c mins 0 = F c a b w).
Proof.
  intros H. apply rmapM_Forall2 in H.
  pose proof (Forall2_length H) as Hlen.
  rewrite length_map, length_seq in Hlen. split; [now symmetry | ].
  intros c Hc.
  pose proof (Forall2_nth_rel _ _ _ [] 0 H c) as Hn.
  rewrite length_map, length_seq in Hn. specialize (Hn Hc).
  rewrite nth_map_seq in Hn by exact Hc.
  apply tensor_min_spec in Hn as [Hin Hle]. split.
  - intros a b w Ha Hb Hw. apply Hle. apply in_channel_row.
    exists a, b, w. auto.
  - apply in_channel_row in Hin. exact Hin.
Qed.

(** The calibration hook gets one minimum per channel of its 4-d input:
    each is attained in its channel and is at most every element of it,
    the channel being the second axis by default and the last one in the
    channel-last layout; an input that is not 4-d raises. *)
Theorem channel_min_is_minimum (channel_last : bool) (x : Tensor) :
  (forall d0 d1 d2 d3 mins,
     shape x = [d0; d1; d2; d3] ->
     channel_min channel_last x = ok mins ->
     let C := if channel_last then d3 else d1 in
     let n2 := if channel_last then d1 else d2 in
     let n3 := if channel_last then d2 else d3 in
     let at_ c a b w :=
       elem x (if channel_last then [a; b; w; c] else [a; c; b; w]) in
     length mins = C /\
     forall c, (c < C)%nat ->
       (forall a b w, (a < d0)%nat -> (b < n2)%nat -> (w < n3)%nat ->
          nth c mins 0 <= at_ c a b w) /\
       (exists a b w, (a < d0)%nat /\ (b < n2)%nat /\ (w < n3)%nat /\
          nth c mins 0 = at_ c a b w)) /\
  (length (shape x) <> 4%nat -> channel_min channel_last x = raise RuntimeError).
Proof.
  split.
  - intros d0 d1 d2 d3 mins Hsh. unfold channel_min. rewrite Hsh.
    cbv zeta. destruct channel_last.
    + destruct d3 as [ | d3]; [discriminate | ].
      change (match map _ (seq 0 (S d3)) with [] => _ | _ :: _ => ?r end)
        with r.
      intros H.
      exact (channel_rows_min (fun c a b w => elem x [a; b; w; c])
               (S d3) d0 d1 d2 mins H).
    + destruct d1 as [ | d1]; [discriminate | ].
      change (match map _ (seq 0 (S d1)) with [] => _ | _ :: _ => ?r end)
        with r.
      intros H.
      exact (channel_rows_min (fun c a b w => elem x [a; c; b; w])
               (S d1) d0 d2 d3 mins H).
  - intros Hlen. unfold channel_min.
    destruct (shape x) as [ | d0 [ | d1 [ | d2 [ | d3 [ | d4 sh]]]]];
      try reflexivity.
    cbn in Hlen. congruence.
Qed.

(** ** Calibration: what the hooks write *)

Lemma channel_min_length (channel_last : bool) (x : Tensor) (mins : list R) :
  channel_min channel_last x = ok mins ->
  shape_at (shape x) (if channel_last then 3%nat else 1%nat)
  = ok (length mins).
Proof.
  unfold channel_min.
  destruct (shape x) as [ | d0 [ | d1 [ | d2 [ | d3 [ | d4 sh]]]]];
    try discriminate.
  destruct channel_last.
  - destruct d3 as [ | d3]; [discriminate | ].
    change (match map _ (seq 0 (S d3)) with [] => _ | _ :: _ => ?r end) with r.
    intros H. apply rmapM_Forall2, Forall2_length in H.
    rewrite length_map, length_seq in H. cbn. now rewrite <- H.
  - destruct d1 as [ | d1]; [discriminate | ].
    change (match map _ (seq 0 (S d1)) with [] => _ | _ :: _ => ?r end) with r.
    intros H. apply rmapM_Forall2, Forall2_length in H.
    rewrite length_map, length_seq in H. cbn. now rewrite <- H.
Qed.

Lemma view_c11_candidates (d : Device) (off0 : R) (arr_off : list R) :
  Forall (candidate_multiple (- off0)) arr_off ->
  forall idx, candidate_multiple off0 (elem (view_c11 d (map Ropp arr_off)) idx).
Proof.
  intros Hall idx. cbn [view_c11 elem].
  assert (Hzero : candidate_multiple off0 0)
    by (exists 0%Z; split; [lia | lra]).
  destruct (rev idx) as [ | a [ | b [ | c l]]]; try exact Hzero.
  destruct (nth_in_or_default c (map Ropp arr_off) 0) as [Hin | ->];
    [ | exact Hzero].
  apply in_map_iff in Hin as (o & <- & Ho).
  rewrite Forall_forall in Hall. destruct (Hall o Ho) as (k & Hk & ->).
  exists k. split; [exact Hk | ring].
Qed.

Lemma hooks_keep_refl (m : Q_Conv2d) : hooks_keep m m.
Proof.
  unfold hooks_keep. repeat split; auto.
Qed.

Lemma group_err_loop_errors (arr : list R) (offset : R) (g epg : nat)
    (idxs : list nat) :
  forall arr_err arr_off e,
    group_err_loop arr offset g epg idxs arr_err arr_off = raise e ->
    e = RuntimeError \/ e = SystemExit.
Proof.
  induction idxs as [ | i idxs IH]; intros arr_err arr_off e H;
    cbn [group_err_loop] in H; [discriminate | ].
  destruct (tensor_min _) as [e1 | m] eqn:Hm.
  - cbn [rbind] in H. injection H as <-. left.
    unfold tensor_min in Hm. destruct (slice _ _ _); [ | discriminate].
    now injection Hm as <-.
  - cbn [rbind] in H. destruct (optimal_i m offset) as [e2 | k] eqn:Hk.
    + cbn [rbind] in H. injection H as <-. right.
      unfold optimal_i in Hk.
      destruct (fold_left _ _ _) as [me mi]. destruct (mi =? -1)%Z;
        [now injection Hk as <- | discriminate].
    + cbn [rbind] in H. now apply IH in H.
Qed.

Lemma group_err_errors (arr : list R) (offset : R) (g : nat) (e : exn) :
  g <> 0%nat -> group_err arr offset g = raise e ->
  e = RuntimeError \/ e = SystemExit.
Proof.
  intros Hg. unfold group_err. destruct g as [ | g]; [congruence | ].
  destruct (group_err_loop _ _ _ _ _ _ _) as [e1 | [a b]] eqn:Hl;
    [ | discriminate].
  cbn [rbind]. intros H. injection H as <-.
  now apply group_err_loop_errors in Hl.
Qed.

Lemma group_err_empty_group (arr : list R) (offset : R) :
  (length arr < 4)%nat ->
  group_err arr offset (S (length arr)) = raise RuntimeError.
Proof.
  intros Hlen. unfold group_err.
  rewrite Nat.div_small by lia.
  destruct arr as [ | a [ | b [ | c [ | d arr]]]]; cbn in Hlen; try lia;
    reflexivity.
Qed.

Lemma best_group_short (c_min : list R) (off : R) :
  (length c_min < 4)%nat ->
  best_group c_min off = raise RuntimeError \/
  best_group c_min off = raise SystemExit.
Proof.
  intros Hlen.
  pose proof (group_err_empty_group c_min (- off) Hlen) as Hempty.
  assert (Herr : forall g e, g <> 0%nat ->
            group_err c_min (- off) g = raise e ->
            e = RuntimeError \/ e = SystemExit)
    by (intros g e; apply group_err_errors).
  unfold best_group.
  assert (Hloop : forall gs m g0,
            In (S (length c_min)) gs -> ~ In 0%nat gs ->
            exists e, best_group_loop c_min off gs m g0 = raise e /\
                      (e = RuntimeError \/ e = SystemExit)).
  { induction gs as [ | g gs IH]; intros m g0 Hin H0; [destruct Hin | ].
    cbn [best_group_loop].
    destruct (group_err c_min (- off) g) as [e | [err o]] eqn:Hg.
    - exists e. split; [reflexivity | ].
      apply (Herr g e); [ | exact Hg]. intros ->. apply H0. now left.
    - cbn [rbind]. destruct Hin as [-> | Hin].
      + rewrite Hempty in Hg. discriminate.
      + destruct (Rltb err m); apply IH; auto; intros H; apply H0; now right. }
  destruct (Hloop [1; 2; 3; 4]%nat 100 0%nat) as (e & He & [-> | ->]).
  - cbn. lia.
  - cbn. lia.
  - left. now rewrite He.
  - right. now rewrite He.
Qed.

Lemma best_group_ok_length (c_min : list R) (off : R) (g : nat) :
  best_group c_min off = ok g -> (4 <= length c_min)%nat.
Proof.
  intros Hg. destruct (Nat.lt_ge_cases (length c_min) 4) as [Hlt | Hge];
    [ | exact Hge].
  destruct (best_group_short c_min off Hlt) as [H | H];
    rewrite H in Hg; discriminate.
Qed.

Lemma forward_off_hook_result (channel_last : bool) (m m' : Q_Conv2d)
    (c : hook_call) :
  forward_off_hook channel_last m c = ok m' ->
  hooks_keep m m' /\
  in_height m' = in_height m /\ in_width m' = in_width m /\
  out_height m' = out_height m /\ out_width m' = out_width m /\
  (m' = m \/
   exists off0 num_channels t,
     symm (a_quant m) = false /\
     offset_value (offset (a_quant m)) = ok off0 /\
     shape_at (shape (inputs0 c)) (if channel_last then 3%nat else 1%nat)
     = ok num_channels /\
     num_channels <> 3%nat /\
     offset (a_quant m') = Some t /\
     shape t = [num_channels; 1%nat; 1%nat] /\
     device t = device (inputs0 c) /\
     forall idx, candidate_multiple off0 (elem t idx)).
Proof.
  unfold forward_off_hook.
  destruct (symm (a_quant m)) eqn:Hs; cbn [negb].
  { intros H. injection H as <-. split; [apply hooks_keep_refl | ].
    repeat (split; [reflexivity | ]). now left. }
  destruct (shape_at _ _) as [e | num_channels] eqn:Hnc; [discriminate | ].
  cbn [rbind]. destruct (Nat.eqb num_channels 3) eqn:H3.
  { intros H. injection H as <-. split; [apply hooks_keep_refl | ].
    repeat (split; [reflexivity | ]). now left. }
  destruct (channel_min _ _) as [e | c_min] eqn:Hmin; [discriminate | ].
  cbn [rbind].
  destruct (offset_value _) as [e | off0] eqn:Hoff; [discriminate | ].
  cbn [rbind].
  destruct (best_group c_min off0) as [e | g]; [discriminate | ].
  cbn [rbind].
  destruct (group_err c_min (- off0) g) as [e | [err arr_off]] eqn:Hg;
    [discriminate | ].
  cbn [rbind]. intros H. injection H as <-.
  apply group_err_result in Hg as (_ & Hlen & Hall).
  apply channel_min_length in Hmin. rewrite Hmin in Hnc.
  injection Hnc as <-.
  split.
  { unfold hooks_keep. cbn. rewrite Hs. repeat split; auto. }
  repeat (split; [reflexivity | ]). right.
  exists off0, (length c_min). eexists.
  split; [reflexivity | ]. split; [reflexivity | ].
  split; [reflexivity | ]. split; [now apply Nat.eqb_neq | ].
  cbn [with_quantizers a_quant set_offset offset].
  split; [reflexivity | ].
  split; [cbn [view_c11 shape]; now rewrite length_map, Hlen | ].
  split; [reflexivity | ].
  now apply view_c11_candidates.
Qed.

Lemma view_c11_elem (d : Device) (l : list R) (ch : nat) :
  elem (view_c11 d (map Ropp l)) [ch; 0%nat; 0%nat] = - nth ch l 0.
Proof.
  cbn [view_c11 elem rev app].
  rewrite <- Ropp_0 at 1. apply map_nth.
Qed.

(** The calibration hook of a convolution changes nothing but the stored
    activation offset.  It leaves a symmetric quantizer and a 3-channel
    input alone.  On any other input on which it returns, there are at
    least four channels and it replaces the stored scalar offset by a
    different one, of shape [[C, 1, 1]] on the device of the input: the
    negated offsets that [group_err] returns for the per-channel minima
    and the group count that [best_group] selects, each of them the stored
    offset times an integer from 0 to 4. *)
Theorem forward_off_hook_effect (channel_last : bool) (m m' : Q_Conv2d)
    (c : hook_call) :
  forward_off_hook channel_last m c = ok m' ->
  hooks_keep m m' /\
  in_height m' = in_height m /\ in_width m' = in_width m /\
  out_height m' = out_height m /\ out_width m' = out_width m /\
  (symm (a_quant m) = true -> m' = m) /\
  forall num_channels,
    symm (a_quant m) = false ->
    shape_at (shape (inputs0 c)) (if channel_last then 3%nat else 1%nat)
    = ok num_channels ->
    (num_channels = 3%nat -> m' = m) /\
    (num_channels <> 3%nat ->
     exists off0 c_min g err arr_off t,
       offset_value (offset (a_quant m)) = ok off0 /\
       channel_min channel_last (inputs0 c) = ok c_min /\
       best_group c_min off0 = ok g /\
       group_err c_min (- off0) g = ok (err, arr_off) /\
       offset (a_quant m') = Some t /\
       offset (a_quant m') <> offset (a_quant m) /\
       (4 <= num_channels)%nat /\
       shape t = [num_channels; 1%nat; 1%nat] /\
       device t = device (inputs0 c) /\
       (forall ch, elem t [ch; 0%nat; 0%nat] = - nth ch arr_off 0) /\
       forall idx, candidate_multiple off0 (elem t idx)).
Proof.
  intros H.
  destruct (forward_off_hook_result channel_last m m' c H)
    as (Hk & Eih & Eiw & Eoh & Eow & _).
  split; [exact Hk | ]. repeat (split; [assumption | ]).
  unfold forward_off_hook in H. split.
  { intros Hs. rewrite Hs in H. cbn [negb] in H. cbv iota in H.
    unfold ok in H. inversion H. reflexivity. }
  intros n Hs Hn. rewrite Hs in H. cbn [negb] in H. cbv iota in H.
  rewrite Hn in H. cbn [rbind ok] in H. cbv beta in H.
  destruct (Nat.eqb n 3) eqn:H3.
  { apply Nat.eqb_eq in H3. split; [ | congruence].
    intros _. inversion H. reflexivity. }
  apply Nat.eqb_neq in H3. split; [congruence | ]. intros _.
  destruct (channel_min _ _) as [e | c_min] eqn:Hmin; [discriminate | ].
  cbn [rbind] in H.
  destruct (offset_value _) as [e | off0] eqn:Hoff; [discriminate | ].
  cbn [rbind] in H.
  destruct (best_group c_min off0) as [e | g] eqn:Hbest; [discriminate | ].
  cbn [rbind] in H.
  destruct (group_err c_min (- off0) g) as [e | [err arr_off]] eqn:Hg;
    [discriminate | ].
  cbn [rbind] in H. assert (Hm' : m' = with_quantizers
            (set_offset (view_c11 (device (inputs0 c)) (map Ropp arr_off))
               (a_quant m)) (w_quant m) m) by (inversion H; reflexivity).
  clear H. subst m'.
  pose proof (group_err_result _ _ _ _ _ Hg) as (_ & Hlen & Hall).
  apply channel_min_length in Hmin as Hc. rewrite Hc in Hn.
  injection Hn as <-.
  apply best_group_ok_length in Hbest as H4.
  exists off0, c_min, g, err, arr_off.
  exists (view_c11 (device (inputs0 c)) (map Ropp arr_off)).
  cbn [with_quantizers a_quant set_offset offset].
  do 5 (split; [first [reflexivity | assumption] | ]).
  split.
  { intros Heq. rewrite <- Heq in Hoff. cbn [offset_value] in Hoff.
    unfold numel in Hoff. cbn [view_c11 shape fold_right] in Hoff.
    rewrite length_map, Hlen, !Nat.mul_1_r in Hoff.
    destruct (Nat.eqb (length c_min) 1) eqn:E1; [ | discriminate].
    apply Nat.eqb_eq in E1. lia. }
  split; [exact H4 | ].
  split; [cbn [view_c11 shape]; now rewrite length_map, Hlen | ].
  split; [reflexivity | ].
  split; [intros ch; apply view_c11_elem | ].
  now apply view_c11_candidates.
Qed.

Lemma forward_off_hook_demo :
  forward_off_hook false eval_conv demo_call
  = ok (with_quantizers
          (set_offset (view_c11 Cpu (map Ropp [0; 0; 0; 0]))
             (set_training false relu_quantizer))
          (set_training false relu_quantizer) eval_conv).
Proof.
  unfold forward_off_hook, channel_min.
  cbn -[best_group group_err Rmin]. Reval.
  rewrite best_group_zeros. cbn -[group_err Rmin].
  rewrite group_err_zeros_one. reflexivity.
Qed.

Lemma forward_off_hook_effect_witness :
  let m' := with_quantizers
              (set_offset (view_c11 Cpu (map Ropp [0; 0; 0; 0]))
                 (set_training false relu_quantizer))
              (set_training false relu_quantizer) eval_conv in
  exists off0 c_min g err arr_off t,
    offset_value (offset (a_quant eval_conv)) = ok off0 /\
    channel_min false (inputs0 demo_call) = ok c_min /\
    best_group c_min off0 = ok g /\
    group_err c_min (- off0) g = ok (err, arr_off) /\
    offset (a_quant m') = Some t /\
    offset (a_quant m') <> offset (a_quant eval_conv) /\
    (4 <= 4)%nat /\
    shape t = [4%nat; 1%nat; 1%nat] /\
    device t = device (inputs0 demo_call) /\
    (forall ch, elem t [ch; 0%nat; 0%nat] = - nth ch arr_off 0) /\
    forall idx, candidate_multiple off0 (elem t idx).
Proof.
  pose proof (forward_off_hook_effect false eval_conv _ demo_call
                forward_off_hook_demo) as (_ & _ & _ & _ & _ & _ & H).
  apply (H 4%nat eq_refl eq_refl). discriminate.
Defined.

(** ** Calibration: the whole pass *)

Lemma hooks_keep_trans (a b c : Q_Conv2d) :
  hooks_keep a b -> hooks_keep b c -> hooks_keep a c.
Proof.
  intros (A1 & A2 & A3 & A4 & A5 & A6 & A7 & A8 & A9 & A10 & A11 & A12 & A13)
         (B1 & B2 & B3 & B4 & B5 & B6 & B7 & B8 & B9 & B10 & B11 & B12 & B13).
  unfold hooks_keep. repeat split; try congruence; auto.
Qed.

Lemma module_kept_refl (m : module) : module_kept m m.
Proof.
  destruct m; cbn; auto using hooks_keep_refl.
Qed.

Lemma module_kept_trans (a b c : module) :
  module_kept a b -> module_kept b c -> module_kept a c.
Proof.
  destruct a, b, c; cbn; try tauto; try congruence.
  apply hooks_keep_trans.
Qed.

Lemma Forall2_module_kept_refl (ms : list module) : Forall2 module_kept ms ms.
Proof.
  induction ms; constructor; auto using module_kept_refl.
Qed.

Lemma Forall2_module_kept_trans (l1 l2 l3 : list module) :
  Forall2 module_kept l1 l2 -> Forall2 module_kept l2 l3 ->
  Forall2 module_kept l1 l3.
Proof.
  intros H. revert l3. induction H as [ | a b l1 l2 Hab _ IH]; intros l3 H23.
  - inversion H23. constructor.
  - inversion H23; subst. constructor; eauto using module_kept_trans.
Qed.

Lemma list_set_kept (ms : list module) (i : nat) (old new : module) :
  nth_error ms i = Some old -> module_kept old new ->
  Forall2 module_kept ms (list_set i new ms) /\
  nth_error (list_set i new ms) i = Some new.
Proof.
  revert i. induction ms as [ | a ms IH]; intros [ | i] Hn Hk; cbn in Hn;
    try discriminate.
  - injection Hn as ->. cbn. split; [ | reflexivity].
    constructor; [exact Hk | apply Forall2_module_kept_refl].
  - destruct (IH i Hn Hk) as [Hall Hnth]. cbn. split; [ | exact Hnth].
    constructor; [apply module_kept_refl | exact Hall].
Qed.

Lemma Forall2_kept_conv (ms ms' : list module) (i : nat) (m : Q_Conv2d) :
  Forall2 module_kept ms ms' -> nth_error ms i = Some (M_Conv2d m) ->
  exists m', nth_error ms' i = Some (M_Conv2d m') /\ hooks_keep m m'.
Proof.
  intros H. revert i. induction H as [ | a b ms ms' Hab _ IH]; intros [ | i] Hn;
    cbn in Hn; try discriminate.
  - injection Hn as ->. destruct b as [m' | | ]; cbn in Hab; try contradiction.
    exists m'. now split.
  - now apply IH.
Qed.

Lemma forward_hook_result (channel_last : bool) (m m' : Q_Conv2d)
    (c : hook_call) :
  forward_hook channel_last m c = ok m' ->
  hooks_keep m m' /\ a_quant m' = a_quant m /\
  in_height m' <> None /\ in_width m' <> None /\
  out_height m' <> None /\ out_width m' <> None.
Proof.
  unfold forward_hook.
  repeat (destruct (shape_at _ _) as [e | ?]; [discriminate | ]; cbn [rbind]).
  intros H. injection H as <-. cbn.
  unfold hooks_keep. cbn. repeat split; auto; discriminate.
Qed.

Lemma run_hooks_spec (channel_last : bool) (ms ms' : list module)
    (c : hook_call) :
  run_hooks channel_last ms c = ok ms' ->
  Forall2 module_kept ms ms' /\
  forall m, nth_error ms (target c) = Some (M_Conv2d m) ->
    exists m', nth_error ms' (target c) = Some (M_Conv2d m') /\
               in_height m' <> None /\ in_width m' <> None /\
               out_height m' <> None /\ out_width m' <> None.
Proof.
  unfold run_hooks.
  destruct (nth_error ms (target c)) as [[m | l | ] | ] eqn:Hn;
    try (intros H; injection H as <-;
         split; [apply Forall2_module_kept_refl | discriminate]).
  destruct (forward_hook channel_last m c) as [e | m1] eqn:H1; [discriminate | ].
  cbn [rbind].
  destruct (forward_off_hook channel_last m1 c) as [e | m2] eqn:H2;
    [discriminate | ].
  cbn [rbind]. intros H. injection H as <-.
  apply forward_hook_result in H1 as (Hk1 & _ & Hih & Hiw & Hoh & How).
  apply forward_off_hook_result in H2 as (Hk2 & Eih & Eiw & Eoh & Eow & _).
  destruct (list_set_kept ms (target c) (M_Conv2d m) (M_Conv2d m2) Hn)
    as [Hall Hnth]; [cbn; now apply hooks_keep_trans with m1 | ].
  split; [exact Hall | ].
  intros m0 Hm0. exists m2. split; [exact Hnth | ].
  rewrite Eih, Eiw, Eoh, Eow. auto.
Qed.

Lemma run_calls_spec (channel_last : bool) (calls : list hook_call) :
  forall ms ms',
    run_calls channel_last ms calls = ok ms' ->
    Forall2 module_kept ms ms' /\
    forall c m, In c calls -> nth_error ms (target c) = Some (M_Conv2d m) ->
      exists m', nth_error ms' (target c) = Some (M_Conv2d m') /\
                 in_height m' <> None /\ in_width m' <> None /\
                 out_height m' <> None /\ out_width m' <> None.
Proof.
  induction calls as [ | c0 calls IH]; intros ms ms' H; cbn in H.
  - injection H as <-. split; [apply Forall2_module_kept_refl | ].
    intros c m [].
  - destruct (run_hooks channel_last ms c0) as [e | ms1] eqn:H0;
      [discriminate | ].
    cbn [rbind] in H. apply run_hooks_spec in H0 as [Hk0 Hrec0].
    apply IH in H as [Hk1 Hrec1].
    split; [now apply Forall2_module_kept_trans with ms1 | ].
    intros c m [<- | Hc] Hn.
    + destruct (Hrec0 m Hn) as (m1 & Hn1 & Hih & Hiw & Hoh & How).
      destruct (Forall2_kept_conv ms1 ms' (target c0) m1 Hk1 Hn1)
        as (m' & Hn' & Hk).
      exists m'. split; [exact Hn' | ].
      destruct Hk as (_ & _ & _ & _ & _ & _ & _ & _ & _ & K1 & K2 & K3 & K4).
      auto.
    + destruct (Forall2_kept_conv ms ms1 (target c) m Hk0 Hn)
        as (m1 & Hn1 & _).
      now apply (Hrec1 c m1).
Qed.

Lemma eval_module_in_eval_mode (m m' : module) :
  module_kept (eval_module m) m' -> in_eval_mode m'.
Proof.
  destruct m as [a | a | ], m' as [b | b | ]; cbn; try tauto.
  - intros (_ & _ & _ & _ & Hw & _ & _ & _ & Ht & _). rewrite Ht, Hw.
    split; reflexivity.
  - intros ->. split; reflexivity.
Qed.

Lemma sample_activation_size_kept (model model' : Model) (x : Tensor)
    (channel_last : bool) :
  sample_activation_size model x channel_last = ok model' ->
  call model' = call model /\
  Forall2 module_kept (map eval_module (modules model)) (modules model') /\
  forall c m,
    In c (call model (map eval_module (modules model)) x) ->
    nth_error (map eval_module (modules model)) (target c) = Some (M_Conv2d m) ->
    exists m', nth_error (modules model') (target c) = Some (M_Conv2d m') /\
               in_height m' <> None /\ in_width m' <> None /\
               out_height m' <> None /\ out_width m' <> None.
Proof.
  unfold sample_activation_size.
  destruct (run_calls _ _ _) as [e | ms'] eqn:Hrun; [discriminate | ].
  cbn [rbind]. intros H. injection H as <-. cbn [call modules].
  apply run_calls_spec in Hrun as [Hk Hrec]. auto.
Qed.

(** The calibration pass leaves every quantizer in evaluation mode and
    keeps the forward pass, the kind of every module, the weights, the
    channel counts, the weight quantizers and the bitwidth and scale logits
    of the activation quantizers: it writes offsets and extents only. *)
Theorem calibration_keeps_parameters (model model' : Model) (x : Tensor)
    (channel_last : bool) :
  sample_activation_size model x channel_last = ok model' ->
  call model' = call model /\
  Forall2 (fun m m' => module_kept (eval_module m) m')
    (modules model) (modules model') /\
  Forall in_eval_mode (modules model').
Proof.
  intros H. apply sample_activation_size_kept in H as (Hcall & Hk & _).
  split; [exact Hcall | ].
  assert (Hk' : Forall2 (fun m m' => module_kept (eval_module m) m')
                  (modules model) (modules model')).
  { revert Hk. generalize (modules model') as ms'.
    induction (modules model) as [ | a ms IH]; intros ms' Hk; cbn in Hk;
      inversion Hk; subst; constructor; auto. }
  split; [exact Hk' | ].
  clear Hk. induction Hk' as [ | a b ms ms' Hab _ IH]; constructor; auto.
  now apply eval_module_in_eval_mode with a.
Qed.

Lemma sample_activation_size_demo :
  sample_activation_size calib_model zero_input false
  = ok (mkModel [M_Conv2d recalibrated_conv] (call calib_model)).
Proof.
  unfold sample_activation_size, run_calls, run_hooks, forward_hook,
    forward_off_hook, channel_min.
  cbn -[best_group group_err Rmin]. Reval.
  rewrite best_group_zeros. cbn -[group_err Rmin].
  rewrite group_err_zeros_one. reflexivity.
Qed.

Lemma calibration_keeps_parameters_witness :
  call (mkModel [M_Conv2d recalibrated_conv] (call calib_model))
  = call calib_model /\
  Forall2 (fun m m' => module_kept (eval_module m) m')
    (modules calib_model) [M_Conv2d recalibrated_conv] /\
  Forall in_eval_mode [M_Conv2d recalibrated_conv].
Proof.
  apply (calibration_keeps_parameters calib_model
           (mkModel [M_Conv2d recalibrated_conv] (call calib_model))
           zero_input false).
  exact sample_activation_size_demo.
Defined.

Lemma eval_module_conv (ms : list module) (i : nat) (m : Q_Conv2d) :
  nth_error ms i = Some (M_Conv2d m) ->
  exists m1, nth_error (map eval_module ms) i = Some (M_Conv2d m1).
Proof.
  intros H. rewrite nth_error_map, H. cbn. eauto.
Qed.

Lemma eval_module_conv_inv (ms : list module) (i : nat) (m1 : Q_Conv2d) :
  nth_error (map eval_module ms) i = Some (M_Conv2d m1) ->
  exists m, nth_error ms i = Some (M_Conv2d m).
Proof.
  rewrite nth_error_map. destruct (nth_error ms i) as [[m | l | ] | ];
    cbn; try discriminate. eauto.
Qed.

(** After the calibration pass every convolution that the forward pass
    called has its four extents recorded; when the pass called every
    convolution of the model, [model_bops] returns a total. *)
Theorem calibration_records_extents (model model' : Model) (x : Tensor)
    (channel_last : bool) :
  sample_activation_size model x channel_last = ok model' ->
  (forall c m,
     In c (call model (map eval_module (modules model)) x) ->
     nth_error (modules model) (target c) = Some (M_Conv2d m) ->
     exists m', nth_error (modules model') (target c) = Some (M_Conv2d m') /\
                in_height m' <> None /\ in_width m' <> None /\
                out_height m' <> None /\ out_width m' <> None) /\
  ((forall i m,
      nth_error (modules model) i = Some (M_Conv2d m) ->
      exists c, In c (call model (map eval_module (modules model)) x) /\
                target c = i) ->
   exists v, model_bops (modules model') = ok v).
Proof.
  intros H. apply sample_activation_size_kept in H as (_ & Hk & Hrec).
  assert (Hrec' : forall c m,
            In c (call model (map eval_module (modules model)) x) ->
            nth_error (modules model) (target c) = Some (M_Conv2d m) ->
            exists m', nth_error (modules model') (target c) = Some (M_Conv2d m') /\
                       in_height m' <> None /\ in_width m' <> None /\
                       out_height m' <> None /\ out_width m' <> None).
  { intros c m Hc Hn. destruct (eval_module_conv _ _ _ Hn) as [m1 Hn1].
    now apply (Hrec c m1). }
  split; [exact Hrec' | ].
  intros Hcalled. apply model_bops_needs_calibration_aux.
  apply Forall_forall. intros m' Hin.
  destruct m' as [b | b | ]; cbn; auto.
  apply In_nth_error in Hin as [i Hi].
  assert (Hconv : exists m1, nth_error (map eval_module (modules model)) i
                             = Some (M_Conv2d m1)).
  { clear Hrec Hrec' Hcalled. revert i Hi.
    induction Hk as [ | a b' l l' Hab _ IH]; intros [ | i] Hi; cbn in Hi;
      try discriminate.
    - injection Hi as ->. destruct a as [a | a | ]; cbn in Hab; try contradiction.
      cbn. eauto.
    - cbn. now apply IH. }
  destruct Hconv as [m1 Hm1].
  destruct (eval_module_conv_inv _ _ _ Hm1) as [m0 Hm0].
  destruct (Hcalled i m0 Hm0) as (c & Hc & <-).
  destruct (Hrec' c m0 Hc Hm0) as (m' & Hn' & _ & _ & Hoh & How).
  rewrite Hi in Hn'. injection Hn' as <-. now split.
Qed.

Lemma calibration_records_extents_witness :
  (forall c m,
     In c (call calib_model (map eval_module (modules calib_model)) zero_input) ->
     nth_error (modules calib_model) (target c) = Some (M_Conv2d m) ->
     exists m', nth_error [M_Conv2d recalibrated_conv] (target c)
                = Some (M_Conv2d m') /\
                in_height m' <> None /\ in_width m' <> None /\
                out_height m' <> None /\ out_width m' <> None) /\
  ((forall i m,
      nth_error (modules calib_model) i = Some (M_Conv2d m) ->
      exists c,
        In c (call calib_model (map eval_module (modules calib_model)) zero_input)
        /\ target c = i) ->
   exists v, model_bops [M_Conv2d recalibrated_conv] = ok v).
Proof.
  apply (calibration_records_extents calib_model
           (mkModel [M_Conv2d recalibrated_conv] (call calib_model))
           zero_input false).
  exact sample_activation_size_demo.
Defined.

(** ** [initialize_Q], continued *)

Lemma frozen_bitwidth_integer (q : Quantizer) :
  exists n : Z,
    (2 <= n <= 8)%Z /\ bitwidth (set_bitwidth_requires_grad false q) = IZR n.
Proof.
  exists (round_half_even (_logit2bit (data (_bitwidth q)))).
  split; [apply round_logit2bit | reflexivity].
Qed.

Lemma rmapM_finetune_again (ms ms' : list module) :
  Forall2 bitwidth_frozen ms ms' ->
  rmapM (initialize_module false) ms' = ok ms' /\
  Forall integer_bitwidths ms'.
Proof.
  induction 1 as [ | a b ms ms' Hab _ [IH1 IH2]]; [split; [reflexivity | constructor] | ].
  cbn [rmapM]. rewrite IH1.
  destruct a as [a | a | ], b as [b | b | ]; cbn in Hab; try contradiction.
  - destruct Hab as (-> & _ & _). split; [reflexivity | ].
    constructor; [ | exact IH2]. cbn.
    destruct (frozen_bitwidth_integer (a_quant a)) as (na & Hna & Ea).
    destruct (frozen_bitwidth_integer (w_quant a)) as (nw & Hnw & Ew).
    exists na, nw. auto.
  - destruct Hab as (-> & _ & _). split; [reflexivity | ].
    constructor; [ | exact IH2]. cbn.
    destruct (frozen_bitwidth_integer (lin_a_quant a)) as (na & Hna & Ea).
    destruct (frozen_bitwidth_integer (lin_w_quant a)) as (nw & Hnw & Ew).
    exists na, nw. auto.
  - split; [reflexivity | ]. constructor; [exact I | exact IH2].
Qed.

(** Mode ["finetune"] always succeeds, keeps the number of modules, leaves
    every quantized operator with whole bitwidths from 2 to 8, and applied
    to its own result changes nothing. *)
Theorem initialize_Q_finetune_idempotent (model : Model)
    (s1 s2 : option Tensor) (cl1 cl2 : bool) :
  exists model1,
    initialize_Q model "finetune" s1 cl1 = ok model1 /\
    initialize_Q model1 "finetune" s2 cl2 = ok model1 /\
    length (modules model1) = length (modules model) /\
    Forall integer_bitwidths (modules model1).
Proof.
  unfold initialize_Q. cbn [String.eqb Ascii.eqb Bool.eqb orb negb rbind ok].
  destruct (rmapM_finetune (modules model)) as (ms' & Hms & Hall).
  rewrite Hms. cbn [rbind ok]. eexists. split; [reflexivity | ].
  cbn [modules call].
  destruct (rmapM_finetune_again _ _ Hall) as [Hagain Hint].
  rewrite Hagain. cbn [rbind ok]. split; [reflexivity | ].
  split; [symmetry; now apply (Forall2_length Hall) | exact Hint].
Qed.

Lemma rmapM_first_lacks_weight (ms : list module) :
  Exists lacks_weight ms ->
  rmapM (initialize_module true) ms = raise RuntimeError.
Proof.
  induction ms as [ | m ms IH]; intros H; inversion H as [? ? Hm | ? ? Hms];
    subst.
  - destruct m as [a | a | ]; cbn in Hm; try contradiction;
      cbn [rmapM initialize_module]; rewrite Hm; reflexivity.
  - specialize (IH Hms). cbn [rmapM]. rewrite IH.
    destruct m as [a | a | ]; cbn [initialize_module].
    + destruct (weight a); reflexivity.
    + destruct (lin_weight a); reflexivity.
    + reflexivity.
Qed.

(** [initialize_Q] fails with [AssertionError] on any mode other than
    ["first"] and ["finetune"]; in mode ["first"] an exception of the
    calibration pass is passed on, and a quantized operator without a
    weight element makes the seeding raise [RuntimeError]. *)
Theorem initialize_Q_failures (model : Model) (channel_last : bool) :
  (forall mode sample_input,
     mode <> "first"%string -> mode <> "finetune"%string ->
     initialize_Q model mode sample_input channel_last = raise AssertionError) /\
  (forall x e,
     sample_activation_size model x channel_last = raise e ->
     initialize_Q model "first" (Some x) channel_last = raise e) /\
  (forall x model1,
     sample_activation_size model x channel_last = ok model1 ->
     Exists lacks_weight (modules model1) ->
     initialize_Q model "first" (Some x) channel_last = raise RuntimeError).
Proof.
  split; [ | split].
  - intros mode sample_input H1 H2. unfold initialize_Q.
    apply String.eqb_neq in H1, H2. rewrite H1, H2. reflexivity.
  - intros x e He. unfold initialize_Q.
    cbn [String.eqb Ascii.eqb Bool.eqb orb negb]. rewrite He. reflexivity.
  - intros x model1 Hm Hex. unfold initialize_Q.
    cbn [String.eqb Ascii.eqb Bool.eqb orb negb]. rewrite Hm.
    cbn [rbind ok]. rewrite (rmapM_first_lacks_weight _ Hex). reflexivity.
Qed.

Lemma initialize_Q_failures_witness :
  initialize_Q demo_model "eval" None false = raise AssertionError.
Proof.
  apply (proj1 (initialize_Q_failures demo_model false) "eval"%string None);
    discriminate.
Defined.

Lemma eval_mode_deterministic (q : Quantizer) :
  training q = false -> deterministic_forward q.
Proof.
  intros Ht rs t off s Hoff. unfold forward. rewrite Ht.
  destruct (quant_lsq_value q t off false s Hoff eq_refl)
    as (y & Hy & _ & _ & Hval).
  exists y. now split.
Qed.

Lemma in_eval_mode_deterministic (m : module) :
  in_eval_mode m -> deterministic_module m.
Proof.
  destruct m as [a | a | ]; cbn; [ | | tauto];
    intros [Ha Hw]; split; now apply eval_mode_deterministic.
Qed.

Lemma initialize_module_first_eval (m m' : module) :
  initialize_module true m = ok m' -> in_eval_mode m -> in_eval_mode m'.
Proof.
  destruct m as [a | a | ]; cbn [initialize_module].
  - destruct (tensor_max (weight a)); [discriminate | ]. cbn [rbind].
    intros H. injection H as <-. cbn. tauto.
  - destruct (tensor_max (lin_weight a)); [discriminate | ]. cbn [rbind].
    intros H. injection H as <-. cbn. tauto.
  - intros H. injection H as <-. tauto.
Qed.

(** After a successful [initialize_Q] in mode ["first"] the model is still
    in the evaluation mode that the calibration pass set: [forward] of
    every quantizer runs the deterministic policy and draws nothing, until
    the caller switches the model back to training. *)
Theorem initialize_Q_first_leaves_eval_mode (model model2 : Model)
    (x : Tensor) (channel_last : bool) :
  initialize_Q model "first" (Some x) channel_last = ok model2 ->
  Forall in_eval_mode (modules model2) /\
  Forall deterministic_module (modules model2).
Proof.
  unfold initialize_Q. cbn [String.eqb Ascii.eqb Bool.eqb orb negb].
  destruct (sample_activation_size model x channel_last) as [e | model1] eqn:H1;
    [discriminate | ].
  cbn [rbind].
  destruct (rmapM (initialize_module true) (modules model1)) as [e | ms2] eqn:H2;
    [discriminate | ].
  cbn [rbind]. intros H. injection H as <-. cbn [modules].
  apply sample_activation_size_kept in H1 as (_ & Hk & _).
  assert (Hev1 : Forall in_eval_mode (modules model1)).
  { revert Hk. generalize (modules model1) as ms1.
    induction (modules model) as [ | a ms IH]; intros ms1 Hk; cbn in Hk;
      inversion Hk; subst; constructor; auto.
    now apply eval_module_in_eval_mode with a. }
  apply rmapM_Forall2 in H2.
  assert (Hev2 : Forall in_eval_mode ms2).
  { clear Hk. induction H2 as [ | a b l l' Hab _ IH]; [constructor | ].
    inversion Hev1; subst. constructor; auto.
    now apply initialize_module_first_eval with a. }
  split; [exact Hev2 | ].
  clear H2. induction Hev2; constructor; auto.
  now apply in_eval_mode_deterministic.
Qed.

Lemma initialize_Q_first_leaves_eval_mode_witness :
  Forall in_eval_mode
    [M_Conv2d (with_quantizers (a_quant eval_conv)
                 (set_alpha_data (Rmax (-5) 1) (w_quant eval_conv)) eval_conv);
     M_Other] /\
  Forall deterministic_module
    [M_Conv2d (with_quantizers (a_quant eval_conv)
                 (set_alpha_data (Rmax (-5) 1) (w_quant eval_conv)) eval_conv);
     M_Other].
Proof.
  apply (initialize_Q_first_leaves_eval_mode demo_model
           (mkModel
              [M_Conv2d (with_quantizers (a_quant eval_conv)
                           (set_alpha_data (Rmax (-5) 1) (w_quant eval_conv))
                           eval_conv);
               M_Other] (call demo_model))
           zero_input false).
  reflexivity.
Defined.

(** ** The group search below four channels *)

(** With fewer than four channels the group search never returns: the
    group count one above the number of channels has an empty group, whose
    minimum raises [RuntimeError], unless an earlier count has already
    failed with [RuntimeError] or [SystemExit]. *)
Theorem best_group_needs_four_channels (c_min : list R) (off : R) :
  (length c_min < 4)%nat ->
  best_group c_min off = raise RuntimeError \/
  best_group c_min off = raise SystemExit.
Proof.
  apply best_group_short.
Qed.

Lemma best_group_needs_four_channels_witness :
  best_group [0; 0] 0 = raise RuntimeError \/
  best_group [0; 0] 0 = raise SystemExit.
Proof.
  apply (best_group_needs_four_channels [0; 0] 0). cbn. lia.
Defined.

Lemma noise_quant_backward_cpu_witness :
  exists d' : R,
    fst (noise_quant_backward
           (fst (fst (noise_quant_forward zero_input 1 demo_rng)))
           zero_input demo_rng)
    = ok (zero_input, d') /\
    forall i,
      elem (snd (fst (noise_quant_forward zero_input 1 demo_rng))) i
      = elem zero_input i + d' * 1.
Proof.
  apply (noise_quant_backward_cpu zero_input 1 demo_rng demo_rng zero_input).
  reflexivity.
Defined.
